(** * CanonPtr: the pointer-tagging pass of llvm/lib/Transforms/Utils/CanonPtr.cpp

    A shallow embedding of the pass over a small model of LLVM IR: values,
    instructions, basic blocks and functions, the IRBuilder that emits the
    tagging sequence, the insertion-point resolver with its edge splitting,
    the eligibility filter and the vtable classifier.

    The pass itself ([getInsertPointAfter], [shouldInstrument], [isVtableGep],
    [runOnFunc], [run]) is transcribed from its source.  The operations of the
    host IR it calls (use lists, [replaceUsesOfWith], the PHI accessors, the
    IRBuilder with its constant folder, [hasAllZeroIndices]) are given their
    documented meaning on the model; the two offset helpers,
    [accumulateConstantOffset] and [emitGEPOffset], follow the specification
    of the offset synthesizer. *)

From Stdlib Require Import ZArith List String Ascii Bool Lia Arith PeanoNat.
Import ListNotations.

Local Open Scope Z_scope.
Local Open Scope string_scope.

(** ** The IR data model *)

(** Instructions and blocks are heap objects in LLVM, referred to by pointer.
    The model names each of them by a number. *)
Definition InstId := nat.
Definition BlockId := nat.

(** What an operand may refer to. [VConstInt] is a [ConstantInt] of the
    pointer-sized integer type; [VGlobalVar] is a [GlobalVariable]. *)
Inductive Value : Type :=
| VInst (i : InstId)
| VArg (n : nat)
| VGlobalVar (name : string)
| VConstInt (z : Z).

Inductive BinOpcode : Type := Add | Sub | Mul | Shl | LShr | And.

(** An index of a pointer-arithmetic instruction, paired with what the data
    layout says about the type it steps through: the allocation size of the
    element for a sequential index, the offset of the field for a struct
    index (whose operand is the constant field number). *)
Inductive GepIndex : Type :=
| SeqIndex (v : Value) (elemSize : Z)
| StructIndex (field : Z) (fieldOffset : Z).

Inductive InstKind : Type :=
| GetElementPtr (base : Value) (indices : list GepIndex) (isVectorTy : bool)
| PHI (incoming : list (Value * BlockId))
| Invoke (args : list Value) (normalDest unwindDest : BlockId)
| Br (dest : BlockId)
| PtrToInt (v : Value)
| IntToPtr (v : Value)
| BinOp (op : BinOpcode) (lhs rhs : Value)
| Other (isTerm : bool) (ops : list Value) (succs : list BlockId).

(** [iname] is the empty string for a value without a name. *)
Record Instruction : Type := mkInst {
  iid : InstId;
  iname : string;
  ikind : InstKind
}.

Record BasicBlock : Type := mkBlock {
  bid : BlockId;
  bname : string;
  insts : list Instruction
}.

Inductive Linkage : Type :=
| ExternalLinkage
| AvailableExternallyLinkage
| LinkOnceAnyLinkage
| LinkOnceODRLinkage
| WeakAnyLinkage
| WeakODRLinkage
| AppendingLinkage
| InternalLinkage
| PrivateLinkage
| ExternalWeakLinkage
| CommonLinkage.

Inductive Attribute : Type :=
| CanonPtr
| DisableSanitizerInstrumentation
| OtherAttr (name : string).

Record Function : Type := mkFunction {
  fname : string;
  linkage : Linkage;
  fnAttrs : list Attribute;
  materializable : bool;
  fargs : list string;
  blocks : list BasicBlock
}.

Definition Module := list Function.

(** ** 64-bit machine arithmetic *)

Definition wrap64 (z : Z) : Z := z mod 2 ^ 64.

Definition evalBinOp (op : BinOpcode) (a b : Z) : Z :=
  match op with
  | Add => wrap64 (a + b)
  | Sub => wrap64 (a - b)
  | Mul => wrap64 (a * b)
  | Shl => wrap64 (Z.shiftl a b)
  | LShr => Z.shiftr a b
  | And => Z.land a b
  end.

(** ** Operands and uses *)

Definition indexOperand (ix : GepIndex) : Value :=
  match ix with
  | SeqIndex v _ => v
  | StructIndex f _ => VConstInt f
  end.

Definition operands (k : InstKind) : list Value :=
  match k with
  | GetElementPtr base idxs _ => base :: map indexOperand idxs
  | PHI inc => map fst inc
  | Invoke args _ _ => args
  | Br _ => []
  | PtrToInt v => [v]
  | IntToPtr v => [v]
  | BinOp _ l r => [l; r]
  | Other _ ops _ => ops
  end.

Definition isInstRef (g : InstId) (v : Value) : bool :=
  match v with
  | VInst i => Nat.eqb i g
  | _ => false
  end.

(** One operand slot after [replaceUsesOfWith(From, To)], where [From] is the
    instruction [g]. *)
Definition substValue (g : InstId) (to : Value) (v : Value) : Value :=
  if isInstRef g v then to else v.

Definition substIndex (g : InstId) (to : Value) (ix : GepIndex) : GepIndex :=
  match ix with
  | SeqIndex v sz => SeqIndex (substValue g to v) sz
  | StructIndex f off => StructIndex f off
  end.

Definition substKind (g : InstId) (to : Value) (k : InstKind) : InstKind :=
  match k with
  | GetElementPtr base idxs vec =>
      GetElementPtr (substValue g to base) (map (substIndex g to) idxs) vec
  | PHI inc => PHI (map (fun e => (substValue g to (fst e), snd e)) inc)
  | Invoke args n u => Invoke (map (substValue g to) args) n u
  | Br d => Br d
  | PtrToInt v => PtrToInt (substValue g to v)
  | IntToPtr v => IntToPtr (substValue g to v)
  | BinOp op l r => BinOp op (substValue g to l) (substValue g to r)
  | Other t ops succs => Other t (map (substValue g to) ops) succs
  end.

Definition substInst (g : InstId) (to : Value) (i : Instruction) : Instruction :=
  mkInst (iid i) (iname i) (substKind g to (ikind i)).

(** ** Walking a function *)

(** [instructions(F)]: every instruction, block after block. *)
Definition instructions (F : Function) : list Instruction :=
  flat_map insts (blocks F).

Definition mapBlocks (f : BasicBlock -> BasicBlock) (F : Function) : Function :=
  mkFunction (fname F) (linkage F) (fnAttrs F) (materializable F) (fargs F)
             (map f (blocks F)).

Definition mapInsts (f : Instruction -> Instruction) (F : Function) : Function :=
  mapBlocks (fun b => mkBlock (bid b) (bname b) (map f (insts b))) F.

Definition lookupInst (F : Function) (i : InstId) : option Instruction :=
  find (fun x => Nat.eqb (iid x) i) (instructions F).

Definition lookupBlock (F : Function) (b : BlockId) : option BasicBlock :=
  find (fun x => Nat.eqb (bid x) b) (blocks F).

(** [I->getParent()]: the block that holds the instruction. *)
Definition getParent (F : Function) (i : InstId) : option BasicBlock :=
  find (fun b => existsb (fun x => Nat.eqb (iid x) i) (insts b)) (blocks F).

(** [V->getName()], the empty string when the value has no name. *)
Definition getName (F : Function) (v : Value) : string :=
  match v with
  | VInst i => match lookupInst F i with Some x => iname x | None => "" end
  | VArg n => nth n (fargs F) ""
  | VGlobalVar s => s
  | VConstInt _ => ""
  end.

(** The user list of instruction [g]: one entry per operand slot that refers
    to it.  LLVM keeps the list in an order of its own; the pass does not
    depend on it. *)
Definition usesIn (g : InstId) (i : Instruction) : list InstId :=
  map (fun _ => iid i) (filter (isInstRef g) (operands (ikind i))).

Definition users (F : Function) (g : InstId) : list InstId :=
  flat_map (usesIn g) (instructions F).

(** ** Fresh objects

    A newly allocated instruction or block is distinct from every object the
    function holds or refers to: its number is above all of them. *)
Definition valueId (v : Value) : nat :=
  match v with VInst i => S i | _ => O end.

Definition instBound (i : Instruction) : nat :=
  fold_right Nat.max (S (iid i)) (map valueId (operands (ikind i))).

Definition freshInst (F : Function) : InstId :=
  fold_right Nat.max O (map instBound (instructions F)).

Definition successors (k : InstKind) : list BlockId :=
  match k with
  | Invoke _ n u => [n; u]
  | Br d => [d]
  | Other _ _ succs => succs
  | _ => []
  end.

Definition kindBlocks (k : InstKind) : list BlockId :=
  match k with
  | PHI inc => map snd inc
  | _ => successors k
  end.

Definition blockBound (b : BasicBlock) : nat :=
  fold_right Nat.max (S (bid b))
    (map S (flat_map (fun i => kindBlocks (ikind i)) (insts b))).

Definition freshBlock (F : Function) : BlockId :=
  fold_right Nat.max O (map blockBound (blocks F)).

(** ** The IRBuilder

    The builder appends instructions at one insertion point; [emitted] is
    what it has inserted so far, in program order.  With the default constant
    folder an operation on two constants yields a constant and inserts
    nothing. *)
Record Builder : Type := mkBuilder {
  nextId : InstId;
  emitted : list Instruction
}.

Definition IRB (A : Type) : Type := Builder -> A * Builder.

Definition ret {A : Type} (a : A) : IRB A := fun s => (a, s).

Definition bind {A B : Type} (m : IRB A) (k : A -> IRB B) : IRB B :=
  fun s => let (a, s') := m s in k a s'.

Notation "x <- m ;; k" := (bind m (fun x => k))
  (at level 61, m at next level, right associativity).

Definition Insert (k : InstKind) (name : string) : IRB Value :=
  fun s => (VInst (nextId s),
            mkBuilder (S (nextId s)) (emitted s ++ [mkInst (nextId s) name k])).

Definition constValue (z : Z) : Z := wrap64 z.

Definition CreateBinOp (op : BinOpcode) (l r : Value) (name : string) : IRB Value :=
  match l, r with
  | VConstInt a, VConstInt b =>
      ret (VConstInt (evalBinOp op (constValue a) (constValue b)))
  | _, _ => Insert (BinOp op l r) name
  end.

Definition CreatePtrToInt (v : Value) (name : string) : IRB Value :=
  Insert (PtrToInt v) name.

Definition CreateIntToPtr (v : Value) (name : string) : IRB Value :=
  Insert (IntToPtr v) name.

Definition CreateLShr := CreateBinOp LShr.
Definition CreateAnd := CreateBinOp And.
Definition CreateShl := CreateBinOp Shl.
Definition CreateAdd := CreateBinOp Add.
Definition CreateMul := CreateBinOp Mul.

(** [CreateNeg(V)] is [CreateSub(0, V)]. *)
Definition CreateNeg (v : Value) (name : string) : IRB Value :=
  CreateBinOp Sub (VConstInt 0) v name.

(** ** Offset synthesizer *)

Definition isConstZero (v : Value) : bool :=
  match v with
  | VConstInt z => Z.eqb (constValue z) 0
  | _ => false
  end.

(** [GEP->hasAllZeroIndices()]: every index operand is the constant zero. *)
Definition hasAllZeroIndices (idxs : list GepIndex) : bool :=
  forallb (fun ix => isConstZero (indexOperand ix)) idxs.

(** Modelled from the spec: [GEP->accumulateConstantOffset(DL, Offset)] is a
    helper of the host compiler that is not part of the pass's own sources.
    It folds the full set of indices, each with its element or field byte
    size from the layout, into one compile-time integer: the displacement of
    each index is added to the 64-bit accumulator, negative displacements
    wrapping; it fails at the first index that is not statically known. *)
Fixpoint accumulateConstantOffset (idxs : list GepIndex) (Offset : Z) : option Z :=
  match idxs with
  | [] => Some Offset
  | StructIndex _ off :: rest => accumulateConstantOffset rest (wrap64 (Offset + off))
  | SeqIndex (VConstInt z) sz :: rest =>
      accumulateConstantOffset rest (wrap64 (Offset + z * sz))
  | SeqIndex _ _ :: _ => None
  end.

(** The displacement of one index as a mathematical integer, when constant. *)
Definition indexDisplacement (ix : GepIndex) : Z :=
  match ix with
  | SeqIndex (VConstInt z) sz => z * sz
  | SeqIndex _ _ => 0
  | StructIndex _ off => off
  end.

Definition isConstIndex (ix : GepIndex) : bool :=
  match indexOperand ix with
  | VConstInt _ => true
  | _ => false
  end.

(** Modelled from the spec: [emitGEPOffset] is a helper of the host compiler
    that is not part of the pass's own sources.  For each index it multiplies
    the index by its element's byte size and sums the per-index products with
    the constant remainders, at the pointer-width integer type; a struct index
    contributes its field offset as a constant. *)
Fixpoint emitOffsetTerms (name : string) (idxs : list GepIndex)
    (Result : option Value) : IRB (option Value) :=
  match idxs with
  | [] => ret Result
  | ix :: rest =>
      term <- match ix with
              | SeqIndex v sz => CreateMul v (VConstInt sz) (name ++ ".idx")
              | StructIndex _ off => ret (VConstInt off)
              end ;;
      acc <- match Result with
             | None => ret term
             | Some r => CreateAdd r term (name ++ ".offs")
             end ;;
      emitOffsetTerms name rest (Some acc)
  end.

Definition emitGEPOffset (name : string) (idxs : list GepIndex) : IRB Value :=
  r <- emitOffsetTerms name idxs None ;;
  ret (match r with Some v => v | None => VConstInt 0 end).

(** ** Bit-tagging code generator *)

Definition EnableBitSel : Z := 48.

Definition hasName (name : string) : bool := negb (String.eqb name "").

(** The instructions [runOnFunc] creates for one pointer-arithmetic
    instruction [gep], in the order of the source; the result is [NewPtr]. *)
Definition emitTagging (gep : InstId) (name : string) (idxs : list GepIndex)
    : IRB Value :=
  let Prefix := if hasName name then name ++ "." else "" in
  PtrInt <- CreatePtrToInt (VInst gep) (Prefix ++ "int") ;;
  UpperBits <- CreateLShr PtrInt (VConstInt EnableBitSel) (Prefix ++ "upperbits") ;;
  EnableSel <- CreateAnd UpperBits (VConstInt 1) (Prefix ++ "enable.sel") ;;
  EnableBit <- CreateNeg EnableSel (Prefix ++ "enable.bit") ;;
  Diff <- match accumulateConstantOffset idxs 0 with
          | Some c => ret (VConstInt c)
          | None => emitGEPOffset name idxs
          end ;;
  Shifted <- CreateShl Diff (VConstInt 49) (Prefix ++ "shifted") ;;
  AddOffset <- CreateAnd Shifted EnableBit "" ;;
  PtrAdd <- CreateAdd PtrInt AddOffset (Prefix ++ "added") ;;
  CreateIntToPtr PtrAdd (Prefix ++ "newptr").

(** ** Insertion-point resolver *)

Definition isPHI (i : Instruction) : bool :=
  match ikind i with PHI _ => true | _ => false end.

Definition isTerminator (k : InstKind) : bool :=
  match k with
  | Invoke _ _ _ => true
  | Br _ => true
  | Other t _ _ => t
  | _ => false
  end.

(** [PN->getBasicBlockIndex(BB)]: the first incoming entry keyed by [BB]. *)
Fixpoint getBasicBlockIndex (inc : list (Value * BlockId)) (BB : BlockId)
    : option nat :=
  match inc with
  | [] => None
  | (_, b) :: rest =>
      if Nat.eqb b BB then Some O
      else option_map S (getBasicBlockIndex rest BB)
  end.

(** [PN->setIncomingBlock(i, BB)]: the key changes, the value stays. *)
Fixpoint setIncomingBlock (inc : list (Value * BlockId)) (i : nat) (BB : BlockId)
    : list (Value * BlockId) :=
  match inc, i with
  | [], _ => []
  | (v, _) :: rest, O => (v, BB) :: rest
  | e :: rest, S j => e :: setIncomingBlock rest j BB
  end.

(** The inner loop of the PHI patch,
      [while ((i = PN->getBasicBlockIndex(Parent)) >= 0) PN->setIncomingBlock(i, NewBlock)].
    [fuel] bounds the number of iterations; [None] stands for a loop that has
    not finished within the bound. *)
Fixpoint patchPHI (fuel : nat) (Parent NewBlock : BlockId)
    (inc : list (Value * BlockId)) : option (list (Value * BlockId)) :=
  match getBasicBlockIndex inc Parent with
  | None => Some inc
  | Some i =>
      match fuel with
      | O => None
      | S f => patchPHI f Parent NewBlock (setIncomingBlock inc i NewBlock)
      end
  end.

(** The outer loop: from the first instruction of the block, as long as the
    instruction is a PHI node. *)
Fixpoint patchPHIs (Parent NewBlock : BlockId) (l : list Instruction)
    : option (list Instruction) :=
  match l with
  | [] => Some []
  | x :: rest =>
      match ikind x with
      | PHI inc =>
          match patchPHI (List.length inc) Parent NewBlock inc with
          | None => None
          | Some inc' =>
              match patchPHIs Parent NewBlock rest with
              | None => None
              | Some rest' => Some (mkInst (iid x) (iname x) (PHI inc') :: rest')
              end
          end
      | _ => Some l
      end
  end.

Fixpoint mapM {A B : Type} (f : A -> option B) (l : list A) : option (list B) :=
  match l with
  | [] => Some []
  | x :: rest =>
      match f x with
      | None => None
      | Some y =>
          match mapM f rest with
          | None => None
          | Some ys => Some (y :: ys)
          end
      end
  end.

Definition withBlocks (F : Function) (bs : list BasicBlock) : Function :=
  mkFunction (fname F) (linkage F) (fnAttrs F) (materializable F) (fargs F) bs.

(** [BasicBlock::Create(..., Parent, InsertBefore)]. *)
Fixpoint insertBlockBefore (Dst : BlockId) (nb : BasicBlock)
    (bs : list BasicBlock) : list BasicBlock :=
  match bs with
  | [] => []
  | b :: rest =>
      if Nat.eqb (bid b) Dst then nb :: b :: rest
      else b :: insertBlockBefore Dst nb rest
  end.

(** [Invoke->setNormalDest(NewBlock)]. *)
Definition redirectInvoke (inv : InstId) (NewBlock : BlockId) (x : Instruction)
    : Instruction :=
  if Nat.eqb (iid x) inv then
    match ikind x with
    | Invoke args _ u => mkInst (iid x) (iname x) (Invoke args NewBlock u)
    | _ => x
    end
  else x.

Definition setNormalDest (inv : InstId) (NewBlock : BlockId) (F : Function)
    : Function :=
  mapInsts (redirectInvoke inv NewBlock) F.

Definition patchDst (Dst Parent NewBlock : BlockId) (F : Function)
    : option Function :=
  option_map (withBlocks F)
    (mapM (fun b =>
       if Nat.eqb (bid b) Dst then
         option_map (mkBlock (bid b) (bname b))
                    (patchPHIs Parent NewBlock (insts b))
       else Some b) (blocks F)).

(** The instruction that follows [i] in a block's list. *)
Fixpoint nextIn (i : InstId) (l : list Instruction) : option InstId :=
  match l with
  | [] => None
  | x :: rest =>
      if Nat.eqb (iid x) i then
        match rest with
        | y :: _ => Some (iid y)
        | [] => None
        end
      else nextIn i rest
  end.

(** [BB->getFirstInsertionPt()]: the first instruction that is not a PHI. *)
Definition getFirstInsertionPt (b : BasicBlock) : option InstId :=
  option_map iid (find (fun x => negb (isPHI x)) (insts b)).

(** [getInsertPointAfter(Instruction *I)].  The result is the instruction in
    front of which the builder inserts, with the function as the edge split
    leaves it.  [None] is a failed assertion or an instruction the function
    does not hold. *)
Definition getInsertPointAfter (F : Function) (I : InstId)
    : option (Function * InstId) :=
  match lookupInst F I, getParent F I with
  | Some x, Some Parent =>
      match ikind x with
      | Invoke _ Dst _ =>
          match lookupBlock F Dst with
          | None => None
          | Some _ =>
              let NewBlock := freshBlock F in
              let BrId := freshInst F in
              let nb := mkBlock NewBlock "invoke_insert_point"
                                [mkInst BrId "" (Br Dst)] in
              let F1 := withBlocks F (insertBlockBefore Dst nb (blocks F)) in
              let F2 := setNormalDest I NewBlock F1 in
              option_map (fun F3 => (F3, BrId))
                         (patchDst Dst (bid Parent) NewBlock F2)
          end
      | PHI _ => option_map (fun ip => (F, ip)) (getFirstInsertionPt Parent)
      | k =>
          if isTerminator k then None
          else option_map (fun ip => (F, ip)) (nextIn I (insts Parent))
      end
  | _, _ => None
  end.


(** ** Eligibility filter and vtable classifier *)

Definition Linkage_eqb (a b : Linkage) : bool :=
  match a, b with
  | ExternalLinkage, ExternalLinkage
  | AvailableExternallyLinkage, AvailableExternallyLinkage
  | LinkOnceAnyLinkage, LinkOnceAnyLinkage
  | LinkOnceODRLinkage, LinkOnceODRLinkage
  | WeakAnyLinkage, WeakAnyLinkage
  | WeakODRLinkage, WeakODRLinkage
  | AppendingLinkage, AppendingLinkage
  | InternalLinkage, InternalLinkage
  | PrivateLinkage, PrivateLinkage
  | ExternalWeakLinkage, ExternalWeakLinkage
  | CommonLinkage, CommonLinkage => true
  | _, _ => false
  end.

Definition Attribute_eqb (a b : Attribute) : bool :=
  match a, b with
  | CanonPtr, CanonPtr => true
  | DisableSanitizerInstrumentation, DisableSanitizerInstrumentation => true
  | OtherAttr s, OtherAttr t => String.eqb s t
  | _, _ => false
  end.

Definition hasFnAttribute (F : Function) (a : Attribute) : bool :=
  existsb (Attribute_eqb a) (fnAttrs F).

(** [F.empty()]: the function holds no block. *)
Definition empty (F : Function) : bool :=
  match blocks F with [] => true | _ => false end.

(** Modelled from the spec: [isDeclaration] belongs to the host compiler's
    global-value class, outside the pass's own sources.  A function is a pure
    declaration when it has no body and none can be materialized for it. *)
Definition isDeclaration (F : Function) : bool :=
  empty F && negb (materializable F).

Definition starts_with (s pre : string) : bool := String.prefix pre s.

Definition shouldInstrument (F : Function) : bool :=
  if empty F then false
  else if isDeclaration F then false
  else if Linkage_eqb (linkage F) AvailableExternallyLinkage then false
  else if starts_with (fname F) "__canonptr_" then false
  else if hasFnAttribute F DisableSanitizerInstrumentation then false
  else hasFnAttribute F CanonPtr.

Definition isGlobalVariable (v : Value) : bool :=
  match v with VGlobalVar _ => true | _ => false end.

(** [isVtableGep(Gep)], on the pointer operand and the index list of [Gep]. *)
Definition isVtableGep (F : Function) (SrcPtr : Value) (idxs : list GepIndex)
    : bool :=
  if hasName (getName F SrcPtr) && starts_with (getName F SrcPtr) "vtable"
  then true
  else if
    match idxs with
    | [ix] =>
        let FirstOp := indexOperand ix in
        hasName (getName F FirstOp) && starts_with (getName F FirstOp) "vbase.offset"
    | _ => false
    end
  then true
  else if isGlobalVariable SrcPtr && starts_with (getName F SrcPtr) "_ZTV"
  then true
  else false.

(** ** The rewrite and the driver *)

Fixpoint insertIn (ip : InstId) (new : list Instruction) (l : list Instruction)
    : list Instruction :=
  match l with
  | [] => []
  | x :: rest =>
      if Nat.eqb (iid x) ip then new ++ x :: rest
      else x :: insertIn ip new rest
  end.

(** What the builder has inserted in front of [ip]. *)
Definition insertBefore (ip : InstId) (new : list Instruction) (F : Function)
    : Function :=
  mapBlocks (fun b => mkBlock (bid b) (bname b) (insertIn ip new (insts b))) F.

(** [U->replaceUsesOfWith(From, To)] for the user [U]. *)
Definition replaceUsesOfWith (U : InstId) (From : InstId) (To : Value)
    (F : Function) : Function :=
  mapInsts (fun x => if Nat.eqb (iid x) U then substInst From To x else x) F.

Definition isGEP (i : Instruction) : bool :=
  match ikind i with GetElementPtr _ _ _ => true | _ => false end.

(** The three tests that leave an instruction untouched. *)
Definition skipped (F : Function) (base : Value) (idxs : list GepIndex)
    (vec : bool) : bool :=
  if hasAllZeroIndices idxs then true
  else if isVtableGep F base idxs then true
  else vec.

(** One iteration of the loop over [GEPs] in [runOnFunc]. *)
Definition rewriteGEP (F : Function) (GEP : InstId) : option Function :=
  match lookupInst F GEP with
  | Some x =>
      match ikind x with
      | GetElementPtr base idxs vec =>
          if skipped F base idxs vec then Some F
          else
            match getInsertPointAfter F GEP with
            | None => None
            | Some (F1, ip) =>
                let Users := users F1 GEP in
                let (NewPtr, B) :=
                  emitTagging GEP (iname x) idxs (mkBuilder (freshInst F1) []) in
                Some (fold_left (fun acc U => replaceUsesOfWith U GEP NewPtr acc)
                                Users (insertBefore ip (emitted B) F1))
            end
      | _ => Some F
      end
  | None => Some F
  end.

(** The snapshot [GEPs] taken before any rewriting. *)
Definition collectGEPs (F : Function) : list InstId :=
  map iid (filter isGEP (instructions F)).

Definition runOnFunc (F : Function) : option Function :=
  fold_left (fun acc GEP =>
               match acc with
               | Some F' => rewriteGEP F' GEP
               | None => None
               end)
            (collectGEPs F) (Some F).

(** [CanonPtrPass::run]. *)
Definition run (M : Module) : option Module :=
  mapM (fun F => if shouldInstrument F then runOnFunc F else Some F) M.

(** ** Executing straight-line integer code *)

Record Env : Type := mkEnv {
  instVal : InstId -> Z;
  argVal : nat -> Z;
  globalVal : string -> Z
}.

Definition valueOf (env : Env) (v : Value) : Z :=
  match v with
  | VInst i => instVal env i
  | VArg n => argVal env n
  | VGlobalVar s => globalVal env s
  | VConstInt z => constValue z
  end.

(** Pointers are 64 bits wide, so both casts keep the bits. *)
Definition evalKind (env : Env) (k : InstKind) : option Z :=
  match k with
  | PtrToInt v => Some (valueOf env v)
  | IntToPtr v => Some (valueOf env v)
  | BinOp op l r => Some (evalBinOp op (valueOf env l) (valueOf env r))
  | _ => None
  end.

Definition setInst (env : Env) (i : InstId) (z : Z) : Env :=
  mkEnv (fun j => if Nat.eqb j i then z else instVal env j)
        (argVal env) (globalVal env).

Fixpoint exec (env : Env) (l : list Instruction) : option Env :=
  match l with
  | [] => Some env
  | x :: rest =>
      match evalKind env (ikind x) with
      | Some z => exec (setInst env (iid x) z) rest
      | None => None
      end
  end.

(** Two environments that agree on every instruction allocated before [n]. *)
Definition agreeBelow (n : InstId) (env env' : Env) : Prop :=
  (forall j, (j < n)%nat -> instVal env' j = instVal env j) /\
  argVal env' = argVal env /\ globalVal env' = globalVal env.

(** A run of emitted instructions that only writes instructions allocated
    from [n] on, and always executes. *)
Definition runsFrom (n : InstId) (new : list Instruction) : Prop :=
  forall env, exists env', exec env new = Some env' /\ agreeBelow n env env'.

(** The builder state [s'] extends [s] by executable instructions. *)
Definition extends (s s' : Builder) : Prop :=
  exists new,
    s' = mkBuilder (nextId s + List.length new)%nat (emitted s ++ new)%list /\
    runsFrom (nextId s) new.

(** ** Auxiliary notions used in the statements *)

Definition BinOpcode_eqb (a b : BinOpcode) : bool :=
  match a, b with
  | Add, Add | Sub, Sub | Mul, Mul | Shl, Shl | LShr, LShr | And, And => true
  | _, _ => false
  end.

Definition isBinOpOf (op : BinOpcode) (i : Instruction) : bool :=
  match ikind i with
  | BinOp op' _ _ => BinOpcode_eqb op op'
  | _ => false
  end.

(** The effect of redirecting the users [Us] of [g] to [to], on one
    instruction. *)
Definition retarget (Us : list InstId) (g : InstId) (to : Value)
    (x : Instruction) : Instruction :=
  if existsb (Nat.eqb (iid x)) Us then substInst g to x else x.

(** The candidates of the snapshot that pass the three skip tests. *)
Definition qualifies (F : Function) (i : Instruction) : bool :=
  match ikind i with
  | GetElementPtr base idxs vec => negb (skipped F base idxs vec)
  | _ => false
  end.

Definition qualifying (F : Function) : list InstId :=
  map iid (filter (qualifies F) (instructions F)).

Definition PrefixOf (name : string) : string :=
  if hasName name then name ++ "." else "".

(** ** The control-flow graph *)

Fixpoint lastInst (l : list Instruction) : option Instruction :=
  match l with
  | [] => None
  | [x] => Some x
  | _ :: rest => lastInst rest
  end.

(** The successors of a block are those of its terminator, its last
    instruction. *)
Definition blockSuccessors (b : BasicBlock) : list BlockId :=
  match lastInst (insts b) with
  | Some t => successors (ikind t)
  | None => []
  end.

Definition predecessors (F : Function) (Z : BlockId) : list BlockId :=
  map bid (filter (fun b => existsb (Nat.eqb Z) (blockSuccessors b)) (blocks F)).

(** The PHI nodes at the head of a block, and what follows them. *)
Fixpoint leadingPHIs (l : list Instruction) : list Instruction :=
  match l with
  | [] => []
  | x :: rest => if isPHI x then x :: leadingPHIs rest else []
  end.

Fixpoint afterPHIs (l : list Instruction) : list Instruction :=
  match l with
  | [] => []
  | x :: rest => if isPHI x then afterPHIs rest else l
  end.

(** Every PHI node of the block is in the leading group. *)
Definition phisGrouped (l : list Instruction) : bool :=
  forallb (fun x => negb (isPHI x)) (afterPHIs l).

(** Every incoming entry keyed by [P] keyed by [B] instead, values kept. *)
Definition rekey (P B : BlockId) (inc : list (Value * BlockId))
    : list (Value * BlockId) :=
  map (fun e => (fst e, if Nat.eqb (snd e) P then B else snd e)) inc.

Definition rekeyInst (P B : BlockId) (x : Instruction) : Instruction :=
  match ikind x with
  | PHI inc => mkInst (iid x) (iname x) (PHI (rekey P B inc))
  | _ => x
  end.

Definition incomingOf (x : Instruction) : list (Value * BlockId) :=
  match ikind x with
  | PHI inc => inc
  | _ => []
  end.

(** The number of incoming entries keyed by [P]. *)
Definition keyedBy (P : BlockId) (inc : list (Value * BlockId)) : nat :=
  List.length (filter (fun e => Nat.eqb (snd e) P) inc).

(** The block of the normal destination after the patch. *)
Definition patchBlock (Dst P B : BlockId) (b : BasicBlock) : BasicBlock :=
  if Nat.eqb (bid b) Dst
  then mkBlock (bid b) (bname b)
               (map (rekeyInst P B) (leadingPHIs (insts b)) ++ afterPHIs (insts b))
  else b.

(** What the edge split does to one block: the invoke is redirected, and the
    leading PHI nodes of the normal destination are rekeyed. *)
Definition redirectBlock (I : InstId) (B : BlockId) (b : BasicBlock) : BasicBlock :=
  mkBlock (bid b) (bname b) (map (redirectInvoke I B) (insts b)).

Definition splitBlock (I : InstId) (Dst P B : BlockId) (b : BasicBlock)
    : BasicBlock :=
  patchBlock Dst P B (redirectBlock I B b).

(** The block the edge split creates. *)
Definition insertPointBlock (F : Function) (Dst : BlockId) : BasicBlock :=
  mkBlock (freshBlock F) "invoke_insert_point" [mkInst (freshInst F) "" (Br Dst)].

(** Whether the iteration for the snapshot entry [g] rewrites: [g] is found,
    is a pointer-arithmetic instruction and passes the three skip tests. *)
Definition rewritten (F : Function) (g : InstId) : bool :=
  match lookupInst F g with
  | Some x => qualifies F x
  | None => false
  end.

(** The number of snapshot entries a run over [F] starts out to rewrite. *)
Definition rewriteCount (F : Function) : nat :=
  List.length (filter (rewritten F) (collectGEPs F)).

(** The name tests of the vtable classifier. *)
Definition nameTest (pat : string) (s : string) : bool :=
  hasName s && starts_with s pat.

(** No non-empty suffix of [p] is a prefix of [t]. *)
Fixpoint noTail (p t : string) : bool :=
  match p with
  | EmptyString => true
  | String _ p' => negb (String.prefix p t) && noTail p' t
  end.

(** The head of the tagging sequence: the pointer as an integer, the flag
    bit brought down and isolated, and its negation, the enable mask. *)
Definition taggingHead (n : InstId) (gep : InstId) (name : string)
    : list Instruction :=
  [ mkInst n (PrefixOf name ++ "int") (PtrToInt (VInst gep));
    mkInst (S n) (PrefixOf name ++ "upperbits")
           (BinOp LShr (VInst n) (VConstInt EnableBitSel));
    mkInst (S (S n)) (PrefixOf name ++ "enable.sel")
           (BinOp And (VInst (S n)) (VConstInt 1));
    mkInst (S (S (S n))) (PrefixOf name ++ "enable.bit")
           (BinOp Sub (VConstInt 0) (VInst (S (S n)))) ].

(** The tail of the tagging sequence, allocated from [m] on: the shifted
    offset masked, added to the pointer, and the sum as a pointer again. *)
Definition taggingTail (m n : InstId) (name : string) (Shifted : Value)
    : list Instruction :=
  [ mkInst m "" (BinOp And Shifted (VInst (S (S (S n)))));
    mkInst (S m) (PrefixOf name ++ "added") (BinOp Add (VInst n) (VInst m));
    mkInst (S (S m)) (PrefixOf name ++ "newptr") (IntToPtr (VInst (S m))) ].

(** Integer and cast instructions, the only kinds the builder emits here. *)
Definition isArith (i : Instruction) : bool :=
  match ikind i with
  | PtrToInt _ | IntToPtr _ | BinOp _ _ _ => true
  | _ => false
  end.

(** [v] refers to nothing allocated from [n] on. *)
Definition inScope (n : InstId) (v : Value) : Prop := (valueId v <= n)%nat.

(** Freshly emitted instructions: numbered consecutively from [n], integer
    or cast instructions, each referring only to what exists before it. *)
Fixpoint wfNew (n : InstId) (new : list Instruction) : Prop :=
  match new with
  | [] => True
  | x :: rest =>
      iid x = n /\ isArith x = true /\
      Forall (inScope n) (operands (ikind x)) /\
      wfNew (S n) rest
  end.

Definition grows (s s' : Builder) : Prop :=
  exists new,
    s' = mkBuilder (nextId s + List.length new)%nat (emitted s ++ new)%list /\
    wfNew (nextId s) new.

(** The seven instructions of the tagging sequence when the offset is the
    constant [c], allocated from [n] on. *)
Definition constantTagging (n : InstId) (gep : InstId) (name : string) (c : Z)
    : list Instruction :=
  [ mkInst n (PrefixOf name ++ "int") (PtrToInt (VInst gep));
    mkInst (S n) (PrefixOf name ++ "upperbits")
           (BinOp LShr (VInst n) (VConstInt EnableBitSel));
    mkInst (S (S n)) (PrefixOf name ++ "enable.sel")
           (BinOp And (VInst (S n)) (VConstInt 1));
    mkInst (S (S (S n))) (PrefixOf name ++ "enable.bit")
           (BinOp Sub (VConstInt 0) (VInst (S (S n))));
    mkInst (S (S (S (S n)))) ""
           (BinOp And (VConstInt (evalBinOp Shl (constValue c) (constValue 49)))
                      (VInst (S (S (S n)))));
    mkInst (S (S (S (S (S n))))) (PrefixOf name ++ "added")
           (BinOp Add (VInst n) (VInst (S (S (S (S n))))));
    mkInst (S (S (S (S (S (S n)))))) (PrefixOf name ++ "newptr")
           (IntToPtr (VInst (S (S (S (S (S n))))))) ].

(** ** Notions used for the properties of the whole run *)

(** Two functions with the same header and the same control-flow graph:
    same blocks in the same order, each with the same successors. *)
Definition sameCFG (F F' : Function) : Prop :=
  fname F' = fname F /\
  linkage F' = linkage F /\
  fnAttrs F' = fnAttrs F /\
  materializable F' = materializable F /\
  fargs F' = fargs F /\
  map bid (blocks F') = map bid (blocks F) /\
  map bname (blocks F') = map bname (blocks F) /\
  map blockSuccessors (blocks F') = map blockSuccessors (blocks F).

(** Every instruction the function held is still found under its number,
    with its name, and is a pointer-arithmetic instruction iff it was. *)
Definition kept (F F' : Function) : Prop :=
  forall j y, lookupInst F j = Some y ->
    exists y', lookupInst F' j = Some y' /\
               iname y' = iname y /\ isGEP y' = isGEP y.

(** The block does not end in a pointer-arithmetic instruction (it ends in
    its terminator). *)
Definition blockClosed (b : BasicBlock) : bool :=
  match lastInst (insts b) with
  | Some t => negb (isGEP t)
  | None => true
  end.

(** Of the instructions of [l], only the one numbered [n] reads [g]. *)
Definition soleReader (g n : InstId) (l : list Instruction) : Prop :=
  forall e, In e l -> In (VInst g) (operands (ikind e)) -> iid e = n.

(** A builder that allocates above [n] and has emitted no reader of [g]
    but the instruction numbered [n]. *)
Definition cleanState (g n : InstId) (s : Builder) : Prop :=
  (n < nextId s)%nat /\ soleReader g n (emitted s).

(** A builder action that keeps the state clean and whose result
    satisfies [Q]. *)
Definition cleanStep {A : Type} (g n : InstId) (m : IRB A) (Q : A -> Prop)
    : Prop :=
  forall s, cleanState g n s ->
    cleanState g n (snd (m s)) /\ Q (fst (m s)).




(** No pointer-arithmetic instruction of [F] has itself as an index. *)
Definition noSelfIndex (F : Function) : Prop :=
  forall y base idxs vec,
    In y (instructions F) -> ikind y = GetElementPtr base idxs vec ->
    Forall (fun ix => indexOperand ix <> VInst (iid y)) idxs.

(** One operand of [F] refers to [g]: that of a pointer-to-integer cast. *)
Definition castOnly (F : Function) (g : InstId) : Prop :=
  exists c nm,
    users F g = [c] /\
    lookupInst F c = Some (mkInst c nm (PtrToInt (VInst g))).

Local Open Scope nat_scope.

(** ** Sample functions

    [sampleFunction]: one block, a pointer-arithmetic instruction [%p] with
    the constant index -1 over 4-byte elements, a load of [%p], a return. *)
Definition sampleGEP : Instruction :=
  mkInst 1 "p" (GetElementPtr (VArg 0) [SeqIndex (VConstInt (-1)%Z) 4%Z] false).

Definition sampleFunction : Function :=
  mkFunction "f" ExternalLinkage [CanonPtr] false ["a"]
    [mkBlock 0 "entry"
       [sampleGEP;
        mkInst 2 "v" (Other false [VInst 1] []);
        mkInst 3 "" (Other true [VInst 2] [])]].

(** The same function with the result of the pointer arithmetic unused. *)
Definition sampleDeadFunction : Function :=
  mkFunction "g" ExternalLinkage [CanonPtr] false ["a"]
    [mkBlock 0 "entry"
       [sampleGEP;
        mkInst 2 "v" (Other false [VArg 0] []);
        mkInst 3 "" (Other true [VInst 2] [])]].

(** A function whose only pointer arithmetic addresses a virtual table. *)
Definition sampleVtableFunction : Function :=
  mkFunction "h" ExternalLinkage [CanonPtr] false ["this"]
    [mkBlock 0 "entry"
       [mkInst 1 "vtable" (Other false [VArg 0] []);
        mkInst 2 "vfn" (GetElementPtr (VInst 1) [SeqIndex (VConstInt 2%Z) 8%Z] false);
        mkInst 3 "" (Other true [VInst 2] [])]].

(** An exceptional call in block 0 whose normal destination, block 1, merges
    two values that both arrive from block 0. *)
Definition sampleInvokeFunction : Function :=
  mkFunction "k" ExternalLinkage [CanonPtr] false []
    [mkBlock 0 "entry"
       [mkInst 1 "r" (Invoke [] 1 2)];
     mkBlock 1 "cont"
       [mkInst 2 "m" (PHI [(VConstInt 7%Z, 0); (VConstInt 8%Z, 0)]);
        mkInst 3 "n" (PHI [(VInst 1, 0)]);
        mkInst 4 "" (Other true [VInst 2] [])];
     mkBlock 2 "lpad"
       [mkInst 5 "" (Other true [] [])]].

Definition sampleEnv (p : Z) : Env :=
  mkEnv (fun _ => p) (fun _ => 0%Z) (fun _ => 0%Z).

Local Open Scope Z_scope.

(** ** Machine arithmetic of the enable mask *)

Lemma wrap64_range (z : Z) : 0 <= wrap64 z < 2 ^ 64.
Proof. unfold wrap64. apply Z.mod_pos_bound. reflexivity. Qed.

Lemma wrap64_small (z : Z) : 0 <= z < 2 ^ 64 -> wrap64 z = z.
Proof. intros H. unfold wrap64. apply Z.mod_small. exact H. Qed.

Lemma wrap64_idem (z : Z) : wrap64 (wrap64 z) = wrap64 z.
Proof. apply wrap64_small, wrap64_range. Qed.

Lemma enable_sel_bit (p : Z) :
  Z.land (Z.shiftr p 48) 1 = Z.b2z (Z.testbit p 48).
Proof.
  change 1 with (Z.ones 1).
  rewrite Z.land_ones by lia.
  change (2 ^ 1) with 2.
  rewrite <- Z.bit0_mod.
  rewrite Z.shiftr_spec by lia.
  reflexivity.
Qed.

Lemma land_all_ones (s : Z) : Z.land s (2 ^ 64 - 1) = wrap64 s.
Proof.
  change (2 ^ 64 - 1) with (Z.ones 64).
  rewrite Z.land_ones by lia. reflexivity.
Qed.

(** The enable mask: all zeros when bit 48 is clear, all ones when it is set. *)
Lemma enable_mask (p : Z) :
  evalBinOp Sub (constValue 0)
            (evalBinOp And (evalBinOp LShr p (constValue EnableBitSel)) (constValue 1))
  = if Z.testbit p 48 then 2 ^ 64 - 1 else 0.
Proof.
  change (constValue EnableBitSel) with 48.
  change (constValue 1) with 1.
  change (constValue 0) with 0.
  cbn [evalBinOp].
  rewrite enable_sel_bit.
  destruct (Z.testbit p 48); reflexivity.
Qed.

(** ** Executing what the builder emits *)

Lemma exec_app (env : Env) (a b : list Instruction) :
  exec env (a ++ b) =
  match exec env a with Some e => exec e b | None => None end.
Proof.
  revert env. induction a as [|x a IH]; intros env; cbn; [reflexivity|].
  destruct (evalKind env (ikind x)); [apply IH | reflexivity].
Qed.

Lemma agreeBelow_refl (n : InstId) (env : Env) : agreeBelow n env env.
Proof. repeat split. Qed.

Lemma agreeBelow_trans (n m : InstId) (e1 e2 e3 : Env) :
  (n <= m)%nat -> agreeBelow n e1 e2 -> agreeBelow m e2 e3 -> agreeBelow n e1 e3.
Proof.
  intros Hnm (H1 & H2 & H3) (H4 & H5 & H6). repeat split.
  - intros j Hj. rewrite H4 by lia. apply H1; exact Hj.
  - congruence.
  - congruence.
Qed.

Lemma agreeBelow_setInst (n i : InstId) (env : Env) (z : Z) :
  (n <= i)%nat -> agreeBelow n env (setInst env i z).
Proof.
  intros Hi. repeat split. intros j Hj. cbn.
  destruct (Nat.eqb_spec j i); [lia | reflexivity].
Qed.

Lemma agreeBelow_valueOf (n : InstId) (env env' : Env) (v : Value) :
  agreeBelow n env env' -> (valueId v <= n)%nat -> valueOf env' v = valueOf env v.
Proof.
  intros (H1 & H2 & H3) Hv. destruct v as [i| a | s | z]; cbn in *.
  - apply H1. lia.
  - rewrite H2. reflexivity.
  - rewrite H3. reflexivity.
  - reflexivity.
Qed.

Lemma runsFrom_nil (n : InstId) : runsFrom n [].
Proof. intros env. exists env. split; [reflexivity | apply agreeBelow_refl]. Qed.

Lemma runsFrom_app (n : InstId) (a b : list Instruction) :
  runsFrom n a -> runsFrom (n + List.length a)%nat b -> runsFrom n (a ++ b).
Proof.
  intros Ha Hb env.
  destruct (Ha env) as (e1 & He1 & Ag1).
  destruct (Hb e1) as (e2 & He2 & Ag2).
  exists e2. split.
  - rewrite exec_app, He1. exact He2.
  - apply (agreeBelow_trans n (n + List.length a)%nat env e1 e2); [lia | assumption | assumption].
Qed.

Lemma extends_refl (s : Builder) : extends s s.
Proof.
  exists []. split.
  - destruct s as [n e]. cbn. rewrite Nat.add_0_r, app_nil_r. reflexivity.
  - apply runsFrom_nil.
Qed.

Lemma extends_trans (s1 s2 s3 : Builder) :
  extends s1 s2 -> extends s2 s3 -> extends s1 s3.
Proof.
  intros (a & -> & Ha) (b & -> & Hb). cbn in *.
  exists (a ++ b)%list. split.
  - rewrite length_app, Nat.add_assoc, app_assoc. reflexivity.
  - apply runsFrom_app; assumption.
Qed.

Lemma Insert_extends (k : InstKind) (name : string) (s : Builder) (z : Env -> Z) :
  (forall env, evalKind env k = Some (z env)) ->
  extends s (snd (Insert k name s)).
Proof.
  intros Hk. exists [mkInst (nextId s) name k]. split.
  - cbn. rewrite Nat.add_1_r. reflexivity.
  - intros env. exists (setInst env (nextId s) (z env)). split.
    + cbn. rewrite Hk. reflexivity.
    + apply agreeBelow_setInst. lia.
Qed.

(** Either both operands are constants and nothing is inserted, or one binary
    operator is. *)
Lemma CreateBinOp_cases (op : BinOpcode) (l r : Value) (name : string) (s : Builder) :
  (exists a b, l = VConstInt a /\ r = VConstInt b /\
     CreateBinOp op l r name s =
       (VConstInt (evalBinOp op (constValue a) (constValue b)), s)) \/
  CreateBinOp op l r name s =
    (VInst (nextId s),
     mkBuilder (S (nextId s)) (emitted s ++ [mkInst (nextId s) name (BinOp op l r)])).
Proof.
  destruct l as [i|a|g|a]; try (right; reflexivity).
  destruct r as [i|b|g|b]; try (right; reflexivity).
  left. exists a, b. repeat split.
Qed.

Lemma CreateBinOp_extends (op : BinOpcode) (l r : Value) (name : string) (s : Builder) :
  extends s (snd (CreateBinOp op l r name s)).
Proof.
  destruct (CreateBinOp_cases op l r name s) as [(a & b & _ & _ & E) | E].
  - rewrite E. apply extends_refl.
  - assert (E' : CreateBinOp op l r name s = Insert (BinOp op l r) name s) by exact E.
    rewrite E'.
    apply Insert_extends with (z := fun env => evalBinOp op (valueOf env l) (valueOf env r)).
    reflexivity.
Qed.

Lemma emitOffsetTerms_extends (name : string) (idxs : list GepIndex) :
  forall (Result : option Value) (s : Builder),
    extends s (snd (emitOffsetTerms name idxs Result s)).
Proof.
  induction idxs as [|ix rest IH]; intros Result s.
  - apply extends_refl.
  - cbn [emitOffsetTerms]. unfold bind.
    destruct ix as [v sz | f off].
    + pose proof (CreateBinOp_extends Mul v (VConstInt sz) (name ++ ".idx") s) as H1.
      unfold CreateMul.
      destruct (CreateBinOp Mul v (VConstInt sz) (name ++ ".idx") s) as [term s1].
      cbn in H1.
      destruct Result as [r|].
      * pose proof (CreateBinOp_extends Add r term (name ++ ".offs") s1) as H2.
        unfold CreateAdd.
        destruct (CreateBinOp Add r term (name ++ ".offs") s1) as [acc s2].
        cbn in H2.
        eapply extends_trans; [exact H1|].
        eapply extends_trans; [exact H2|]. apply IH.
      * unfold ret. eapply extends_trans; [exact H1|]. apply IH.
    + unfold ret at 1.
      destruct Result as [r|].
      * pose proof (CreateBinOp_extends Add r (VConstInt off) (name ++ ".offs") s) as H2.
        unfold CreateAdd.
        destruct (CreateBinOp Add r (VConstInt off) (name ++ ".offs") s) as [acc s2].
        cbn in H2.
        eapply extends_trans; [exact H2|]. apply IH.
      * unfold ret. apply IH.
Qed.

Lemma emitGEPOffset_extends (name : string) (idxs : list GepIndex) (s : Builder) :
  extends s (snd (emitGEPOffset name idxs s)).
Proof.
  unfold emitGEPOffset, bind.
  pose proof (emitOffsetTerms_extends name idxs None s) as H.
  destruct (emitOffsetTerms name idxs None s) as [r s1]. exact H.
Qed.

(** ** The value the tagging sequence computes *)

Lemma diff_extends (name : string) (idxs : list GepIndex) (s : Builder) :
  extends s (snd (match accumulateConstantOffset idxs 0 with
                  | Some c => ret (VConstInt c)
                  | None => emitGEPOffset name idxs
                  end s)).
Proof.
  destruct (accumulateConstantOffset idxs 0).
  - apply extends_refl.
  - apply emitGEPOffset_extends.
Qed.

Ltac simp_eqb :=
  repeat match goal with
  | |- context [Nat.eqb ?a ?a] => rewrite (Nat.eqb_refl a)
  | |- context [Nat.eqb ?a ?b] =>
      let H := fresh in
      assert (H : Nat.eqb a b = false) by (apply Nat.eqb_neq; lia);
      rewrite H; clear H
  end.

Lemma evalBinOp_And (a b : Z) : evalBinOp And a b = Z.land a b.
Proof. reflexivity. Qed.

Lemma evalBinOp_Add (a b : Z) : evalBinOp Add a b = wrap64 (a + b).
Proof. reflexivity. Qed.

Lemma evalBinOp_Shl (a b : Z) : evalBinOp Shl a b = wrap64 (Z.shiftl a b).
Proof. reflexivity. Qed.

Lemma constValue_idem (z : Z) : constValue (constValue z) = constValue z.
Proof. apply wrap64_idem. Qed.

Lemma constValue_wrap64 (z : Z) : constValue (wrap64 z) = wrap64 z.
Proof. apply wrap64_idem. Qed.

Lemma constValue_49 : constValue 49 = 49.
Proof. reflexivity. Qed.

Local Opaque evalBinOp constValue.

Lemma emitTagging_value (gep : InstId) (name : string) (idxs : list GepIndex)
    (n : InstId) (env : Env) (NewPtr : Value) (B : Builder) :
  (gep < n)%nat ->
  emitTagging gep name idxs (mkBuilder n []) = (NewPtr, B) ->
  exists env' d,
    exec env (emitted B) = Some env' /\
    valueOf env' NewPtr =
      wrap64 (instVal env gep +
              Z.land (wrap64 (Z.shiftl d 49))
                     (if Z.testbit (instVal env gep) 48 then 2 ^ 64 - 1 else 0)) /\
    (forall c, accumulateConstantOffset idxs 0 = Some c -> d = constValue c).
Proof.
  intros Hlt. unfold emitTagging, bind.
  set (Prefix := if hasName name then name ++ "." else "").
  unfold CreatePtrToInt, CreateLShr, CreateAnd, CreateNeg, CreateIntToPtr, CreateShl, CreateAdd.
  cbn [Insert CreateBinOp nextId emitted app].
  match goal with |- context [mkBuilder (S (S (S (S n)))) ?l] => set (pre4 := l) end.
  set (p := instVal env gep).
  (* the four instructions that compute the enable mask *)
  set (env4 := setInst (setInst (setInst (setInst env n p) (S n)
                 (evalBinOp LShr p (constValue EnableBitSel))) (S (S n))
                 (evalBinOp And (evalBinOp LShr p (constValue EnableBitSel)) (constValue 1)))
                 (S (S (S n)))
                 (evalBinOp Sub (constValue 0)
                    (evalBinOp And (evalBinOp LShr p (constValue EnableBitSel)) (constValue 1)))).
  assert (E4 : exec env pre4 = Some env4).
  { subst pre4 env4. cbn [emitted exec evalKind ikind iid valueOf setInst instVal].
    simp_eqb. reflexivity. }
  clearbody pre4.
  pose proof (diff_extends name idxs (mkBuilder (S (S (S (S n)))) pre4)) as Hext.
  assert (Hc : forall c, accumulateConstantOffset idxs 0 = Some c ->
               fst (match accumulateConstantOffset idxs 0 with
                    | Some c => ret (VConstInt c)
                    | None => emitGEPOffset name idxs
                    end (mkBuilder (S (S (S (S n)))) pre4)) = VConstInt c).
  { intros c E. rewrite E. reflexivity. }
  destruct (match accumulateConstantOffset idxs 0 with
            | Some c => ret (VConstInt c)
            | None => emitGEPOffset name idxs
            end (mkBuilder (S (S (S (S n)))) pre4)) as [Diff s5].
  cbn [fst snd] in Hext, Hc.
  destruct Hext as (offs & -> & Hrun).
  cbn [nextId emitted] in *.
  destruct (Hrun env4) as (env5 & E5 & Ag5).
  assert (Hp5 : instVal env5 n = p).
  { destruct Ag5 as (A & _). rewrite A by lia. subst env4. cbn [setInst instVal].
    simp_eqb. reflexivity. }
  assert (Hm5 : instVal env5 (S (S (S n))) = if Z.testbit p 48 then 2 ^ 64 - 1 else 0).
  { destruct Ag5 as (A & _). rewrite A by lia. subst env4. cbn [setInst instVal].
    simp_eqb. apply enable_mask. }
  clearbody env4.
  assert (Hnm : (S (S (S (S n))) <= S (S (S (S n))) + List.length offs)%nat) by lia.
  set (m := (S (S (S (S n))) + List.length offs)%nat) in *.
  clearbody m.
  intros E.
  destruct Diff as [i|a|g|a].
  4:{ (* the shift folds to a constant *)
    cbn [ret Insert nextId emitted] in E. injection E as <- <-.
    eexists. exists (constValue a).
    split; [|split].
    + cbn [emitted]. rewrite <- !app_assoc. rewrite exec_app, E4, exec_app, E5.
      cbn [app exec evalKind ikind iid valueOf setInst instVal].
      simp_eqb. reflexivity.
    + cbn [valueOf setInst instVal]. simp_eqb.
      rewrite Hm5, Hp5, evalBinOp_Add, evalBinOp_And, evalBinOp_Shl.
      rewrite constValue_wrap64, constValue_49. reflexivity.
    + intros c Ec. specialize (Hc c Ec). injection Hc as ->. reflexivity. }
  all: (* the shift is an instruction *)
    cbn [ret Insert nextId emitted] in E; injection E as <- <-;
    eexists; eexists;
    (split; [|split]);
    [ cbn [emitted]; rewrite <- !app_assoc; rewrite exec_app, E4, exec_app, E5;
      cbn [app exec evalKind ikind iid valueOf setInst instVal];
      simp_eqb; reflexivity
    | cbn [valueOf setInst instVal]; simp_eqb;
      rewrite Hm5, Hp5, evalBinOp_Add, evalBinOp_And, evalBinOp_Shl, constValue_49;
      reflexivity
    | intros c Ec; specialize (Hc c Ec); discriminate Hc ].
Qed.

Local Transparent evalBinOp constValue.

(** ** Freshness *)

Lemma fold_max_ge_base (b : nat) (l : list nat) : (b <= fold_right Nat.max b l)%nat.
Proof. induction l as [|a l IH]; cbn; lia. Qed.

Lemma fold_max_ge_in (b a : nat) (l : list nat) :
  In a l -> (a <= fold_right Nat.max b l)%nat.
Proof.
  induction l as [|c l IH]; cbn; [tauto|].
  intros [-> | H]; [lia | specialize (IH H); lia].
Qed.

Lemma freshInst_bound (F : Function) (x : Instruction) :
  In x (instructions F) -> (instBound x <= freshInst F)%nat.
Proof.
  intros H. unfold freshInst. apply fold_max_ge_in, in_map, H.
Qed.

Lemma freshInst_above_id (F : Function) (x : Instruction) :
  In x (instructions F) -> (iid x < freshInst F)%nat.
Proof.
  intros H. apply freshInst_bound in H.
  pose proof (fold_max_ge_base (S (iid x)) (map valueId (operands (ikind x)))) as H'.
  unfold instBound in H. lia.
Qed.

Lemma freshInst_above_operand (F : Function) (x : Instruction) (i : InstId) :
  In x (instructions F) -> In (VInst i) (operands (ikind x)) ->
  (i < freshInst F)%nat.
Proof.
  intros H Hop. apply freshInst_bound in H.
  assert (S i <= instBound x)%nat.
  { unfold instBound. apply fold_max_ge_in.
    change (S i) with (valueId (VInst i)). apply in_map, Hop. }
  lia.
Qed.

Lemma lookupInst_In (F : Function) (i : InstId) (x : Instruction) :
  lookupInst F i = Some x -> In x (instructions F) /\ iid x = i.
Proof.
  unfold lookupInst. intros H. apply find_some in H. destruct H as [H1 H2].
  split; [exact H1 | apply Nat.eqb_eq, H2].
Qed.

Lemma lookupInst_fresh (F : Function) (i : InstId) (x : Instruction) :
  lookupInst F i = Some x -> (i < freshInst F)%nat.
Proof.
  intros H. apply lookupInst_In in H. destruct H as [H <-].
  apply freshInst_above_id, H.
Qed.

(** ** The two laws of the tagging sequence *)

(** C1 -- Identity law.  For a pointer-arithmetic instruction [GEP] of the
    function, whatever its indices (constant or not) and whatever the values
    of the other instructions, arguments and globals: when the 64-bit value
    of [GEP] has bit 48 clear, the instructions the rewrite emits execute and
    leave in [NewPtr] exactly the value of [GEP]. *)
Theorem identity_law (F : Function) (GEP : InstId) (x : Instruction)
    (base : Value) (idxs : list GepIndex) (vec : bool) (env : Env) :
  lookupInst F GEP = Some x ->
  ikind x = GetElementPtr base idxs vec ->
  0 <= instVal env GEP < 2 ^ 64 ->
  Z.testbit (instVal env GEP) 48 = false ->
  exists env',
    exec env (emitted (snd (emitTagging GEP (iname x) idxs
                              (mkBuilder (freshInst F) [])))) = Some env' /\
    valueOf env' (fst (emitTagging GEP (iname x) idxs
                         (mkBuilder (freshInst F) []))) = instVal env GEP.
Proof.
  intros Hx _ Hp Hbit.
  destruct (emitTagging GEP (iname x) idxs (mkBuilder (freshInst F) []))
    as [NewPtr B] eqn:E.
  destruct (emitTagging_value GEP (iname x) idxs (freshInst F) env NewPtr B
              (lookupInst_fresh F GEP x Hx) E) as (env' & d & He & Hv & _).
  exists env'. split; [exact He|].
  cbn [fst]. rewrite Hv, Hbit, Z.land_0_r, Z.add_0_r.
  apply wrap64_small, Hp.
Qed.

(** C2 -- Offset-embedding law.  When every index is constant, so that the
    byte offset folds to the 64-bit constant [o], and the value of [GEP] has
    bit 48 set, the emitted instructions leave in [NewPtr] the value of [GEP]
    plus [o << 49], modulo 2^64. *)
Theorem offset_embedding_law (F : Function) (GEP : InstId) (x : Instruction)
    (base : Value) (idxs : list GepIndex) (vec : bool) (o : Z) (env : Env) :
  lookupInst F GEP = Some x ->
  ikind x = GetElementPtr base idxs vec ->
  accumulateConstantOffset idxs 0 = Some o ->
  0 <= instVal env GEP < 2 ^ 64 ->
  Z.testbit (instVal env GEP) 48 = true ->
  exists env',
    exec env (emitted (snd (emitTagging GEP (iname x) idxs
                              (mkBuilder (freshInst F) [])))) = Some env' /\
    valueOf env' (fst (emitTagging GEP (iname x) idxs
                         (mkBuilder (freshInst F) []))) =
      (instVal env GEP + Z.shiftl o 49) mod 2 ^ 64.
Proof.
  intros Hx _ Ho Hp Hbit.
  destruct (emitTagging GEP (iname x) idxs (mkBuilder (freshInst F) []))
    as [NewPtr B] eqn:E.
  destruct (emitTagging_value GEP (iname x) idxs (freshInst F) env NewPtr B
              (lookupInst_fresh F GEP x Hx) E) as (env' & d & He & Hv & Hd).
  exists env'. split; [exact He|].
  cbn [fst]. rewrite Hv, Hbit, (Hd o Ho), land_all_ones, wrap64_idem.
  unfold constValue, wrap64.
  rewrite !Z.shiftl_mul_pow2 by lia.
  rewrite Zplus_mod_idemp_r.
  rewrite <- (Zplus_mod_idemp_r (o mod 2 ^ 64 * 2 ^ 49)).
  rewrite Zmult_mod_idemp_l.
  rewrite Zplus_mod_idemp_r. reflexivity.
Qed.

Lemma identity_law_witness :
  exists env',
    exec (sampleEnv 4096)
         (emitted (snd (emitTagging 1%nat (iname sampleGEP)
                          [SeqIndex (VConstInt (-1)) 4]
                          (mkBuilder (freshInst sampleFunction) [])))) = Some env' /\
    valueOf env' (fst (emitTagging 1%nat (iname sampleGEP)
                         [SeqIndex (VConstInt (-1)) 4]
                         (mkBuilder (freshInst sampleFunction) []))) = 4096.
Proof.
  apply (identity_law sampleFunction 1%nat sampleGEP (VArg 0)
           [SeqIndex (VConstInt (-1)) 4] false (sampleEnv 4096)).
  - reflexivity.
  - reflexivity.
  - cbn. lia.
  - reflexivity.
Defined.

Lemma offset_embedding_law_witness :
  exists env',
    exec (sampleEnv (2 ^ 48 + 4096))
         (emitted (snd (emitTagging 1%nat (iname sampleGEP)
                          [SeqIndex (VConstInt (-1)) 4]
                          (mkBuilder (freshInst sampleFunction) [])))) = Some env' /\
    valueOf env' (fst (emitTagging 1%nat (iname sampleGEP)
                         [SeqIndex (VConstInt (-1)) 4]
                         (mkBuilder (freshInst sampleFunction) []))) =
      (2 ^ 48 + 4096 + Z.shiftl (2 ^ 64 - 4) 49) mod 2 ^ 64.
Proof.
  apply (offset_embedding_law sampleFunction 1%nat sampleGEP (VArg 0)
           [SeqIndex (VConstInt (-1)) 4] false (2 ^ 64 - 4)
           (sampleEnv (2 ^ 48 + 4096))).
  - reflexivity.
  - reflexivity.
  - reflexivity.
  - cbn. lia.
  - reflexivity.
Defined.

(** ** Eligibility filter *)

Lemma existsb_Attribute (a : Attribute) (l : list Attribute) :
  existsb (Attribute_eqb a) l = true <-> In a l.
Proof.
  rewrite existsb_exists. split.
  - intros (b & Hin & E). destruct a, b; try discriminate; try exact Hin.
    cbn in E. apply String.eqb_eq in E. subst. exact Hin.
  - intros Hin. exists a. split; [exact Hin|].
    destruct a; cbn; try reflexivity. apply String.eqb_refl.
Qed.

Lemma Linkage_eqb_eq (a b : Linkage) : Linkage_eqb a b = true <-> a = b.
Proof. destruct a, b; cbn; split; intros H; try reflexivity; discriminate. Qed.

(** C5 -- Eligibility filter.  [shouldInstrument] accepts a function exactly
    when the five predicates hold together: it has a body, its linkage is not
    available-externally, its name does not start with the runtime-support
    prefix, it does not carry the skip-instrumentation marker, and it carries
    the opt-in marker.  A function with a body is not a declaration, so the
    second test of the code adds nothing.  The answer is a function of these
    five observations alone. *)
Theorem shouldInstrument_iff (F : Function) :
  (shouldInstrument F = true <->
     blocks F <> [] /\
     linkage F <> AvailableExternallyLinkage /\
     starts_with (fname F) "__canonptr_" = false /\
     ~ In DisableSanitizerInstrumentation (fnAttrs F) /\
     In CanonPtr (fnAttrs F)) /\
  (blocks F <> [] -> isDeclaration F = false) /\
  (forall G : Function,
     empty G = empty F ->
     linkage G = linkage F ->
     starts_with (fname G) "__canonptr_" = starts_with (fname F) "__canonptr_" ->
     hasFnAttribute G DisableSanitizerInstrumentation =
       hasFnAttribute F DisableSanitizerInstrumentation ->
     hasFnAttribute G CanonPtr = hasFnAttribute F CanonPtr ->
     shouldInstrument G = shouldInstrument F).
Proof.
  split; [|split].
  - unfold shouldInstrument, isDeclaration, empty.
    destruct (blocks F) as [|b bs] eqn:Eb.
    + cbn. split; [discriminate | intros (H & _); congruence].
    + cbn [andb].
      destruct (Linkage_eqb (linkage F) AvailableExternallyLinkage) eqn:El.
      * apply Linkage_eqb_eq in El. split; [discriminate|].
        intros (_ & H & _). congruence.
      * assert (Hl : linkage F <> AvailableExternallyLinkage).
        { intros E. apply Linkage_eqb_eq in E. congruence. }
        destruct (starts_with (fname F) "__canonptr_") eqn:Es.
        { split; [discriminate|]. intros (_ & _ & H & _). discriminate. }
        unfold hasFnAttribute.
        destruct (existsb (Attribute_eqb DisableSanitizerInstrumentation) (fnAttrs F)) eqn:Ed.
        { apply existsb_Attribute in Ed. split; [discriminate|].
          intros (_ & _ & _ & H & _). contradiction. }
        assert (Hd : ~ In DisableSanitizerInstrumentation (fnAttrs F)).
        { intros H. apply existsb_Attribute in H. congruence. }
        rewrite existsb_Attribute. split.
        { intros H. repeat split; try assumption. discriminate. }
        { intros (_ & _ & _ & _ & H). exact H. }
  - unfold isDeclaration, empty. destruct (blocks F); [congruence | reflexivity].
  - intros G He Hl Hs Hd Hc. unfold shouldInstrument, isDeclaration.
    rewrite He, Hl, Hs, Hd, Hc.
    destruct (empty F); reflexivity.
Qed.

(** ** Vtable classifier and the skip tests *)

Lemma starts_with_hasName (s pre : string) :
  pre <> "" -> starts_with s pre = true -> hasName s = true.
Proof.
  intros Hpre H. destruct s as [|c s]; [|reflexivity].
  destruct pre as [|d pre]; [congruence | discriminate H].
Qed.

Lemma rewriteGEP_skipped (F : Function) (GEP : InstId) (x : Instruction)
    (base : Value) (idxs : list GepIndex) (vec : bool) :
  lookupInst F GEP = Some x ->
  ikind x = GetElementPtr base idxs vec ->
  skipped F base idxs vec = true ->
  rewriteGEP F GEP = Some F.
Proof.
  intros Hx Hk Hs. unfold rewriteGEP. rewrite Hx, Hk, Hs. reflexivity.
Qed.

(** C6 -- Skip-not-fail exclusion.  A pointer-arithmetic instruction whose
    indices are all zero, or whose base has a name starting with "vtable", or
    which has exactly one index whose operand has a name starting with
    "vbase.offset", or whose base is a global variable named with the "_ZTV"
    prefix, or whose result is a vector, is left alone: the iteration returns
    the function as it was, so nothing is inserted and the users of the
    instruction are those it had. *)
Theorem skip_not_fail (F : Function) (GEP : InstId) (x : Instruction)
    (base : Value) (idxs : list GepIndex) (vec : bool) :
  lookupInst F GEP = Some x ->
  ikind x = GetElementPtr base idxs vec ->
  hasAllZeroIndices idxs = true \/
  starts_with (getName F base) "vtable" = true \/
  (exists ix, idxs = [ix] /\
     starts_with (getName F (indexOperand ix)) "vbase.offset" = true) \/
  (isGlobalVariable base = true /\ starts_with (getName F base) "_ZTV" = true) \/
  vec = true ->
  exists F',
    rewriteGEP F GEP = Some F' /\
    F' = F /\
    instructions F' = instructions F /\
    users F' GEP = users F GEP.
Proof.
  intros Hx Hk H. exists F. split; [|repeat split].
  apply (rewriteGEP_skipped F GEP x base idxs vec Hx Hk).
  unfold skipped, isVtableGep.
  destruct (hasAllZeroIndices idxs); [reflexivity|].
  destruct H as [H | [H | [(ix & -> & H) | [(Hg & H) | H]]]].
  - discriminate.
  - rewrite H, (starts_with_hasName (getName F base) "vtable");
      [reflexivity | discriminate | exact H].
  - rewrite H, (starts_with_hasName (getName F (indexOperand ix)) "vbase.offset");
      [|discriminate | exact H].
    cbn [andb].
    destruct (hasName (getName F base) && starts_with (getName F base) "vtable");
      reflexivity.
  - rewrite Hg, H. cbn [andb].
    destruct (hasName (getName F base) && starts_with (getName F base) "vtable");
      [reflexivity|].
    destruct idxs as [|ix [|]]; try reflexivity.
    destruct (hasName (getName F (indexOperand ix)) &&
              starts_with (getName F (indexOperand ix)) "vbase.offset"); reflexivity.
  - subst vec.
    destruct (hasName (getName F base) && starts_with (getName F base) "vtable");
      [reflexivity|].
    destruct (match idxs with
              | [ix] => hasName (getName F (indexOperand ix)) &&
                        starts_with (getName F (indexOperand ix)) "vbase.offset"
              | _ => false
              end); [reflexivity|].
    destruct (isGlobalVariable base && starts_with (getName F base) "_ZTV"); reflexivity.
Qed.

Lemma skip_not_fail_witness :
  exists F',
    rewriteGEP sampleVtableFunction 2%nat = Some F' /\
    F' = sampleVtableFunction /\
    instructions F' = instructions sampleVtableFunction /\
    users F' 2%nat = users sampleVtableFunction 2%nat.
Proof.
  apply (skip_not_fail sampleVtableFunction 2%nat
           (mkInst 2%nat "vfn" (GetElementPtr (VInst 1%nat) [SeqIndex (VConstInt 2) 8] false))
           (VInst 1%nat) [SeqIndex (VConstInt 2) 8] false).
  - reflexivity.
  - reflexivity.
  - right. left. reflexivity.
Defined.

(** ** Constant folding of the offset *)

Lemma accumulateConstantOffset_const (idxs : list GepIndex) :
  forall acc : Z,
    0 <= acc < 2 ^ 64 ->
    forallb isConstIndex idxs = true ->
    accumulateConstantOffset idxs acc =
      Some (wrap64 (acc + fold_right Z.add 0 (map indexDisplacement idxs))).
Proof.
  induction idxs as [|ix rest IH]; intros acc Hacc Hall.
  - cbn. rewrite Z.add_0_r, wrap64_small by exact Hacc. reflexivity.
  - cbn [forallb] in Hall. apply andb_prop in Hall. destruct Hall as [Hix Hrest].
    destruct ix as [v sz | f off].
    + destruct v as [i|a|g|z]; try discriminate Hix.
      cbn [accumulateConstantOffset map fold_right indexDisplacement].
      rewrite IH by (apply wrap64_range || exact Hrest).
      f_equal. unfold wrap64. rewrite Zplus_mod_idemp_l. f_equal. lia.
    + cbn [accumulateConstantOffset map fold_right indexDisplacement].
      rewrite IH by (apply wrap64_range || exact Hrest).
      f_equal. unfold wrap64. rewrite Zplus_mod_idemp_l. f_equal. lia.
Qed.

Lemma emitTagging_constant (gep : InstId) (name : string) (idxs : list GepIndex)
    (n : InstId) (c : Z) :
  accumulateConstantOffset idxs 0 = Some c ->
  emitTagging gep name idxs (mkBuilder n []) =
    (VInst (S (S (S (S (S (S n)))))),
     mkBuilder (S (S (S (S (S (S (S n))))))) (constantTagging n gep name c)).
Proof.
  intros Hc. unfold emitTagging, bind. rewrite Hc. reflexivity.
Qed.

(** C7 -- Constant folding.  When every index of the instruction is a
    compile-time constant, the byte offset is one 64-bit constant, the sum of
    the per-index displacements reduced modulo 2^64 (a negative sum wraps to
    its two's complement), and the rewrite emits exactly the seven tagging
    instructions with that constant as an operand: no instruction computes
    the offset, none is a multiplication, and the one addition is the final
    sum of the pointer and the masked offset. *)
Theorem constant_folding (F : Function) (GEP : InstId) (x : Instruction)
    (base : Value) (idxs : list GepIndex) (vec : bool) :
  lookupInst F GEP = Some x ->
  ikind x = GetElementPtr base idxs vec ->
  forallb isConstIndex idxs = true ->
  let c := wrap64 (fold_right Z.add 0 (map indexDisplacement idxs)) in
  let seq := emitted (snd (emitTagging GEP (iname x) idxs
                             (mkBuilder (freshInst F) []))) in
  accumulateConstantOffset idxs 0 = Some c /\
  seq = constantTagging (freshInst F) GEP (iname x) c /\
  filter (isBinOpOf Mul) seq = [] /\
  filter (isBinOpOf Add) seq =
    [mkInst (5 + freshInst F)%nat (PrefixOf (iname x) ++ "added")
            (BinOp Add (VInst (freshInst F)) (VInst (4 + freshInst F)%nat))].
Proof.
  intros _ _ Hall c seq.
  assert (Hc : accumulateConstantOffset idxs 0 = Some c).
  { rewrite accumulateConstantOffset_const by (cbn; lia || exact Hall).
    reflexivity. }
  assert (Hs : seq = constantTagging (freshInst F) GEP (iname x) c).
  { subst seq. rewrite (emitTagging_constant _ _ _ _ c Hc). reflexivity. }
  split; [exact Hc|]. split; [exact Hs|].
  rewrite Hs. split; reflexivity.
Qed.

Lemma constant_folding_witness :
  accumulateConstantOffset [SeqIndex (VConstInt (-1)) 4] 0 = Some (2 ^ 64 - 4) /\
  emitted (snd (emitTagging 1%nat "p" [SeqIndex (VConstInt (-1)) 4]
                  (mkBuilder 4%nat []))) =
    constantTagging 4%nat 1%nat "p" (2 ^ 64 - 4).
Proof.
  pose proof (constant_folding sampleFunction 1%nat sampleGEP (VArg 0)
                [SeqIndex (VConstInt (-1)) 4] false
                eq_refl eq_refl eq_refl) as H.
  cbv zeta in H. destruct H as (H1 & H2 & _).
  split; [exact H1 | exact H2].
Defined.

(** ** The shape of what the builder emits *)

Lemma inScope_mono (n m : InstId) (v : Value) :
  (n <= m)%nat -> inScope n v -> inScope m v.
Proof. unfold inScope. lia. Qed.

Lemma inScope_const (n : InstId) (z : Z) : inScope n (VConstInt z).
Proof. unfold inScope. cbn. lia. Qed.

Lemma wfNew_app (n : InstId) (a b : list Instruction) :
  wfNew n a -> wfNew (n + List.length a)%nat b -> wfNew n (a ++ b).
Proof.
  revert n. induction a as [|x a IH]; intros n Ha Hb.
  - cbn in *. rewrite Nat.add_0_r in Hb. exact Hb.
  - cbn [wfNew app] in *. destruct Ha as (H1 & H2 & H3 & H4).
    repeat split; try assumption.
    apply IH; [exact H4|].
    replace (S n + List.length a)%nat with (n + List.length (x :: a))%nat
      by (cbn [List.length]; lia).
    exact Hb.
Qed.

Lemma wfNew_In (n : InstId) (new : list Instruction) (x : Instruction) :
  wfNew n new -> In x new ->
  (n <= iid x < n + List.length new)%nat /\ isArith x = true /\
  Forall (inScope (iid x)) (operands (ikind x)).
Proof.
  revert n. induction new as [|y new IH]; intros n Hw Hin; [destruct Hin|].
  cbn in Hw. destruct Hw as (H1 & H2 & H3 & H4).
  destruct Hin as [-> | Hin].
  - cbn. rewrite H1. repeat split; try assumption; lia.
  - destruct (IH (S n) H4 Hin) as (Ha & Hb & Hc). cbn. repeat split; try assumption; lia.
Qed.

Lemma grows_refl (s : Builder) : grows s s.
Proof.
  exists []. split; [|exact I].
  destruct s as [n e]. cbn. rewrite Nat.add_0_r, app_nil_r. reflexivity.
Qed.

Lemma grows_trans (s1 s2 s3 : Builder) : grows s1 s2 -> grows s2 s3 -> grows s1 s3.
Proof.
  intros (a & -> & Ha) (b & -> & Hb). cbn in *.
  exists (a ++ b)%list. split.
  - rewrite length_app, Nat.add_assoc, app_assoc. reflexivity.
  - apply wfNew_app; assumption.
Qed.

Lemma grows_nextId (s s' : Builder) : grows s s' -> (nextId s <= nextId s')%nat.
Proof. intros (a & -> & _). cbn. lia. Qed.

Lemma CreateBinOp_grows (op : BinOpcode) (l r : Value) (name : string) (s : Builder) :
  inScope (nextId s) l -> inScope (nextId s) r ->
  grows s (snd (CreateBinOp op l r name s)) /\
  inScope (nextId (snd (CreateBinOp op l r name s))) (fst (CreateBinOp op l r name s)).
Proof.
  intros Hl Hr.
  destruct (CreateBinOp_cases op l r name s) as [(a & b & _ & _ & E) | E]; rewrite E.
  - split; [apply grows_refl | apply inScope_const].
  - cbn [fst snd nextId]. split.
    + exists [mkInst (nextId s) name (BinOp op l r)]. split.
      * rewrite Nat.add_1_r. reflexivity.
      * cbn. repeat split. repeat constructor; assumption.
    + unfold inScope. cbn. lia.
Qed.

Lemma emitOffsetTerms_grows (name : string) (idxs : list GepIndex) :
  forall (Result : option Value) (s : Builder),
    Forall (fun ix => inScope (nextId s) (indexOperand ix)) idxs ->
    (forall r, Result = Some r -> inScope (nextId s) r) ->
    grows s (snd (emitOffsetTerms name idxs Result s)) /\
    (forall r, fst (emitOffsetTerms name idxs Result s) = Some r ->
               inScope (nextId (snd (emitOffsetTerms name idxs Result s))) r).
Proof.
  induction idxs as [|ix rest IH]; intros Result s Hidx Hres.
  - cbn. split; [apply grows_refl | exact Hres].
  - inversion Hidx as [|? ? Hix Hrest]; subst.
    cbn [emitOffsetTerms]. unfold bind.
    assert (Hterm : exists term s1,
      (match ix with
       | SeqIndex v sz => CreateMul v (VConstInt sz) (name ++ ".idx")
       | StructIndex _ off => ret (VConstInt off)
       end) s = (term, s1) /\ grows s s1 /\ inScope (nextId s1) term).
    { destruct ix as [v sz | f off].
      - destruct (CreateBinOp_grows Mul v (VConstInt sz) (name ++ ".idx") s Hix
                    (inScope_const _ _)) as [G S1].
        unfold CreateMul.
        destruct (CreateBinOp Mul v (VConstInt sz) (name ++ ".idx") s) as [term s1].
        exists term, s1. repeat split; assumption.
      - exists (VConstInt off), s. repeat split;
          [apply grows_refl | apply inScope_const]. }
    destruct Hterm as (term & s1 & -> & G1 & S1).
    assert (Hacc : exists acc s2,
      (match Result with
       | None => ret term
       | Some r => CreateAdd r term (name ++ ".offs")
       end) s1 = (acc, s2) /\ grows s1 s2 /\ inScope (nextId s2) acc).
    { destruct Result as [r|].
      - assert (Hr : inScope (nextId s1) r).
        { apply (inScope_mono (nextId s)); [apply grows_nextId, G1 | apply Hres; reflexivity]. }
        destruct (CreateBinOp_grows Add r term (name ++ ".offs") s1 Hr S1) as [G S2].
        unfold CreateAdd.
        destruct (CreateBinOp Add r term (name ++ ".offs") s1) as [acc s2].
        exists acc, s2. repeat split; assumption.
      - exists term, s1. repeat split; [apply grows_refl | exact S1]. }
    destruct Hacc as (acc & s2 & -> & G2 & S2).
    assert (Hle : (nextId s <= nextId s2)%nat).
    { apply grows_nextId in G1. apply grows_nextId in G2. lia. }
    destruct (IH (Some acc) s2) as [G3 S3].
    + eapply Forall_impl; [|exact Hrest]. intros a Ha.
      apply (inScope_mono (nextId s)); assumption.
    + intros r Er. injection Er as <-. exact S2.
    + split; [|exact S3].
      eapply grows_trans; [exact G1|]. eapply grows_trans; [exact G2 | exact G3].
Qed.

Lemma diff_grows (name : string) (idxs : list GepIndex) (s : Builder) :
  Forall (fun ix => inScope (nextId s) (indexOperand ix)) idxs ->
  let r := match accumulateConstantOffset idxs 0 with
           | Some c => ret (VConstInt c)
           | None => emitGEPOffset name idxs
           end s in
  grows s (snd r) /\ inScope (nextId (snd r)) (fst r).
Proof.
  intros Hidx. cbv zeta.
  destruct (accumulateConstantOffset idxs 0).
  - split; [apply grows_refl | apply inScope_const].
  - unfold emitGEPOffset, bind.
    destruct (emitOffsetTerms_grows name idxs None s Hidx) as [G S1];
      [discriminate|].
    destruct (emitOffsetTerms name idxs None s) as [[r|] s1]; cbn in *.
    + split; [exact G | apply S1; reflexivity].
    + split; [exact G | apply inScope_const].
Qed.

(** The emitted sequence is the four-instruction head, then whatever computes
    the shifted offset, then the three-instruction tail. *)
Lemma emitTagging_shape (gep : InstId) (name : string) (idxs : list GepIndex)
    (n : InstId) (NewPtr : Value) (B : Builder) :
  Forall (fun ix => inScope n (indexOperand ix)) idxs ->
  emitTagging gep name idxs (mkBuilder n []) = (NewPtr, B) ->
  exists mid Shifted,
    let m := (4 + n + List.length mid)%nat in
    emitted B = (taggingHead n gep name ++ mid ++ taggingTail m n name Shifted)%list /\
    NewPtr = VInst (S (S m)) /\
    nextId B = S (S (S m)) /\
    wfNew (4 + n)%nat mid /\
    inScope m Shifted.
Proof.
  intros Hidx. unfold emitTagging, bind.
  fold (PrefixOf name).
  unfold CreatePtrToInt, CreateLShr, CreateAnd, CreateNeg, CreateIntToPtr, CreateShl, CreateAdd.
  cbn [Insert CreateBinOp nextId emitted app].
  fold (taggingHead n gep name).
  assert (Hidx4 : Forall (fun ix => inScope (nextId (mkBuilder (S (S (S (S n))))
                     (taggingHead n gep name))) (indexOperand ix)) idxs).
  { eapply Forall_impl; [|exact Hidx]. intros a Ha.
    apply (inScope_mono n); [cbn; lia | exact Ha]. }
  pose proof (diff_grows name idxs _ Hidx4) as Hd. cbv zeta in Hd.
  destruct (match accumulateConstantOffset idxs 0 with
            | Some c => ret (VConstInt c)
            | None => emitGEPOffset name idxs
            end (mkBuilder (S (S (S (S n)))) (taggingHead n gep name))) as [Diff s5].
  cbn [fst snd] in Hd. destruct Hd as [(offs & -> & Hw) Hs].
  cbn [nextId emitted] in *.
  pose proof (CreateBinOp_grows Shl Diff (VConstInt 49) (PrefixOf name ++ "shifted")
                (mkBuilder (S (S (S (S n))) + List.length offs)%nat
                           (taggingHead n gep name ++ offs)%list)
                Hs (inScope_const _ _)) as [(sh & Es & Hwsh) Hssh].
  destruct (CreateBinOp Shl Diff (VConstInt 49) (PrefixOf name ++ "shifted")
              (mkBuilder (S (S (S (S n))) + List.length offs)%nat
                         (taggingHead n gep name ++ offs)%list)) as [Shifted s6].
  cbn [fst snd nextId emitted] in *. subst s6.
  cbn [nextId emitted].
  intros E.
  exists (offs ++ sh)%list, Shifted. cbv zeta.
  assert (Hm : (4 + n + List.length (offs ++ sh) =
                S (S (S (S n))) + List.length offs + List.length sh)%nat).
  { rewrite length_app. lia. }
  rewrite Hm.
  set (m := (S (S (S (S n))) + List.length offs + List.length sh)%nat) in *.
  assert (HE : (NewPtr, B) =
               (VInst (S (S m)),
                mkBuilder (S (S (S m)))
                  (((taggingHead n gep name ++ offs) ++ sh) ++
                   taggingTail m n name Shifted)%list)).
  { rewrite <- E. clear E.
    destruct Shifted as [i|a|g|a]; cbn [CreateBinOp ret Insert nextId emitted];
      unfold taggingTail, Insert; cbn [nextId emitted];
      rewrite <- !app_assoc; reflexivity. }
  injection HE as -> ->. cbn [emitted nextId].
  split; [rewrite <- !app_assoc; reflexivity|].
  split; [reflexivity|]. split; [reflexivity|]. split.
  - apply wfNew_app; [exact Hw | exact Hwsh].
  - exact Hssh.
Qed.

Local Open Scope nat_scope.

(** ** Functions under map and insertion *)

Lemma instructions_mapInsts (f : Instruction -> Instruction) (F : Function) :
  instructions (mapInsts f F) = map f (instructions F).
Proof.
  unfold instructions, mapInsts, mapBlocks. cbn [blocks].
  induction (blocks F) as [|b bs IH]; cbn; [reflexivity|].
  rewrite map_app, IH. reflexivity.
Qed.

Lemma mapInsts_mapInsts (f h : Instruction -> Instruction) (F : Function) :
  mapInsts f (mapInsts h F) = mapInsts (fun x => f (h x)) F.
Proof.
  unfold mapInsts, mapBlocks. cbn. f_equal.
  rewrite map_map. apply map_ext. intros b. cbn. rewrite map_map. reflexivity.
Qed.

Lemma mapInsts_ext (f h : Instruction -> Instruction) (F : Function) :
  (forall x, f x = h x) -> mapInsts f F = mapInsts h F.
Proof.
  intros H. unfold mapInsts, mapBlocks. f_equal.
  apply map_ext. intros b. f_equal. apply map_ext, H.
Qed.

Lemma mapInsts_id (f : Instruction -> Instruction) (F : Function) :
  (forall x, f x = x) -> mapInsts f F = F.
Proof.
  intros H. destruct F as [nm lk atts mt ar bs]. unfold mapInsts, mapBlocks. cbn.
  f_equal. rewrite <- (map_id bs) at 2. apply map_ext.
  intros [b n l]. cbn. f_equal. rewrite <- (map_id l) at 2. apply map_ext, H.
Qed.

Lemma substValue_idem (g : InstId) (to v : Value) :
  substValue g to (substValue g to v) = substValue g to v.
Proof.
  unfold substValue. destruct (isInstRef g v) eqn:E.
  - destruct (isInstRef g to); reflexivity.
  - rewrite E. reflexivity.
Qed.

Lemma substIndex_idem (g : InstId) (to : Value) (ix : GepIndex) :
  substIndex g to (substIndex g to ix) = substIndex g to ix.
Proof. destruct ix; cbn; [rewrite substValue_idem|]; reflexivity. Qed.

Lemma substInst_idem (g : InstId) (to : Value) (x : Instruction) :
  substInst g to (substInst g to x) = substInst g to x.
Proof.
  unfold substInst. cbn. f_equal.
  destruct (ikind x); cbn; rewrite ?substValue_idem, ?map_map; try reflexivity.
  - f_equal. apply map_ext, substIndex_idem.
  - f_equal. apply map_ext. intros [v b]. cbn. rewrite substValue_idem. reflexivity.
  - f_equal. apply map_ext, substValue_idem.
  - f_equal. apply map_ext, substValue_idem.
Qed.

(** Redirecting the users one after the other is one parallel substitution. *)
Lemma fold_replaceUsesOfWith (Us : list InstId) (g : InstId) (to : Value) :
  forall F : Function,
    fold_left (fun acc U => replaceUsesOfWith U g to acc) Us F =
    mapInsts (retarget Us g to) F.
Proof.
  induction Us as [|U Us IH]; intros F.
  - cbn. symmetry. apply mapInsts_id. reflexivity.
  - cbn [fold_left]. rewrite IH. unfold replaceUsesOfWith.
    rewrite mapInsts_mapInsts. apply mapInsts_ext. intros x.
    unfold retarget. cbn [existsb].
    destruct (Nat.eqb (iid x) U); cbn [orb].
    + cbn [substInst iid]. 
      destruct (existsb (Nat.eqb (iid x)) Us); [apply substInst_idem | reflexivity].
    + reflexivity.
Qed.

Lemma In_insertIn (ip : InstId) (new l : list Instruction) (z : Instruction) :
  In z (insertIn ip new l) -> In z l \/ In z new.
Proof.
  induction l as [|x l IH]; cbn; [tauto|].
  destruct (Nat.eqb (iid x) ip).
  - rewrite in_app_iff. cbn. tauto.
  - cbn. intros [H | H]; [tauto | specialize (IH H); tauto].
Qed.

Lemma In_insertIn_old (ip : InstId) (new l : list Instruction) (z : Instruction) :
  In z l -> In z (insertIn ip new l).
Proof.
  induction l as [|x l IH]; cbn; [tauto|].
  destruct (Nat.eqb (iid x) ip).
  - rewrite in_app_iff. cbn. tauto.
  - cbn. intros [H | H]; [tauto | right; apply IH, H].
Qed.

Lemma In_insertIn_new (ip : InstId) (new l : list Instruction) (e : Instruction) :
  In ip (map iid l) -> In e new -> In e (insertIn ip new l).
Proof.
  induction l as [|x l IH]; cbn; [tauto|].
  intros Hip He. destruct (Nat.eqb_spec (iid x) ip) as [E | NE].
  - rewrite in_app_iff. tauto.
  - cbn. right. apply IH; [|exact He]. destruct Hip; [contradiction | assumption].
Qed.

Lemma instructions_insertBefore (ip : InstId) (new : list Instruction) (F : Function) :
  instructions (insertBefore ip new F) =
  flat_map (fun b => insertIn ip new (insts b)) (blocks F).
Proof.
  unfold instructions, insertBefore, mapBlocks. cbn [blocks].
  induction (blocks F) as [|b bs IH]; cbn; [reflexivity|].
  rewrite IH. reflexivity.
Qed.

Lemma In_insertBefore (ip : InstId) (new : list Instruction) (F : Function)
    (z : Instruction) :
  In z (instructions (insertBefore ip new F)) ->
  In z (instructions F) \/ In z new.
Proof.
  rewrite instructions_insertBefore. unfold instructions.
  rewrite !in_flat_map. intros (b & Hb & Hz).
  apply In_insertIn in Hz. destruct Hz as [Hz | Hz]; [left | right; exact Hz].
  exists b. split; assumption.
Qed.

Lemma In_insertBefore_old (ip : InstId) (new : list Instruction) (F : Function)
    (z : Instruction) :
  In z (instructions F) -> In z (instructions (insertBefore ip new F)).
Proof.
  rewrite instructions_insertBefore. unfold instructions.
  rewrite !in_flat_map. intros (b & Hb & Hz).
  exists b. split; [exact Hb | apply In_insertIn_old, Hz].
Qed.

Lemma In_insertBefore_new (ip : InstId) (new : list Instruction) (F : Function)
    (b : BasicBlock) (e : Instruction) :
  In b (blocks F) -> In ip (map iid (insts b)) -> In e new ->
  In e (instructions (insertBefore ip new F)).
Proof.
  intros Hb Hip He. rewrite instructions_insertBefore.
  apply in_flat_map. exists b. split; [exact Hb | apply In_insertIn_new; assumption].
Qed.

Lemma nextIn_In (i ip : InstId) (l : list Instruction) :
  nextIn i l = Some ip -> In ip (map iid l).
Proof.
  induction l as [|x l IH]; cbn; [discriminate|].
  destruct (Nat.eqb (iid x) i).
  - destruct l as [|y l]; [discriminate|]. intros E. injection E as <-. cbn. tauto.
  - intros H. right. apply IH, H.
Qed.

Lemma getParent_In (F : Function) (i : InstId) (b : BasicBlock) :
  getParent F i = Some b -> In b (blocks F).
Proof. unfold getParent. intros H. apply find_some in H. tauto. Qed.

(** The users of [g] are the instructions of the function with an operand
    that refers to [g]. *)
Lemma In_users (F : Function) (g u : InstId) :
  In u (users F g) <->
  exists y, In y (instructions F) /\ iid y = u /\ In (VInst g) (operands (ikind y)).
Proof.
  unfold users, usesIn. rewrite in_flat_map. split.
  - intros (y & Hy & Hu). apply in_map_iff in Hu. destruct Hu as (v & <- & Hv).
    apply filter_In in Hv. destruct Hv as [Hv Hr].
    exists y. repeat split; [exact Hy|].
    destruct v as [i| | |]; try discriminate Hr.
    cbn in Hr. apply Nat.eqb_eq in Hr. subst i. exact Hv.
  - intros (y & Hy & <- & Hv). exists y. split; [exact Hy|].
    apply in_map_iff. exists (VInst g). split; [reflexivity|].
    apply filter_In. split; [exact Hv | cbn; apply Nat.eqb_refl].
Qed.

Lemma operand_inScope (F : Function) (x : Instruction) (v : Value) :
  In x (instructions F) -> In v (operands (ikind x)) -> inScope (freshInst F) v.
Proof.
  intros Hx Hv. apply freshInst_bound in Hx. unfold inScope.
  assert (valueId v <= instBound x)%nat; [|lia].
  unfold instBound. apply fold_max_ge_in, in_map, Hv.
Qed.

Lemma gep_indices_inScope (F : Function) (g : InstId) (x : Instruction)
    (base : Value) (idxs : list GepIndex) (vec : bool) :
  lookupInst F g = Some x ->
  ikind x = GetElementPtr base idxs vec ->
  Forall (fun ix => inScope (freshInst F) (indexOperand ix)) idxs.
Proof.
  intros Hx Hk. apply lookupInst_In in Hx. destruct Hx as [Hx _].
  apply Forall_forall. intros ix Hix.
  apply (operand_inScope F x); [exact Hx|].
  rewrite Hk. cbn. right. apply in_map, Hix.
Qed.

Lemma wfNew_head (n gep : InstId) (name : string) (rest : list Instruction) :
  (gep < n)%nat -> wfNew (4 + n) rest -> wfNew n (taggingHead n gep name ++ rest).
Proof.
  intros Hg Hr. cbn. unfold inScope.
  repeat split; try exact Hr; repeat constructor; cbn; lia.
Qed.

Lemma wfNew_tail (m n : InstId) (name : string) (Shifted : Value) :
  (4 + n <= m)%nat -> inScope m Shifted -> wfNew m (taggingTail m n name Shifted).
Proof.
  intros Hm Hs. cbn. unfold inScope in *.
  repeat split; repeat constructor; cbn; lia.
Qed.

(** What [emitTagging] emits for an instruction of the function. *)
Lemma emitTagging_wf (gep : InstId) (name : string) (idxs : list GepIndex)
    (n : InstId) (NewPtr : Value) (B : Builder) :
  (gep < n)%nat ->
  Forall (fun ix => inScope n (indexOperand ix)) idxs ->
  emitTagging gep name idxs (mkBuilder n []) = (NewPtr, B) ->
  wfNew n (emitted B) /\
  (7 <= List.length (emitted B))%nat /\
  NewPtr = VInst (n + List.length (emitted B) - 1) /\
  (exists rest, emitted B =
     mkInst n (PrefixOf name ++ "int") (PtrToInt (VInst gep)) :: rest).
Proof.
  intros Hg Hidx E.
  destruct (emitTagging_shape gep name idxs n NewPtr B Hidx E)
    as (mid & Shifted & Hem & Hn & Hnext & Hw & Hs).
  cbv zeta in *. rewrite Hem. split; [|split; [|split]].
  - apply wfNew_head; [exact Hg|].
    apply wfNew_app; [exact Hw|]. apply wfNew_tail; [lia | exact Hs].
  - rewrite !length_app. cbn. lia.
  - rewrite Hn. f_equal. rewrite !length_app. cbn. lia.
  - eexists. reflexivity.
Qed.

(** ** One rewrite *)

Lemma getInsertPointAfter_GEP (F F1 : Function) (g ip : InstId) (x : Instruction)
    (base : Value) (idxs : list GepIndex) (vec : bool) :
  lookupInst F g = Some x ->
  ikind x = GetElementPtr base idxs vec ->
  getInsertPointAfter F g = Some (F1, ip) ->
  F1 = F /\ exists b, getParent F g = Some b /\ nextIn g (insts b) = Some ip.
Proof.
  intros Hx Hk. unfold getInsertPointAfter. rewrite Hx, Hk.
  destruct (getParent F g) as [b|]; [|discriminate].
  cbn [isTerminator].
  destruct (nextIn g (insts b)) as [ip'|] eqn:En; [|discriminate].
  cbn. intros E. injection E as <- <-. split; [reflexivity|].
  exists b. split; [reflexivity | exact En].
Qed.

(** A rewrite that is not skipped inserts the emitted sequence in front of
    the instruction that follows [g] and substitutes [NewPtr] for [g] in the
    users snapshotted beforehand. *)
Lemma rewriteGEP_rewrites (F F1 : Function) (g ip : InstId) (x : Instruction)
    (base : Value) (idxs : list GepIndex) (vec : bool) :
  lookupInst F g = Some x ->
  ikind x = GetElementPtr base idxs vec ->
  skipped F base idxs vec = false ->
  getInsertPointAfter F g = Some (F1, ip) ->
  rewriteGEP F g =
    Some (mapInsts
            (retarget (users F g) g
               (fst (emitTagging g (iname x) idxs (mkBuilder (freshInst F) []))))
            (insertBefore ip
               (emitted (snd (emitTagging g (iname x) idxs
                                (mkBuilder (freshInst F) []))))
               F)).
Proof.
  intros Hx Hk Hs Hip.
  destruct (getInsertPointAfter_GEP F F1 g ip x base idxs vec Hx Hk Hip) as [-> _].
  unfold rewriteGEP. rewrite Hx, Hk, Hs, Hip.
  destruct (emitTagging g (iname x) idxs (mkBuilder (freshInst F) [])) as [NewPtr B].
  cbn [fst snd]. rewrite fold_replaceUsesOfWith. reflexivity.
Qed.

Lemma users_below_fresh (F : Function) (g u : InstId) :
  In u (users F g) -> u < freshInst F.
Proof.
  intros H. apply In_users in H. destruct H as (y & Hy & <- & _).
  apply freshInst_above_id, Hy.
Qed.

Lemma existsb_eqb_In (i : InstId) (l : list InstId) :
  existsb (Nat.eqb i) l = true <-> In i l.
Proof.
  rewrite existsb_exists. split.
  - intros (j & Hj & E). apply Nat.eqb_eq in E. subst. exact Hj.
  - intros H. exists i. split; [exact H | apply Nat.eqb_refl].
Qed.

Lemma retarget_new (F : Function) (g : InstId) (to : Value) (e : Instruction) :
  freshInst F <= iid e -> retarget (users F g) g to e = e.
Proof.
  intros He. unfold retarget.
  destruct (existsb (Nat.eqb (iid e)) (users F g)) eqn:E; [|reflexivity].
  apply existsb_eqb_In, users_below_fresh in E. lia.
Qed.

Lemma retarget_nonuser (F : Function) (g : InstId) (to : Value) (y : Instruction) :
  ~ In (iid y) (users F g) -> retarget (users F g) g to y = y.
Proof.
  intros H. unfold retarget.
  destruct (existsb (Nat.eqb (iid y)) (users F g)) eqn:E; [|reflexivity].
  apply existsb_eqb_In in E. contradiction.
Qed.

Lemma retarget_user (F : Function) (g : InstId) (to : Value) (y : Instruction) :
  In (iid y) (users F g) -> retarget (users F g) g to y = substInst g to y.
Proof.
  intros H. unfold retarget.
  apply existsb_eqb_In in H. rewrite H. reflexivity.
Qed.

Lemma operands_substKind (g : InstId) (to : Value) (k : InstKind) :
  operands (substKind g to k) = map (substValue g to) (operands k).
Proof.
  destruct k; cbn; rewrite ?map_map; try reflexivity.
  f_equal. apply map_ext. intros []; reflexivity.
Qed.

Lemma substInst_no_ref (g : InstId) (to : Value) (y : Instruction) :
  to <> VInst g -> ~ In (VInst g) (operands (ikind (substInst g to y))).
Proof.
  intros Hto Hin. cbn in Hin. rewrite operands_substKind in Hin.
  apply in_map_iff in Hin. destruct Hin as (v & Hv & _).
  unfold substValue in Hv. destruct (isInstRef g v) eqn:E; [congruence|].
  subst v. cbn in E. rewrite Nat.eqb_refl in E. discriminate.
Qed.

(** C8 -- Consumer-snapshot framing.  For a rewritten instruction [GEP], with
    [Users] its consumers in the function as it stands before anything is
    emitted: every captured consumer is an instruction of the original
    function that refers to [GEP], and no emitted instruction is among them;
    after the rewrite the function is the original one with the emitted
    sequence inserted, in which exactly the instructions of [Users] have
    [NewPtr] substituted for [GEP]; every emitted instruction is present as
    emitted, the pointer-to-integer cast still reading [GEP]; no captured
    consumer refers to [GEP] any more; and [GEP] itself is still there. *)
Theorem consumer_snapshot_framing (F F1 : Function) (GEP ip : InstId)
    (x : Instruction) (base : Value) (idxs : list GepIndex) (vec : bool) :
  lookupInst F GEP = Some x ->
  ikind x = GetElementPtr base idxs vec ->
  skipped F base idxs vec = false ->
  getInsertPointAfter F GEP = Some (F1, ip) ->
  let Users := users F GEP in
  let NewPtr := fst (emitTagging GEP (iname x) idxs (mkBuilder (freshInst F) [])) in
  let seq := emitted (snd (emitTagging GEP (iname x) idxs
                             (mkBuilder (freshInst F) []))) in
  exists F',
    rewriteGEP F GEP = Some F' /\
    (forall u, In u Users <->
       exists y, In y (instructions F) /\ iid y = u /\
                 In (VInst GEP) (operands (ikind y))) /\
    (forall e, In e seq -> ~ In (iid e) Users) /\
    instructions F' =
      map (fun y => if existsb (Nat.eqb (iid y)) Users
                    then substInst GEP NewPtr y else y)
          (instructions (insertBefore ip seq F)) /\
    (forall e, In e seq -> In e (instructions F')) /\
    In (mkInst (freshInst F) (PrefixOf (iname x) ++ "int") (PtrToInt (VInst GEP)))
       (instructions F') /\
    (forall y, In y (instructions F) -> ~ In (iid y) Users ->
               In y (instructions F')) /\
    (forall y, In y (instructions F) -> In (iid y) Users ->
               In (substInst GEP NewPtr y) (instructions F')) /\
    (forall z, In z (instructions F') -> In (iid z) Users ->
               ~ In (VInst GEP) (operands (ikind z))) /\
    (exists x', In x' (instructions F') /\ iid x' = GEP /\ isGEP x' = true).
Proof.
  intros Hx Hk Hs Hip Users NewPtr seq.
  pose proof (rewriteGEP_rewrites F F1 GEP ip x base idxs vec Hx Hk Hs Hip) as HR.
  fold NewPtr seq Users in HR.
  destruct (getInsertPointAfter_GEP F F1 GEP ip x base idxs vec Hx Hk Hip)
    as (-> & b & Hb & Hnext).
  destruct (emitTagging GEP (iname x) idxs (mkBuilder (freshInst F) []))
    as [NP B] eqn:E.
  cbn [fst snd] in NewPtr, seq.
  destruct (emitTagging_wf GEP (iname x) idxs (freshInst F) NP B
              (lookupInst_fresh F GEP x Hx)
              (gep_indices_inScope F GEP x base idxs vec Hx Hk) E)
    as (Hw & Hlen & HNP & (rest & Hhead)).
  assert (Hnew : forall e, In e seq -> freshInst F <= iid e).
  { intros e He. destruct (wfNew_In _ _ e Hw He) as (H1 & _). lia. }
  assert (HnewIn : forall e, In e seq -> In e (instructions (insertBefore ip seq F))).
  { intros e He. apply (In_insertBefore_new ip seq F b);
      [apply getParent_In with GEP, Hb | apply nextIn_In with GEP, Hnext | exact He]. }
  assert (HNPne : NewPtr <> VInst GEP).
  { subst NewPtr. rewrite HNP. intros Heq. injection Heq as Heq.
    pose proof (lookupInst_fresh F GEP x Hx). lia. }
  eexists. split; [exact HR|].
  rewrite instructions_mapInsts.
  split; [apply In_users|].
  split.
  { intros e He Hu. apply users_below_fresh in Hu. apply Hnew in He. lia. }
  split; [reflexivity|].
  split.
  { intros e He. apply in_map_iff. exists e. split; [|apply HnewIn, He].
    apply retarget_new, Hnew, He. }
  split.
  { apply in_map_iff. eexists. split; [|apply HnewIn; subst seq; rewrite Hhead; left; reflexivity].
    apply retarget_new. cbn. lia. }
  split.
  { intros y Hy Hn. apply in_map_iff. exists y. split;
      [apply retarget_nonuser, Hn | apply In_insertBefore_old, Hy]. }
  split.
  { intros y Hy Hu. apply in_map_iff. exists y. split;
      [apply retarget_user, Hu | apply In_insertBefore_old, Hy]. }
  split.
  { intros z Hz Hu. apply in_map_iff in Hz. destruct Hz as (y & <- & Hy).
    unfold retarget in *.
    destruct (existsb (Nat.eqb (iid y)) Users) eqn:Ey.
    - apply substInst_no_ref, HNPne.
    - cbn in Hu. apply existsb_eqb_In in Hu. fold Users in Hu. congruence. }
  { apply lookupInst_In in Hx. destruct Hx as [Hx Hid].
    exists (retarget Users GEP NewPtr x). split; [|split].
    - apply in_map_iff. exists x. split; [reflexivity | apply In_insertBefore_old, Hx].
    - unfold retarget. destruct (existsb (Nat.eqb (iid x)) Users); cbn; exact Hid.
    - unfold retarget, isGEP.
      destruct (existsb (Nat.eqb (iid x)) Users); cbn; rewrite Hk; reflexivity. }
Qed.

Local Open Scope list_scope.

(** ** Position of the inserted sequence when instructions are distinct *)

Lemma find_first {A : Type} (p : A -> bool) (l1 l2 : list A) (a : A) :
  (forall z, In z l1 -> p z = false) -> p a = true ->
  find p (l1 ++ a :: l2) = Some a.
Proof.
  intros H Ha. induction l1 as [|z l1 IH]; cbn.
  - rewrite Ha. reflexivity.
  - rewrite (H z) by (left; reflexivity). apply IH.
    intros w Hw. apply H. right. exact Hw.
Qed.

Lemma NoDup_map_split {A B : Type} (f : A -> B) (l1 l2 : list A) (a : A) :
  NoDup (map f (l1 ++ a :: l2)) ->
  (forall z, In z l1 -> f z <> f a) /\ (forall z, In z l2 -> f z <> f a).
Proof.
  rewrite map_app. cbn. intros H.
  pose proof (NoDup_remove_2 _ _ _ H) as Hn. split; intros z Hz E; apply Hn;
    apply in_or_app; [left | right]; rewrite <- E; apply in_map, Hz.
Qed.

Lemma insertIn_notin (ip : InstId) (new l : list Instruction) :
  (forall a, In a l -> iid a <> ip) -> insertIn ip new l = l.
Proof.
  induction l as [|x l IH]; intros H; cbn; [reflexivity|].
  destruct (Nat.eqb_spec (iid x) ip) as [E | _].
  - exfalso. apply (H x); [left; reflexivity | exact E].
  - f_equal. apply IH. intros a Ha. apply H. right. exact Ha.
Qed.

Lemma insertIn_at (new l1 l2 : list Instruction) (y : Instruction) :
  (forall a, In a l1 -> iid a <> iid y) ->
  insertIn (iid y) new (l1 ++ y :: l2) = l1 ++ new ++ y :: l2.
Proof.
  induction l1 as [|x l1 IH]; intros H; cbn.
  - rewrite Nat.eqb_refl. reflexivity.
  - destruct (Nat.eqb_spec (iid x) (iid y)) as [E | _].
    + exfalso. apply (H x); [left; reflexivity | exact E].
    + f_equal. apply IH. intros a Ha. apply H. right. exact Ha.
Qed.

Lemma nextIn_at (l1 l2 : list Instruction) (x y : Instruction) :
  (forall a, In a l1 -> iid a <> iid x) ->
  nextIn (iid x) (l1 ++ x :: y :: l2) = Some (iid y).
Proof.
  induction l1 as [|z l1 IH]; intros H; cbn.
  - rewrite Nat.eqb_refl. reflexivity.
  - destruct (Nat.eqb_spec (iid z) (iid x)) as [E | _].
    + exfalso. apply (H z); [left; reflexivity | exact E].
    + apply IH. intros a Ha. apply H. right. exact Ha.
Qed.

Lemma existsb_iid_false (i : InstId) (l : list Instruction) :
  (forall a, In a l -> iid a <> i) ->
  existsb (fun x => Nat.eqb (iid x) i) l = false.
Proof.
  intros H. induction l as [|x l IH]; cbn; [reflexivity|].
  destruct (Nat.eqb_spec (iid x) i) as [E | _].
  - exfalso. apply (H x); [left; reflexivity | exact E].
  - apply IH. intros a Ha. apply H. right. exact Ha.
Qed.

Lemma block_eta (b : BasicBlock) : mkBlock (bid b) (bname b) (insts b) = b.
Proof. destruct b; reflexivity. Qed.

Lemma map_insertIn_notin (ip : InstId) (new : list Instruction)
    (bs : list BasicBlock) :
  (forall a, In a (flat_map insts bs) -> iid a <> ip) ->
  map (fun b => mkBlock (bid b) (bname b) (insertIn ip new (insts b))) bs = bs.
Proof.
  intros H. rewrite <- (map_id bs) at 2. apply map_ext_in.
  intros b Hb. rewrite insertIn_notin; [apply block_eta|].
  intros a Ha. apply H. apply in_flat_map. exists b. split; assumption.
Qed.

(** In a function whose instructions are pairwise distinct, where [x] is
    followed by [y] in block [b]: the look-ups find [x] and [b], the
    insertion point after [x] is [y], and inserting in front of [y] changes
    block [b] alone. *)
Lemma distinct_position (F : Function) (bs1 bs2 : list BasicBlock)
    (b : BasicBlock) (pre post : list Instruction) (x y : Instruction) :
  NoDup (map iid (instructions F)) ->
  blocks F = (bs1 ++ b :: bs2)%list ->
  insts b = (pre ++ x :: y :: post)%list ->
  lookupInst F (iid x) = Some x /\
  getParent F (iid x) = Some b /\
  nextIn (iid x) (insts b) = Some (iid y) /\
  forall new,
    insertBefore (iid y) new F =
    withBlocks F (bs1 ++ mkBlock (bid b) (bname b)
                                 (pre ++ x :: new ++ y :: post) :: bs2)%list.
Proof.
  intros Hnd Hbs Hb.
  assert (Hall : instructions F =
                 (((flat_map insts bs1 ++ pre) ++ x :: nil) ++ y :: post ++ flat_map insts bs2)%list).
  { unfold instructions. rewrite Hbs, flat_map_app. cbn. rewrite Hb.
    rewrite <- !app_assoc. cbn. reflexivity. }
  assert (Hx1 : forall z, In z (flat_map insts bs1 ++ pre)%list -> iid z <> iid x).
  { rewrite Hall in Hnd. rewrite <- app_assoc in Hnd. cbn in Hnd.
    apply NoDup_map_split in Hnd. apply Hnd. }
  assert (Hy1 : forall z, In z ((flat_map insts bs1 ++ pre) ++ x :: nil)%list ->
                          iid z <> iid y).
  { rewrite Hall in Hnd. apply NoDup_map_split in Hnd. apply Hnd. }
  assert (Hy2 : forall z, In z (post ++ flat_map insts bs2)%list -> iid z <> iid y).
  { rewrite Hall in Hnd. apply NoDup_map_split in Hnd. apply Hnd. }
  split; [|split; [|split]].
  - unfold lookupInst. rewrite Hall, <- app_assoc. cbn.
    apply find_first; [|apply Nat.eqb_refl].
    intros z Hz. apply Nat.eqb_neq, Hx1, Hz.
  - unfold getParent. rewrite Hbs. apply find_first.
    + intros b' Hb'. apply existsb_iid_false. intros a Ha.
      apply Hx1. apply in_or_app. left. apply in_flat_map. exists b'. split; assumption.
    + rewrite Hb, existsb_app. cbn. rewrite Nat.eqb_refl.
      apply orb_true_r.
  - rewrite Hb. apply nextIn_at. intros a Ha. apply Hx1.
    apply in_or_app. right. exact Ha.
  - intros new. unfold insertBefore, mapBlocks, withBlocks. f_equal.
    rewrite Hbs, map_app. cbn [map]. f_equal; [|f_equal].
    + apply map_insertIn_notin. intros a Ha. apply Hy1.
      apply in_or_app. left. apply in_or_app. left. exact Ha.
    + f_equal. rewrite Hb.
      replace (pre ++ x :: y :: post)%list with ((pre ++ x :: nil) ++ y :: post)%list
        by (rewrite <- app_assoc; reflexivity).
      rewrite insertIn_at.
      * rewrite <- app_assoc. reflexivity.
      * intros a Ha. apply Hy1. rewrite <- app_assoc. apply in_or_app. right. exact Ha.
    + apply map_insertIn_notin. intros a Ha. apply Hy2.
      apply in_or_app. right. exact Ha.
Qed.

Lemma users_nil (F : Function) (g : InstId) :
  (forall z, In z (instructions F) -> ~ In (VInst g) (operands (ikind z))) ->
  users F g = [].
Proof.
  intros H. destruct (users F g) as [|u us] eqn:E; [reflexivity|].
  assert (Hu : In u (users F g)) by (rewrite E; left; reflexivity).
  apply In_users in Hu. destruct Hu as (y & Hy & _ & Hv).
  exfalso. apply (H y Hy Hv).
Qed.

(** C9 -- An unused instruction is still rewritten.  In a function whose
    instructions are pairwise distinct, let the pointer-arithmetic
    instruction [x] pass the three skip tests, be followed by [y] in its
    block, and have no user.  The rewrite succeeds, and the resulting
    function differs from the original only in that block, where the tagging
    sequence stands between [x] and [y]: pointer-to-integer cast, right
    shift, mask, negation, the instructions of the offset if any, and, add,
    integer-to-pointer cast.  No instruction is redirected, and the final
    [NewPtr] has no user. *)
Theorem unused_gep_still_rewritten (F : Function) (bs1 bs2 : list BasicBlock)
    (b : BasicBlock) (pre post : list Instruction) (x y : Instruction)
    (base : Value) (idxs : list GepIndex) (vec : bool) :
  NoDup (map iid (instructions F)) ->
  blocks F = (bs1 ++ b :: bs2)%list ->
  insts b = (pre ++ x :: y :: post)%list ->
  ikind x = GetElementPtr base idxs vec ->
  skipped F base idxs vec = false ->
  users F (iid x) = [] ->
  exists (mid : list Instruction) (Shifted : Value) (F' : Function),
    let n := freshInst F in
    let m := 4 + n + List.length mid in
    let seq := (taggingHead n (iid x) (iname x) ++ mid ++
                taggingTail m n (iname x) Shifted)%list in
    rewriteGEP F (iid x) = Some F' /\
    F' = withBlocks F (bs1 ++ mkBlock (bid b) (bname b)
                                      (pre ++ x :: seq ++ y :: post) :: bs2)%list /\
    wfNew (4 + n) mid /\
    users F' (S (S m)) = [].
Proof.
  intros Hnd Hbs Hb Hk Hs Hu.
  destruct (distinct_position F bs1 bs2 b pre post x y Hnd Hbs Hb)
    as (Hx & Hp & Hn & Hins).
  assert (Hip : getInsertPointAfter F (iid x) = Some (F, iid y)).
  { unfold getInsertPointAfter. rewrite Hx, Hp, Hk. cbn [isTerminator].
    rewrite Hn. reflexivity. }
  pose proof (rewriteGEP_rewrites F F (iid x) (iid y) x base idxs vec Hx Hk Hs Hip) as HR.
  rewrite Hu in HR.
  destruct (emitTagging (iid x) (iname x) idxs (mkBuilder (freshInst F) []))
    as [NP B] eqn:E.
  cbn [fst snd] in HR.
  rewrite (mapInsts_id (retarget [] (iid x) NP)) in HR by reflexivity.
  pose proof (gep_indices_inScope F (iid x) x base idxs vec Hx Hk) as Hsc.
  destruct (emitTagging_shape (iid x) (iname x) idxs (freshInst F) NP B Hsc E)
    as (mid & Shifted & Hem & HNP & _ & Hw & Hsh).
  destruct (emitTagging_wf (iid x) (iname x) idxs (freshInst F) NP B
              (lookupInst_fresh F (iid x) x Hx) Hsc E) as (Hwf & _ & _ & _).
  cbv zeta in Hem, HNP, Hsh.
  exists mid, Shifted, (insertBefore (iid y) (emitted B) F). cbv zeta.
  split; [exact HR|]. split; [rewrite Hins, Hem; reflexivity|]. split; [exact Hw|].
  apply users_nil. intros z Hz Hv.
  apply In_insertBefore in Hz. destruct Hz as [Hz | Hz].
  - pose proof (operand_inScope F z _ Hz Hv) as Hs'. unfold inScope in Hs'.
    cbn in Hs'. lia.
  - destruct (wfNew_In _ _ z Hwf Hz) as (Hr & _ & Hops).
    rewrite Forall_forall in Hops. specialize (Hops _ Hv).
    unfold inScope in Hops. cbn in Hops.
    rewrite Hem in Hr. rewrite !length_app in Hr. cbn in Hr. lia.
Qed.

(** ** Patching the PHI nodes of the normal destination *)

Lemma keyedBy_le (P : BlockId) (inc : list (Value * BlockId)) :
  keyedBy P inc <= List.length inc.
Proof. apply filter_length_le. Qed.

Lemma getBasicBlockIndex_None (P B : BlockId) (inc : list (Value * BlockId)) :
  getBasicBlockIndex inc P = None -> rekey P B inc = inc.
Proof.
  induction inc as [|[v b] inc IH]; cbn; [reflexivity|].
  destruct (Nat.eqb b P); [discriminate|].
  destruct (getBasicBlockIndex inc P); [discriminate|].
  intros _. f_equal. apply IH. reflexivity.
Qed.

Lemma getBasicBlockIndex_Some (P B : BlockId) (inc : list (Value * BlockId)) (i : nat) :
  B <> P ->
  getBasicBlockIndex inc P = Some i ->
  S (keyedBy P (setIncomingBlock inc i B)) = keyedBy P inc /\
  rekey P B (setIncomingBlock inc i B) = rekey P B inc.
Proof.
  intros HB. revert i. induction inc as [|[v b] inc IH]; intros i; cbn; [discriminate|].
  destruct (Nat.eqb_spec b P) as [-> | Hb].
  - intros E. injection E as <-. unfold keyedBy. cbn.
    destruct (Nat.eqb_spec B P); [contradiction|].
    cbn. split; reflexivity.
  - destruct (getBasicBlockIndex inc P) as [j|]; [|discriminate].
    cbn. intros E. injection E as <-.
    destruct (IH j eq_refl) as [H1 H2]. unfold keyedBy in *. cbn.
    destruct (Nat.eqb_spec b P); [contradiction|].
    split; [exact H1 | f_equal; exact H2].
Qed.

(** The inner loop finishes within as many iterations as there are entries
    keyed by the parent, and rekeys every one of them. *)
Lemma patchPHI_rekey (P B : BlockId) :
  B <> P ->
  forall (fuel : nat) (inc : list (Value * BlockId)),
    keyedBy P inc <= fuel ->
    patchPHI fuel P B inc = Some (rekey P B inc).
Proof.
  intros HB. induction fuel as [|fuel IH]; intros inc Hf.
  - cbn. destruct (getBasicBlockIndex inc P) as [i|] eqn:E.
    + destruct (getBasicBlockIndex_Some P B inc i HB E) as [H _]. lia.
    + rewrite (getBasicBlockIndex_None P B inc E). reflexivity.
  - cbn. destruct (getBasicBlockIndex inc P) as [i|] eqn:E.
    + destruct (getBasicBlockIndex_Some P B inc i HB E) as [H1 H2].
      rewrite IH by lia. rewrite H2. reflexivity.
    + rewrite (getBasicBlockIndex_None P B inc E). reflexivity.
Qed.

Lemma patchPHIs_rekey (P B : BlockId) (l : list Instruction) :
  B <> P ->
  patchPHIs P B l = Some (map (rekeyInst P B) (leadingPHIs l) ++ afterPHIs l).
Proof.
  intros HB. induction l as [|x l IH]; [reflexivity|].
  cbn [patchPHIs leadingPHIs afterPHIs]. unfold isPHI, rekeyInst.
  destruct (ikind x) as [ | inc | | | | | | ] eqn:Ek; try reflexivity.
  rewrite (patchPHI_rekey P B HB) by apply keyedBy_le.
  rewrite IH. cbn [map app]. rewrite Ek. reflexivity.
Qed.

Lemma rekeyInst_nonPHI (P B : BlockId) (x : Instruction) :
  isPHI x = false -> rekeyInst P B x = x.
Proof. unfold isPHI, rekeyInst. destruct (ikind x); [reflexivity | discriminate | reflexivity ..]. Qed.

Lemma leading_after (l : list Instruction) : leadingPHIs l ++ afterPHIs l = l.
Proof.
  induction l as [|x l IH]; cbn; [reflexivity|].
  destruct (isPHI x); cbn; [rewrite IH|]; reflexivity.
Qed.

Lemma patchPHIs_grouped (P B : BlockId) (l : list Instruction) :
  B <> P -> phisGrouped l = true ->
  patchPHIs P B l = Some (map (rekeyInst P B) l).
Proof.
  intros HB Hg. rewrite (patchPHIs_rekey P B l HB). f_equal.
  rewrite <- (leading_after l) at 3. rewrite map_app. f_equal.
  unfold phisGrouped in Hg. rewrite forallb_forall in Hg.
  rewrite <- (map_id (afterPHIs l)) at 1. apply map_ext_in.
  intros a Ha. symmetry. apply rekeyInst_nonPHI.
  specialize (Hg a Ha). destruct (isPHI a); [discriminate | reflexivity].
Qed.

Lemma mapM_map {A B : Type} (f : A -> option B) (g : A -> B) (l : list A) :
  (forall a, In a l -> f a = Some (g a)) -> mapM f l = Some (map g l).
Proof.
  induction l as [|a l IH]; intros H; cbn; [reflexivity|].
  rewrite (H a) by (left; reflexivity).
  rewrite IH by (intros z Hz; apply H; right; exact Hz). reflexivity.
Qed.

Lemma patchDst_blocks (Dst P B : BlockId) (F : Function) :
  B <> P ->
  patchDst Dst P B F = Some (withBlocks F (map (patchBlock Dst P B) (blocks F))).
Proof.
  intros HB. unfold patchDst.
  rewrite (mapM_map _ (patchBlock Dst P B)); [reflexivity|].
  intros b _. unfold patchBlock. destruct (Nat.eqb (bid b) Dst); [|reflexivity].
  rewrite (patchPHIs_rekey P B _ HB). reflexivity.
Qed.

(** ** Splitting the normal edge of an exceptional call *)

Lemma find_split {A : Type} (p : A -> bool) (l : list A) (a : A) :
  find p l = Some a ->
  exists l1 l2, l = l1 ++ a :: l2 /\ (forall z, In z l1 -> p z = false) /\ p a = true.
Proof.
  induction l as [|x l IH]; cbn; [discriminate|].
  destruct (p x) eqn:Ex.
  - intros E. injection E as <-. exists [], l. repeat split; [intros z []| exact Ex].
  - intros H. destruct (IH H) as (l1 & l2 & -> & H1 & H2).
    exists (x :: l1), l2. repeat split; [|exact H2].
    intros z [<- | Hz]; [exact Ex | apply H1, Hz].
Qed.

Lemma insertBlockBefore_at (Dst : BlockId) (nb tb : BasicBlock)
    (l1 l2 : list BasicBlock) :
  (forall z, In z l1 -> Nat.eqb (bid z) Dst = false) ->
  Nat.eqb (bid tb) Dst = true ->
  insertBlockBefore Dst nb (l1 ++ tb :: l2) = l1 ++ nb :: tb :: l2.
Proof.
  intros H Ht. induction l1 as [|z l1 IH]; cbn.
  - rewrite Ht. reflexivity.
  - rewrite (H z) by (left; reflexivity). f_equal. apply IH.
    intros w Hw. apply H. right. exact Hw.
Qed.

Lemma freshBlock_above_bid (F : Function) (b : BasicBlock) :
  In b (blocks F) -> bid b < freshBlock F.
Proof.
  intros H. unfold freshBlock.
  assert (blockBound b <= fold_right Nat.max 0 (map blockBound (blocks F)))
    by (apply fold_max_ge_in, in_map, H).
  pose proof (fold_max_ge_base (S (bid b))
                (map S (flat_map (fun i => kindBlocks (ikind i)) (insts b)))).
  unfold blockBound in *. lia.
Qed.

Lemma freshBlock_above_ref (F : Function) (b : BasicBlock) (i : Instruction)
    (q : BlockId) :
  In b (blocks F) -> In i (insts b) -> In q (kindBlocks (ikind i)) ->
  q < freshBlock F.
Proof.
  intros Hb Hi Hq. unfold freshBlock.
  assert (blockBound b <= fold_right Nat.max 0 (map blockBound (blocks F)))
    by (apply fold_max_ge_in, in_map, Hb).
  assert (S q <= blockBound b).
  { unfold blockBound. apply fold_max_ge_in. apply in_map.
    apply in_flat_map. exists i. split; assumption. }
  lia.
Qed.

Lemma lookupBlock_split (F : Function) (T : BlockId) (tb : BasicBlock) :
  lookupBlock F T = Some tb ->
  exists l1 l2, blocks F = l1 ++ tb :: l2 /\
                (forall z, In z l1 -> Nat.eqb (bid z) T = false) /\ bid tb = T.
Proof.
  unfold lookupBlock. intros H. apply find_split in H.
  destruct H as (l1 & l2 & E & H1 & H2).
  exists l1, l2. repeat split; [exact E | exact H1 | apply Nat.eqb_eq, H2].
Qed.

Lemma splitBlock_bid (I : InstId) (Dst P B : BlockId) (b : BasicBlock) :
  bid (splitBlock I Dst P B b) = bid b.
Proof.
  unfold splitBlock, patchBlock, redirectBlock. cbn.
  destruct (Nat.eqb (bid b) Dst); reflexivity.
Qed.

Lemma splitBlock_new (F : Function) (I : InstId) (Dst P : BlockId) :
  Dst < freshBlock F ->
  splitBlock I Dst P (freshBlock F) (insertPointBlock F Dst) = insertPointBlock F Dst.
Proof.
  intros H. unfold splitBlock, patchBlock, redirectBlock, insertPointBlock. cbn.
  destruct (Nat.eqb_spec (freshBlock F) Dst); [lia|].
  unfold redirectInvoke. cbn. destruct (Nat.eqb (freshInst F) I); reflexivity.
Qed.

(** The result of the resolver on an exceptional call, in closed form: the
    new block stands in front of the normal destination, and every block has
    gone through [splitBlock]. *)
Lemma getInsertPointAfter_invoke (F : Function) (I : InstId) (x : Instruction)
    (args : list Value) (T U : BlockId) (pb tb : BasicBlock)
    (l1 l2 : list BasicBlock) :
  lookupInst F I = Some x ->
  ikind x = Invoke args T U ->
  getParent F I = Some pb ->
  blocks F = l1 ++ tb :: l2 ->
  (forall z, In z l1 -> Nat.eqb (bid z) T = false) ->
  bid tb = T ->
  getInsertPointAfter F I =
    Some (withBlocks F
            (map (splitBlock I T (bid pb) (freshBlock F)) l1 ++
             insertPointBlock F T ::
             map (splitBlock I T (bid pb) (freshBlock F)) (tb :: l2)),
          freshInst F).
Proof.
  intros Hx Hk Hp Hbs Hl1 Ht.
  assert (HT : lookupBlock F T = Some tb).
  { unfold lookupBlock. rewrite Hbs. apply find_first; [exact Hl1|].
    apply Nat.eqb_eq, Ht. }
  assert (HB : freshBlock F <> bid pb).
  { apply getParent_In in Hp. apply freshBlock_above_bid in Hp. lia. }
  assert (HTB : T < freshBlock F).
  { rewrite <- Ht. apply freshBlock_above_bid. rewrite Hbs.
    apply in_or_app. right. left. reflexivity. }
  unfold getInsertPointAfter. rewrite Hx, Hp, Hk, HT.
  rewrite (patchDst_blocks T (bid pb) (freshBlock F) _ HB).
  cbn [option_map]. f_equal. f_equal.
  unfold withBlocks, setNormalDest, mapInsts, mapBlocks. cbn. f_equal.
  rewrite Hbs, insertBlockBefore_at by (exact Hl1 || (apply Nat.eqb_eq, Ht)).
  rewrite map_map. rewrite map_app. cbn [map].
  f_equal. f_equal.
  apply (splitBlock_new F I T (bid pb) HTB).
Qed.

(** ** Terminators, successors and predecessors *)

Lemma lastInst_snoc (l : list Instruction) (x : Instruction) :
  lastInst (l ++ [x]) = Some x.
Proof.
  induction l as [|a l IH]; [reflexivity|].
  cbn [app]. destruct (l ++ [x]) as [|b r] eqn:E.
  - destruct l; discriminate E.
  - cbn [lastInst]. cbn [lastInst] in IH. exact IH.
Qed.

Lemma lastInst_In (l : list Instruction) (t : Instruction) :
  lastInst l = Some t -> In t l.
Proof.
  induction l as [|a l IH]; [discriminate|].
  destruct l as [|b r].
  - cbn. intros E. injection E as <-. left. reflexivity.
  - intros H. right. apply IH. exact H.
Qed.

Lemma lastInst_map (f : Instruction -> Instruction) (l : list Instruction) :
  lastInst (map f l) = option_map f (lastInst l).
Proof.
  induction l as [|a l IH]; [reflexivity|].
  destruct l as [|b r]; [reflexivity|].
  cbn [map lastInst] in *. exact IH.
Qed.

Lemma Forall2_lastInst (R : Instruction -> Instruction -> Prop)
    (l l' : list Instruction) :
  Forall2 R l l' ->
  match lastInst l, lastInst l' with
  | Some a, Some b => R a b
  | None, None => True
  | _, _ => False
  end.
Proof.
  induction 1 as [|a b l l' Hab Hl IH]; [exact I|].
  destruct Hl as [|a2 b2 l l' H2 Hl]; [exact Hab|].
  cbn [lastInst] in *. exact IH.
Qed.

Lemma successors_rekeyInst (P B : BlockId) (x : Instruction) :
  successors (ikind (rekeyInst P B x)) = successors (ikind x).
Proof. unfold rekeyInst. destruct (ikind x) eqn:E; cbn; rewrite ?E; reflexivity. Qed.

Lemma iid_rekeyInst (P B : BlockId) (x : Instruction) : iid (rekeyInst P B x) = iid x.
Proof. unfold rekeyInst. destruct (ikind x); reflexivity. Qed.

Lemma iid_redirectInvoke (I : InstId) (B : BlockId) (x : Instruction) :
  iid (redirectInvoke I B x) = iid x.
Proof.
  unfold redirectInvoke. destruct (Nat.eqb (iid x) I); [|reflexivity].
  destruct (ikind x); reflexivity.
Qed.

Lemma isPHI_redirectInvoke (I : InstId) (B : BlockId) (x : Instruction) :
  isPHI (redirectInvoke I B x) = isPHI x.
Proof.
  unfold redirectInvoke, isPHI. destruct (Nat.eqb (iid x) I); [|reflexivity].
  destruct (ikind x) eqn:E; cbn; rewrite ?E; reflexivity.
Qed.

Lemma redirectInvoke_PHI (I : InstId) (B : BlockId) (x : Instruction) :
  isPHI x = true -> redirectInvoke I B x = x.
Proof.
  unfold redirectInvoke, isPHI. destruct (Nat.eqb (iid x) I); [|reflexivity].
  destruct (ikind x); try reflexivity. discriminate.
Qed.

Lemma redirectInvoke_other (I : InstId) (B : BlockId) (x : Instruction) :
  iid x <> I -> redirectInvoke I B x = x.
Proof.
  intros H. unfold redirectInvoke. destruct (Nat.eqb_spec (iid x) I); [contradiction|].
  reflexivity.
Qed.

Lemma redirectInvoke_invoke (B : BlockId) (x : Instruction) (args : list Value)
    (T U : BlockId) :
  ikind x = Invoke args T U ->
  redirectInvoke (iid x) B x = mkInst (iid x) (iname x) (Invoke args B U).
Proof. intros H. unfold redirectInvoke. rewrite Nat.eqb_refl, H. reflexivity. Qed.

Lemma successors_redirectInvoke (I : InstId) (B q : BlockId) (x : Instruction) :
  In q (successors (ikind (redirectInvoke I B x))) ->
  (q = B /\ iid x = I) \/ (In q (successors (ikind x))).
Proof.
  unfold redirectInvoke. destruct (Nat.eqb_spec (iid x) I) as [E|]; [|tauto].
  destruct (ikind x) eqn:K; cbn [ikind successors]; rewrite ?K; try tauto.
  cbn. intros [H | [H | []]]; subst; tauto.
Qed.

Lemma leadingPHIs_map (f : Instruction -> Instruction) (l : list Instruction) :
  (forall x, isPHI (f x) = isPHI x) ->
  leadingPHIs (map f l) = map f (leadingPHIs l).
Proof.
  intros H. induction l as [|x l IH]; cbn; [reflexivity|].
  rewrite H. destruct (isPHI x); cbn; [rewrite IH|]; reflexivity.
Qed.

Lemma afterPHIs_map (f : Instruction -> Instruction) (l : list Instruction) :
  (forall x, isPHI (f x) = isPHI x) ->
  afterPHIs (map f l) = map f (afterPHIs l).
Proof.
  intros H. induction l as [|x l IH]; cbn; [reflexivity|].
  rewrite H. destruct (isPHI x); cbn; [rewrite IH|]; reflexivity.
Qed.

Lemma leadingPHIs_all (l : list Instruction) : forallb isPHI (leadingPHIs l) = true.
Proof.
  induction l as [|x l IH]; cbn; [reflexivity|].
  destruct (isPHI x) eqn:E; cbn; [rewrite E, IH|]; reflexivity.
Qed.

(** The instructions of a block after the split, in terms of the original. *)
Lemma splitBlock_insts_dst (I : InstId) (P B : BlockId) (b : BasicBlock) :
  insts (splitBlock I (bid b) P B b) =
  map (rekeyInst P B) (leadingPHIs (insts b)) ++
  map (redirectInvoke I B) (afterPHIs (insts b)).
Proof.
  unfold splitBlock, patchBlock, redirectBlock. cbn [bid insts].
  rewrite Nat.eqb_refl. cbn [insts].
  rewrite (leadingPHIs_map _ _ (isPHI_redirectInvoke I B)).
  rewrite (afterPHIs_map _ _ (isPHI_redirectInvoke I B)).
  f_equal. rewrite map_map. apply map_ext_in.
  intros a Ha. f_equal. apply redirectInvoke_PHI.
  pose proof (leadingPHIs_all (insts b)) as H. rewrite forallb_forall in H.
  apply H, Ha.
Qed.

Lemma splitBlock_insts_other (I : InstId) (Dst P B : BlockId) (b : BasicBlock) :
  bid b <> Dst ->
  insts (splitBlock I Dst P B b) = map (redirectInvoke I B) (insts b).
Proof.
  intros H. unfold splitBlock, patchBlock, redirectBlock. cbn [bid insts].
  destruct (Nat.eqb_spec (bid b) Dst); [contradiction | reflexivity].
Qed.

Lemma splitBlock_ids (I : InstId) (Dst P B : BlockId) (b : BasicBlock) :
  map iid (insts (splitBlock I Dst P B b)) = map iid (insts b).
Proof.
  destruct (Nat.eqb_spec (bid b) Dst) as [<- | H].
  - rewrite splitBlock_insts_dst, map_app, !map_map.
    rewrite <- (leading_after (insts b)) at 3. rewrite map_app. f_equal.
    + apply map_ext, iid_rekeyInst.
    + apply map_ext, iid_redirectInvoke.
  - rewrite splitBlock_insts_other by exact H. rewrite map_map.
    apply map_ext, iid_redirectInvoke.
Qed.

Lemma splitBlock_successors (I : InstId) (Dst P B : BlockId) (b : BasicBlock) :
  blockSuccessors (splitBlock I Dst P B b) =
  match lastInst (insts b) with
  | Some t => successors (ikind (redirectInvoke I B t))
  | None => []
  end.
Proof.
  unfold blockSuccessors.
  assert (H : Forall2 (fun a a' => successors (ikind a') =
                                  successors (ikind (redirectInvoke I B a)))
                      (insts b) (insts (splitBlock I Dst P B b))).
  { destruct (Nat.eqb_spec (bid b) Dst) as [<- | Hne].
    - rewrite splitBlock_insts_dst. rewrite <- (leading_after (insts b)) at 1.
      apply Forall2_app.
      + pose proof (leadingPHIs_all (insts b)) as Hall.
        induction (leadingPHIs (insts b)) as [|a l IH]; cbn; constructor.
        * cbn in Hall. apply andb_prop in Hall.
          rewrite successors_rekeyInst, redirectInvoke_PHI by apply Hall. reflexivity.
        * apply IH. cbn in Hall. apply andb_prop in Hall. apply Hall.
      + induction (afterPHIs (insts b)) as [|a l IH]; cbn; constructor;
          [reflexivity | exact IH].
    - rewrite splitBlock_insts_other by exact Hne.
      induction (insts b) as [|a l IH]; cbn; constructor; [reflexivity | exact IH]. }
  apply Forall2_lastInst in H.
  destruct (lastInst (insts b)), (lastInst (insts (splitBlock I Dst P B b)));
    try contradiction; [exact H | reflexivity].
Qed.

Lemma In_predecessors (F : Function) (Z q : BlockId) :
  In q (predecessors F Z) <->
  exists b, In b (blocks F) /\ bid b = q /\ In Z (blockSuccessors b).
Proof.
  unfold predecessors. rewrite in_map_iff. split.
  - intros (b & <- & Hb). apply filter_In in Hb. destruct Hb as [Hb Hs].
    exists b. repeat split; [exact Hb | apply existsb_eqb_In, Hs].
  - intros (b & Hb & <- & Hs). exists b. split; [reflexivity|].
    apply filter_In. split; [exact Hb | apply existsb_eqb_In, Hs].
Qed.

Lemma NoDup_map_app_disjoint {A B : Type} (f : A -> B) (l1 l2 : list A) (a b : A) :
  NoDup (map f (l1 ++ l2)) -> In a l1 -> In b l2 -> f a <> f b.
Proof.
  intros H Ha Hb E. apply in_split in Hb. destruct Hb as (m1 & m2 & ->).
  rewrite app_assoc in H. apply NoDup_map_split in H. destruct H as [H _].
  apply (H a); [apply in_or_app; left; exact Ha | exact E].
Qed.

(** With pairwise distinct instructions, an instruction number designates
    one block. *)
Lemma same_block (F : Function) (ps1 ps2 : list BasicBlock) (pb b0 : BasicBlock)
    (x t : Instruction) :
  NoDup (map iid (instructions F)) ->
  blocks F = ps1 ++ pb :: ps2 ->
  In x (insts pb) -> In b0 (blocks F) -> In t (insts b0) -> iid t = iid x ->
  b0 = pb.
Proof.
  intros Hnd Hbs Hx Hb0 Ht E. unfold instructions in Hnd.
  rewrite Hbs in Hnd, Hb0. rewrite flat_map_app in Hnd. cbn [flat_map] in Hnd.
  apply in_app_or in Hb0. destruct Hb0 as [H | [H | H]].
  - exfalso. apply (NoDup_map_app_disjoint iid _ _ t x Hnd); [| |exact E].
    + apply in_flat_map. exists b0. split; assumption.
    + apply in_or_app. left. exact Hx.
  - symmetry. exact H.
  - exfalso. rewrite app_assoc in Hnd.
    apply (NoDup_map_app_disjoint iid _ _ x t Hnd); [| |symmetry; exact E].
    + apply in_or_app. right. exact Hx.
    + apply in_flat_map. exists b0. split; assumption.
Qed.

Lemma find_by_id (l : list Instruction) (a : Instruction) :
  NoDup (map iid l) -> In a l ->
  find (fun z => Nat.eqb (iid z) (iid a)) l = Some a.
Proof.
  intros Hnd Ha. apply in_split in Ha. destruct Ha as (l1 & l2 & ->).
  apply NoDup_map_split in Hnd. destruct Hnd as [H _].
  apply find_first; [|apply Nat.eqb_refl].
  intros z Hz. apply Nat.eqb_neq, H, Hz.
Qed.

Lemma distinct_lookup (F : Function) (ps1 ps2 : list BasicBlock) (pb : BasicBlock)
    (x : Instruction) :
  NoDup (map iid (instructions F)) ->
  blocks F = ps1 ++ pb :: ps2 ->
  In x (insts pb) ->
  lookupInst F (iid x) = Some x /\ getParent F (iid x) = Some pb.
Proof.
  intros Hnd Hbs Hx.
  assert (Hin : In x (instructions F)).
  { apply in_flat_map. exists pb. split; [|exact Hx].
    rewrite Hbs. apply in_or_app. right. left. reflexivity. }
  split; [apply find_by_id; assumption|].
  unfold getParent. rewrite Hbs. apply find_first.
  - intros b' Hb'. apply existsb_iid_false. intros a Ha E.
    assert (b' = pb).
    { apply (same_block F ps1 ps2 pb b' x a Hnd Hbs Hx); [|exact Ha | exact E].
      rewrite Hbs. apply in_or_app. left. exact Hb'. }
    subst b'. unfold instructions in Hnd. rewrite Hbs, flat_map_app in Hnd.
    cbn [flat_map] in Hnd.
    apply (NoDup_map_app_disjoint iid _ _ a x Hnd); [| |exact E].
    + apply in_flat_map. exists pb. split; assumption.
    + apply in_or_app. left. exact Hx.
  - apply existsb_exists. exists x. split; [exact Hx | apply Nat.eqb_refl].
Qed.

(** ** The function after the edge split *)

Lemma In_splitBlock_nonPHI (I : InstId) (Dst P B : BlockId) (b : BasicBlock)
    (x : Instruction) :
  In x (insts b) -> isPHI x = false ->
  In (redirectInvoke I B x) (insts (splitBlock I Dst P B b)).
Proof.
  intros Hx Hp. destruct (Nat.eqb_spec (bid b) Dst) as [<- | Hne].
  - rewrite splitBlock_insts_dst. apply in_or_app. right. apply in_map.
    rewrite <- (leading_after (insts b)) in Hx. apply in_app_or in Hx.
    destruct Hx as [Hx | Hx]; [|exact Hx].
    pose proof (leadingPHIs_all (insts b)) as H. rewrite forallb_forall in H.
    rewrite (H x Hx) in Hp. discriminate.
  - rewrite splitBlock_insts_other by exact Hne. apply in_map, Hx.
Qed.

Lemma flat_map_ids_splitBlock (I : InstId) (Dst P B : BlockId)
    (l : list BasicBlock) :
  map iid (flat_map insts (map (splitBlock I Dst P B) l)) =
  map iid (flat_map insts l).
Proof.
  induction l as [|b l IH]; [reflexivity|].
  cbn. rewrite !map_app, IH, splitBlock_ids. reflexivity.
Qed.

Lemma splitBlock_grouped (I : InstId) (P B : BlockId) (b : BasicBlock) :
  phisGrouped (insts b) = true ->
  insts (splitBlock I (bid b) P B b) =
  map (fun i => rekeyInst P B (redirectInvoke I B i)) (insts b).
Proof.
  intros Hg. rewrite splitBlock_insts_dst.
  rewrite <- (leading_after (insts b)) at 3. rewrite map_app. f_equal.
  - apply map_ext_in. intros a Ha. rewrite redirectInvoke_PHI; [reflexivity|].
    pose proof (leadingPHIs_all (insts b)) as H. rewrite forallb_forall in H.
    apply H, Ha.
  - apply map_ext_in. intros a Ha. symmetry. apply rekeyInst_nonPHI.
    rewrite isPHI_redirectInvoke.
    unfold phisGrouped in Hg. rewrite forallb_forall in Hg.
    specialize (Hg a Ha). destruct (isPHI a); [discriminate | reflexivity].
Qed.

(** The edge split of the exceptional call [x], the terminator of block
    [pb], whose normal destination [T] is the block [tb]. *)
Lemma edge_split (F : Function) (ps1 ps2 : list BasicBlock) (pb tb : BasicBlock)
    (pre : list Instruction) (x : Instruction) (args : list Value)
    (T U : BlockId) :
  NoDup (map iid (instructions F)) ->
  blocks F = ps1 ++ pb :: ps2 ->
  insts pb = pre ++ [x] ->
  ikind x = Invoke args T U ->
  lookupBlock F T = Some tb ->
  let upd := splitBlock (iid x) T (bid pb) (freshBlock F) in
  let nb := insertPointBlock F T in
  exists F',
    getInsertPointAfter F (iid x) = Some (F', freshInst F) /\
    (forall b', In b' (blocks F') <->
                b' = nb \/ exists b0, In b0 (blocks F) /\ b' = upd b0) /\
    lookupBlock F' (freshBlock F) = Some nb /\
    lookupBlock F' T = Some (upd tb) /\
    lookupInst F' (iid x) =
      Some (mkInst (iid x) (iname x) (Invoke args (freshBlock F) U)) /\
    getParent F' (freshInst F) = Some nb.
Proof.
  intros Hnd Hbs Hpb Hk HT upd nb.
  assert (Hxin : In x (insts pb)).
  { rewrite Hpb. apply in_or_app. right. left. reflexivity. }
  destruct (distinct_lookup F ps1 ps2 pb x Hnd Hbs Hxin) as [Hx Hp].
  destruct (lookupBlock_split F T tb HT) as (l1 & l2 & Hl & Hl1 & Htb).
  pose proof (getInsertPointAfter_invoke F (iid x) x args T U pb tb l1 l2
                Hx Hk Hp Hl Hl1 Htb) as HG.
  fold upd nb in HG.
  eexists. split; [exact HG|].
  assert (HTB : T < freshBlock F).
  { rewrite <- Htb. apply freshBlock_above_bid. rewrite Hl.
    apply in_or_app. right. left. reflexivity. }
  assert (Hmem : forall b', In b' (map upd l1 ++ nb :: map upd (tb :: l2)) <->
                 b' = nb \/ exists b0, In b0 (blocks F) /\ b' = upd b0).
  { intros b'. split.
    - intros H. apply in_app_or in H. destruct H as [H | [H | H]].
      + apply in_map_iff in H. destruct H as (b0 & <- & H).
        right. exists b0. split; [|reflexivity].
        rewrite Hl. apply in_or_app. left. exact H.
      + left. symmetry. exact H.
      + apply in_map_iff in H. destruct H as (b0 & <- & H).
        right. exists b0. split; [|reflexivity].
        rewrite Hl. apply in_or_app. right. exact H.
    - intros [-> | (b0 & H & ->)].
      + apply in_or_app. right. left. reflexivity.
      + rewrite Hl in H. apply in_app_or in H. apply in_or_app.
        destruct H as [H | H]; [left; apply in_map, H|].
        right. right. apply (in_map upd) in H. exact H. }
  assert (Hids : map iid (flat_map insts
                   (map upd l1 ++ nb :: map upd (tb :: l2))) =
                 map iid (flat_map insts l1) ++ freshInst F ::
                 map iid (flat_map insts (tb :: l2))).
  { rewrite flat_map_app, map_app. cbn [flat_map]. rewrite map_app.
    unfold upd. rewrite flat_map_ids_splitBlock.
    change (splitBlock (iid x) T (bid pb) (freshBlock F) tb ::
            map (splitBlock (iid x) T (bid pb) (freshBlock F)) l2)
      with (map (splitBlock (iid x) T (bid pb) (freshBlock F)) (tb :: l2)).
    rewrite <- map_app.
    change (insts nb) with [mkInst (freshInst F) "" (Br T)].
    rewrite map_app. rewrite flat_map_ids_splitBlock. reflexivity. }
  assert (Hnd' : NoDup (map iid (flat_map insts
                   (map upd l1 ++ nb :: map upd (tb :: l2))))).
  { rewrite Hids. apply NoDup_Add with (a := freshInst F)
      (l := map iid (flat_map insts l1) ++ map iid (flat_map insts (tb :: l2))).
    - apply Add_app.
    - split.
      + rewrite <- map_app, <- flat_map_app, <- Hl. exact Hnd.
      + rewrite <- map_app, <- flat_map_app, <- Hl. intros Hin.
        apply in_map_iff in Hin. destruct Hin as (z & Hz & Hin).
        apply freshInst_above_id in Hin. lia. }
  split; [exact Hmem|]. split; [|split; [|split]].
  - unfold lookupBlock. cbn [blocks withBlocks]. apply find_first.
    + intros z Hz. apply in_map_iff in Hz. destruct Hz as (b0 & <- & Hb0).
      unfold upd. rewrite splitBlock_bid. apply Nat.eqb_neq.
      assert (bid b0 < freshBlock F); [|lia].
      apply freshBlock_above_bid. rewrite Hl. apply in_or_app. left. exact Hb0.
    + apply Nat.eqb_refl.
  - unfold lookupBlock. cbn [blocks withBlocks map].
    replace (map upd l1 ++ nb :: upd tb :: map upd l2)
      with ((map upd l1 ++ [nb]) ++ upd tb :: map upd l2)
      by (rewrite <- app_assoc; reflexivity).
    apply find_first.
    + intros z Hz. apply in_app_or in Hz. destruct Hz as [Hz | [<- | []]].
      * apply in_map_iff in Hz. destruct Hz as (b0 & <- & Hb0).
        unfold upd. rewrite splitBlock_bid. apply Hl1, Hb0.
      * cbn. apply Nat.eqb_neq. lia.
    + unfold upd. rewrite splitBlock_bid. apply Nat.eqb_eq, Htb.
  - unfold lookupInst, instructions. cbn [blocks withBlocks].
    change (iid x) with
      (iid (mkInst (iid x) (iname x) (Invoke args (freshBlock F) U))) at 1.
    apply find_by_id; [exact Hnd'|].
    apply in_flat_map. exists (upd pb). split.
    + apply Hmem. right. exists pb. split; [|reflexivity].
      rewrite Hbs. apply in_or_app. right. left. reflexivity.
    + rewrite <- (redirectInvoke_invoke (freshBlock F) x args T U Hk).
      apply In_splitBlock_nonPHI; [exact Hxin|].
      unfold isPHI. rewrite Hk. reflexivity.
  - unfold getParent. cbn [blocks withBlocks]. apply find_first.
    + intros z Hz. apply in_map_iff in Hz. destruct Hz as (b0 & <- & Hb0).
      apply existsb_iid_false. intros a Ha E.
      assert (Hin : In (iid a) (map iid (insts (upd b0)))) by (apply in_map, Ha).
      unfold upd in Hin. rewrite splitBlock_ids in Hin.
      apply in_map_iff in Hin. destruct Hin as (a0 & E0 & Ha0).
      assert (In a0 (instructions F)).
      { apply in_flat_map. exists b0. split; [|exact Ha0].
        rewrite Hl. apply in_or_app. left. exact Hb0. }
      apply freshInst_above_id in H. lia.
    + cbn. rewrite Nat.eqb_refl. reflexivity.
Qed.

(** ** Predecessors after the edge split *)

Lemma successors_kindBlocks (k : InstKind) (q : BlockId) :
  In q (successors k) -> In q (kindBlocks k).
Proof. destruct k; cbn; tauto. Qed.

Lemma redirected_successors (I : InstId) (B q : BlockId) (t : Instruction) :
  In q (successors (ikind (redirectInvoke I B t))) ->
  (iid t = I /\ exists a n u, ikind t = Invoke a n u /\ (q = B \/ q = u)) \/
  (redirectInvoke I B t = t /\ In q (successors (ikind t))).
Proof.
  unfold redirectInvoke. destruct (Nat.eqb_spec (iid t) I) as [E|]; [|tauto].
  destruct (ikind t) as [ | | a n u | | | | | ] eqn:K; cbn [ikind successors];
    rewrite ?K; try tauto.
  cbn. intros [H | [H | []]]; left; (split; [exact E|]); exists a, n, u;
    (split; [reflexivity|]); [left | right]; symmetry; exact H.
Qed.

Lemma NoDup_map_inj {A B : Type} (f : A -> B) (l : list A) (a b : A) :
  NoDup (map f l) -> In a l -> In b l -> f a = f b -> a = b.
Proof.
  intros Hnd Ha Hb E. apply in_split in Ha. destruct Ha as (l1 & l2 & ->).
  apply NoDup_map_split in Hnd. destruct Hnd as [H1 H2].
  apply in_app_or in Hb. destruct Hb as [Hb | [Hb | Hb]].
  - exfalso. apply (H1 b Hb). symmetry. exact E.
  - exact Hb.
  - exfalso. apply (H2 b Hb). symmetry. exact E.
Qed.

Section EdgeSplit.

Variables (F F' : Function) (ps1 ps2 : list BasicBlock) (pb : BasicBlock)
          (pre : list Instruction) (x : Instruction) (args : list Value)
          (T U : BlockId).

Hypothesis Hnd : NoDup (map iid (instructions F)).
Hypothesis Hbs : blocks F = ps1 ++ pb :: ps2.
Hypothesis Hpb : insts pb = pre ++ [x].
Hypothesis Hk : ikind x = Invoke args T U.
Hypothesis HT : T < freshBlock F.
Hypothesis Hmem :
  forall b', In b' (blocks F') <->
    b' = insertPointBlock F T \/
    exists b0, In b0 (blocks F) /\
               b' = splitBlock (iid x) T (bid pb) (freshBlock F) b0.

Let Hxin : In x (insts pb).
Proof. rewrite Hpb. apply in_or_app. right. left. reflexivity. Qed.

Let Hpbin : In pb (blocks F).
Proof. rewrite Hbs. apply in_or_app. right. left. reflexivity. Qed.

Lemma split_parent_successors :
  blockSuccessors (splitBlock (iid x) T (bid pb) (freshBlock F) pb) =
  [freshBlock F; U].
Proof.
  rewrite splitBlock_successors, Hpb, lastInst_snoc.
  rewrite (redirectInvoke_invoke (freshBlock F) x args T U Hk). reflexivity.
Qed.

Lemma terminator_is_invoke (b0 : BasicBlock) (t : Instruction) :
  In b0 (blocks F) -> lastInst (insts b0) = Some t -> iid t = iid x ->
  b0 = pb /\ t = x.
Proof.
  intros Hb0 Ht E. apply lastInst_In in Ht as Hin.
  assert (b0 = pb) by (apply (same_block F ps1 ps2 pb b0 x t); assumption).
  subst b0. split; [reflexivity|].
  rewrite Hpb, lastInst_snoc in Ht. injection Ht as <-. reflexivity.
Qed.

(** The new block has the block of the call as its one predecessor. *)
Lemma predecessors_new_block (q : BlockId) :
  In q (predecessors F' (freshBlock F)) <-> q = bid pb.
Proof.
  rewrite In_predecessors. split.
  - intros (b' & Hb' & <- & Hs). apply Hmem in Hb'.
    destruct Hb' as [-> | (b0 & Hb0 & ->)].
    + cbn in Hs. destruct Hs as [Hs | []]. lia.
    + rewrite splitBlock_bid. rewrite splitBlock_successors in Hs.
      destruct (lastInst (insts b0)) as [t|] eqn:Et; [|destruct Hs].
      apply redirected_successors in Hs.
      destruct Hs as [(E & _) | (_ & Hs)].
      * destruct (terminator_is_invoke b0 t Hb0 Et E) as [-> _]. reflexivity.
      * exfalso. apply successors_kindBlocks in Hs.
        pose proof (freshBlock_above_ref F b0 t _ Hb0 (lastInst_In _ _ Et) Hs).
        lia.
  - intros ->. exists (splitBlock (iid x) T (bid pb) (freshBlock F) pb).
    split; [|split].
    + apply Hmem. right. exists pb. split; [exact Hpbin | reflexivity].
    + apply splitBlock_bid.
    + rewrite split_parent_successors. left. reflexivity.
Qed.

(** The predecessors of the normal destination: the new block has taken
    the place of the block of the call. *)
Lemma predecessors_destination (q : BlockId) :
  NoDup (map bid (blocks F)) -> U <> T ->
  (In q (predecessors F' T) <->
   q = freshBlock F \/ (q <> bid pb /\ In q (predecessors F T))).
Proof.
  intros Hbid HU. rewrite !In_predecessors. split.
  - intros (b' & Hb' & <- & Hs). apply Hmem in Hb'.
    destruct Hb' as [-> | (b0 & Hb0 & ->)]; [left; reflexivity|].
    right. rewrite splitBlock_bid. rewrite splitBlock_successors in Hs.
    destruct (lastInst (insts b0)) as [t|] eqn:Et; [|destruct Hs].
    apply redirected_successors in Hs.
    destruct Hs as [(E & a & n & u & Ka & Hq) | (Hr & Hs)].
    + exfalso. destruct (terminator_is_invoke b0 t Hb0 Et E) as [-> ->].
      rewrite Hk in Ka. injection Ka as _ _ <-.
      destruct Hq; [lia | congruence].
    + split.
      * intros Eb. assert (b0 = pb)
          by (apply (NoDup_map_inj bid (blocks F)); assumption).
        subst b0. rewrite Hpb, lastInst_snoc in Et. injection Et as <-.
        rewrite (redirectInvoke_invoke (freshBlock F) x args T U Hk) in Hr.
        destruct x as [xi xn xk]. cbn in Hr, Hk. subst xk.
        injection Hr as Hr. lia.
      * exists b0. repeat split; [exact Hb0|].
        unfold blockSuccessors. rewrite Et. exact Hs.
  - intros [-> | (Hq & b0 & Hb0 & <- & Hs)].
    + exists (insertPointBlock F T). split; [|split].
      * apply Hmem. left. reflexivity.
      * reflexivity.
      * cbn. left. reflexivity.
    + exists (splitBlock (iid x) T (bid pb) (freshBlock F) b0).
      split; [|split].
      * apply Hmem. right. exists b0. split; [exact Hb0 | reflexivity].
      * apply splitBlock_bid.
      * rewrite splitBlock_successors. unfold blockSuccessors in Hs.
        destruct (lastInst (insts b0)) as [t|] eqn:Et; [|destruct Hs].
        rewrite redirectInvoke_other; [exact Hs|].
        intros E. destruct (terminator_is_invoke b0 t Hb0 Et E) as [-> _].
        apply Hq. reflexivity.
Qed.

End EdgeSplit.

(** ** The two claims about the edge split *)

Lemma isPHI_rekeyInst (P B : BlockId) (x : Instruction) :
  isPHI (rekeyInst P B x) = isPHI x.
Proof. unfold rekeyInst, isPHI. destruct (ikind x) eqn:E; cbn; rewrite ?E; reflexivity. Qed.

Lemma afterPHIs_head (l : list Instruction) :
  match afterPHIs l with
  | [] => True
  | a :: _ => isPHI a = false
  end.
Proof.
  induction l as [|x l IH]; cbn; [exact I|].
  destruct (isPHI x) eqn:E; [exact IH | exact E].
Qed.

Lemma leadingPHIs_app (L A : list Instruction) :
  forallb isPHI L = true ->
  match A with [] => True | a :: _ => isPHI a = false end ->
  leadingPHIs (L ++ A) = L.
Proof.
  intros HL HA. induction L as [|x L IH]; cbn.
  - destruct A as [|a A]; [reflexivity|]. cbn. rewrite HA. reflexivity.
  - cbn in HL. apply andb_prop in HL. destruct HL as [Hx HL].
    rewrite Hx, IH by exact HL. reflexivity.
Qed.

Lemma splitBlock_leadingPHIs (I : InstId) (P B : BlockId) (b : BasicBlock) :
  leadingPHIs (insts (splitBlock I (bid b) P B b)) =
  map (rekeyInst P B) (leadingPHIs (insts b)).
Proof.
  rewrite splitBlock_insts_dst. apply leadingPHIs_app.
  - rewrite forallb_forall. intros a Ha. apply in_map_iff in Ha.
    destruct Ha as (a0 & <- & Ha0). rewrite isPHI_rekeyInst.
    pose proof (leadingPHIs_all (insts b)) as H. rewrite forallb_forall in H.
    apply H, Ha0.
  - pose proof (afterPHIs_head (insts b)) as H.
    destruct (afterPHIs (insts b)) as [|a r]; [exact Logic.I|].
    cbn. rewrite isPHI_redirectInvoke. exact H.
Qed.

Lemma rekey_values (P B : BlockId) (inc : list (Value * BlockId)) :
  map fst (rekey P B inc) = map fst inc.
Proof. unfold rekey. rewrite map_map. reflexivity. Qed.

Lemma rekey_keys (P B q : BlockId) (inc : list (Value * BlockId)) :
  B <> P ->
  (In q (map snd (rekey P B inc)) <->
   (q = B /\ In P (map snd inc)) \/ (q <> P /\ In q (map snd inc)) \/
   (q = B /\ In B (map snd inc))).
Proof.
  intros HB. induction inc as [|[v k] inc IH].
  - cbn. tauto.
  - cbn [rekey map fst snd In] in *. fold (rekey P B inc).
    destruct (Nat.eqb_spec k P) as [Ek | Hk].
    + subst k. split.
      * intros [E | H]; [left; split; [symmetry; exact E | left; reflexivity]|].
        apply IH in H. tauto.
      * intros [(E & _) | [(Hq & [E | H]) | (E & [E' | H])]].
        -- left. symmetry. exact E.
        -- congruence.
        -- right. apply IH. tauto.
        -- congruence.
        -- right. apply IH. tauto.
    + split.
      * intros [E | H]; [subst q; right; left; split; [exact Hk | left; reflexivity]|].
        apply IH in H. tauto.
      * intros [(E & [E' | H]) | [(Hq & [E | H]) | (E & [E' | H])]].
        -- congruence.
        -- right. apply IH. tauto.
        -- left. exact E.
        -- right. apply IH. tauto.
        -- left. congruence.
        -- right. apply IH. tauto.
Qed.

Lemma rekey_no_parent (P B : BlockId) (inc : list (Value * BlockId)) :
  B <> P -> ~ In P (map snd (rekey P B inc)).
Proof.
  intros HB H. apply (rekey_keys P B P inc HB) in H.
  destruct H as [(E & _) | [(E & _) | (E & _)]]; congruence.
Qed.

Lemma incomingOf_rekeyInst (P B : BlockId) (x : Instruction) :
  incomingOf (rekeyInst P B x) = rekey P B (incomingOf x).
Proof. unfold incomingOf, rekeyInst. destruct (ikind x) eqn:E; cbn; rewrite ?E; reflexivity. Qed.

(** C4 -- Exceptional-call edge splitting.  Let the exceptional call [x] be
    the terminator of block [pb], with normal destination [T] and the PHI
    nodes of [T] grouped at its head, in a function whose instructions are
    pairwise distinct.  The resolver succeeds and returns the jump of a new
    block [B]: [B] holds that one unconditional jump to [T] and nothing
    else, so the insertion point is inside [B] in front of its jump; the
    call now has [B] as normal destination and its unwind destination
    unchanged; every instruction of [T] is as before except that each
    incoming entry of each PHI keyed by the block of the call is keyed by
    [B], with the same value in the same place; [B] has the block of the
    call as its only predecessor and [T] as its only successor. *)
Theorem exceptional_call_edge_splitting (F : Function)
    (ps1 ps2 : list BasicBlock) (pb tb : BasicBlock) (pre : list Instruction)
    (x : Instruction) (args : list Value) (T U : BlockId) :
  NoDup (map iid (instructions F)) ->
  blocks F = ps1 ++ pb :: ps2 ->
  insts pb = pre ++ [x] ->
  ikind x = Invoke args T U ->
  lookupBlock F T = Some tb ->
  phisGrouped (insts tb) = true ->
  let P := bid pb in
  let B := freshBlock F in
  let jump := mkInst (freshInst F) "" (Br T) in
  let nb := mkBlock B "invoke_insert_point" [jump] in
  exists F' tb',
    getInsertPointAfter F (iid x) = Some (F', iid jump) /\
    lookupBlock F B = None /\
    lookupBlock F' B = Some nb /\
    getParent F' (iid jump) = Some nb /\
    lookupInst F' (iid x) = Some (mkInst (iid x) (iname x) (Invoke args B U)) /\
    lookupBlock F' T = Some tb' /\
    insts tb' =
      map (fun i => rekeyInst P B (redirectInvoke (iid x) B i)) (insts tb) /\
    (forall ph inc, In ph (insts tb) -> ikind ph = PHI inc ->
       In (mkInst (iid ph) (iname ph) (PHI (rekey P B inc))) (insts tb') /\
       map fst (rekey P B inc) = map fst inc /\
       ~ In P (map snd (rekey P B inc))) /\
    (forall q, In q (predecessors F' B) <-> q = P) /\
    blockSuccessors nb = [T].
Proof.
  intros Hnd Hbs Hpb Hk HT Hg P B jump nb.
  destruct (edge_split F ps1 ps2 pb tb pre x args T U Hnd Hbs Hpb Hk HT)
    as (F' & HG & Hmem & HB & HT' & HI & HP).
  destruct (lookupBlock_split F T tb HT) as (l1 & l2 & Hl & Hl1 & Htb).
  assert (HTB : T < freshBlock F).
  { rewrite <- Htb. apply freshBlock_above_bid. rewrite Hl.
    apply in_or_app. right. left. reflexivity. }
  assert (HBP : B <> P).
  { assert (bid pb < freshBlock F); [|unfold B, P; lia].
    apply freshBlock_above_bid. rewrite Hbs. apply in_or_app. right. left. reflexivity. }
  assert (Hins : insts (splitBlock (iid x) T (bid pb) (freshBlock F) tb) =
                 map (fun i => rekeyInst P B (redirectInvoke (iid x) B i)) (insts tb)).
  { rewrite <- Htb. apply splitBlock_grouped, Hg. }
  exists F', (splitBlock (iid x) T (bid pb) (freshBlock F) tb).
  split; [exact HG|]. split.
  { unfold lookupBlock. destruct (find _ (blocks F)) as [b|] eqn:E; [|reflexivity].
    apply find_some in E. destruct E as [Hb E]. apply Nat.eqb_eq in E.
    apply freshBlock_above_bid in Hb. unfold B in E. lia. }
  split; [exact HB|]. split; [exact HP|]. split; [exact HI|].
  split; [exact HT'|]. split; [exact Hins|]. split.
  { intros ph inc Hph Hinc. split; [|split].
    - rewrite Hins. apply in_map_iff. exists ph. split; [|exact Hph].
      rewrite redirectInvoke_PHI by (unfold isPHI; rewrite Hinc; reflexivity).
      unfold rekeyInst. rewrite Hinc. reflexivity.
    - apply rekey_values.
    - apply rekey_no_parent, HBP. }
  split; [|reflexivity].
  intros q. apply (predecessors_new_block F F' ps1 ps2 pb pre x args T U);
    assumption.
Qed.

Lemma keyedBy_rekey (P B : BlockId) (inc : list (Value * BlockId)) :
  B <> P -> ~ In B (map snd inc) ->
  keyedBy P (rekey P B inc) = 0 /\
  keyedBy B (rekey P B inc) = keyedBy P inc.
Proof.
  intros HB. unfold keyedBy. induction inc as [|[v k] inc IH]; intros Hn.
  - split; reflexivity.
  - cbn [map snd In] in Hn.
    destruct IH as [IH1 IH2]; [tauto|].
    cbn [rekey map fst snd filter]. fold (rekey P B inc).
    destruct (Nat.eqb_spec k P) as [Ek | Hk]; cbn [fst snd filter];
      repeat match goal with
             | |- context [Nat.eqb ?a ?b] => destruct (Nat.eqb_spec a b)
             end;
      subst; try congruence; try (exfalso; tauto);
      cbn [List.length]; split; congruence.
Qed.

(** C10 -- Every entry of every leading PHI is rekeyed.  Under the
    hypotheses of the edge split, without assuming anything on the PHI nodes
    of the normal destination [T]: the inner loop of the patch finishes; the
    leading PHI group of [T] afterwards is the old one with, in each PHI,
    every incoming entry keyed by the block of the call keyed by the new
    block, as many as there were, values untouched; no leading PHI keeps an
    entry keyed by the block of the call; and when the incoming blocks of a
    leading PHI were the predecessors of [T] before (the unwind destination
    being another block, and blocks pairwise distinct), they are the
    predecessors of [T] after. *)
Theorem phi_entries_all_rekeyed (F : Function)
    (ps1 ps2 : list BasicBlock) (pb tb : BasicBlock) (pre : list Instruction)
    (x : Instruction) (args : list Value) (T U : BlockId) :
  NoDup (map iid (instructions F)) ->
  blocks F = ps1 ++ pb :: ps2 ->
  insts pb = pre ++ [x] ->
  ikind x = Invoke args T U ->
  lookupBlock F T = Some tb ->
  let P := bid pb in
  let B := freshBlock F in
  exists F' tb',
    getInsertPointAfter F (iid x) = Some (F', freshInst F) /\
    lookupBlock F' T = Some tb' /\
    leadingPHIs (insts tb') = map (rekeyInst P B) (leadingPHIs (insts tb)) /\
    (forall ph, In ph (leadingPHIs (insts tb)) ->
       incomingOf (rekeyInst P B ph) = rekey P B (incomingOf ph) /\
       map fst (incomingOf (rekeyInst P B ph)) = map fst (incomingOf ph) /\
       keyedBy B (incomingOf (rekeyInst P B ph)) = keyedBy P (incomingOf ph)) /\
    (forall ph', In ph' (leadingPHIs (insts tb')) ->
       ~ In P (map snd (incomingOf ph')) /\ keyedBy P (incomingOf ph') = 0) /\
    (NoDup (map bid (blocks F)) -> U <> T ->
     forall ph, In ph (leadingPHIs (insts tb)) ->
       (forall q, In q (map snd (incomingOf ph)) <-> In q (predecessors F T)) ->
       forall q, In q (map snd (incomingOf (rekeyInst P B ph))) <->
                 In q (predecessors F' T)).
Proof.
  intros Hnd Hbs Hpb Hk HT P B.
  destruct (edge_split F ps1 ps2 pb tb pre x args T U Hnd Hbs Hpb Hk HT)
    as (F' & HG & Hmem & HB & HT' & HI & HP).
  destruct (lookupBlock_split F T tb HT) as (l1 & l2 & Hl & Hl1 & Htb).
  assert (Htbin : In tb (blocks F)).
  { rewrite Hl. apply in_or_app. right. left. reflexivity. }
  assert (Hpbin : In pb (blocks F)).
  { rewrite Hbs. apply in_or_app. right. left. reflexivity. }
  assert (HTB : T < freshBlock F).
  { rewrite <- Htb. apply freshBlock_above_bid, Htbin. }
  assert (HBP : B <> P).
  { pose proof (freshBlock_above_bid F pb Hpbin). unfold B, P. lia. }
  assert (Hfresh : forall ph, In ph (leadingPHIs (insts tb)) ->
                              ~ In B (map snd (incomingOf ph))).
  { intros ph Hph Hin.
    assert (Hph' : In ph (insts tb)).
    { rewrite <- (leading_after (insts tb)). apply in_or_app. left. exact Hph. }
    assert (Hkb : In B (kindBlocks (ikind ph))).
    { unfold incomingOf in Hin. destruct (ikind ph); try destruct Hin. exact Hin. }
    pose proof (freshBlock_above_ref F tb ph B Htbin Hph' Hkb). unfold B in *. lia. }
  assert (Hlead : leadingPHIs (insts (splitBlock (iid x) T (bid pb) (freshBlock F) tb)) =
                  map (rekeyInst P B) (leadingPHIs (insts tb))).
  { rewrite <- Htb. apply splitBlock_leadingPHIs. }
  exists F', (splitBlock (iid x) T (bid pb) (freshBlock F) tb).
  split; [exact HG|]. split; [exact HT'|]. split; [exact Hlead|]. split; [|split].
  - intros ph Hph. rewrite incomingOf_rekeyInst. split; [reflexivity|].
    split; [apply rekey_values|].
    apply keyedBy_rekey; [exact HBP | apply Hfresh, Hph].
  - intros ph' Hph'. rewrite Hlead in Hph'. apply in_map_iff in Hph'.
    destruct Hph' as (ph & <- & Hph). rewrite incomingOf_rekeyInst. split.
    + apply rekey_no_parent, HBP.
    + apply keyedBy_rekey; [exact HBP | apply Hfresh, Hph].
  - intros Hbid HU ph Hph Hmirror q.
    rewrite incomingOf_rekeyInst, (rekey_keys P B q _ HBP).
    rewrite (predecessors_destination F F' ps1 ps2 pb pre x args T U
               Hnd Hbs Hpb Hk HTB Hmem q Hbid HU).
    assert (HPin : In P (map snd (incomingOf ph))).
    { apply Hmirror. apply In_predecessors. exists pb. split; [exact Hpbin|].
      split; [reflexivity|]. unfold blockSuccessors.
      rewrite Hpb, lastInst_snoc, Hk. left. reflexivity. }
    pose proof (Hfresh ph Hph) as HnB.
    fold B P. rewrite <- (Hmirror q). tauto.
Qed.

(** ** The claims on the sample functions *)

Lemma exceptional_call_edge_splitting_witness :
  exists F' tb',
    getInsertPointAfter sampleInvokeFunction 1 = Some (F', 6) /\
    lookupBlock F' 3 = Some (mkBlock 3 "invoke_insert_point" [mkInst 6 "" (Br 1)]) /\
    lookupInst F' 1 = Some (mkInst 1 "r" (Invoke [] 3 2)) /\
    lookupBlock F' 1 = Some tb' /\
    (forall q, In q (predecessors F' 3) <-> q = 0).
Proof.
  destruct (exceptional_call_edge_splitting sampleInvokeFunction
              [] [mkBlock 1 "cont"
                    [mkInst 2 "m" (PHI [(VConstInt 7%Z, 0); (VConstInt 8%Z, 0)]);
                     mkInst 3 "n" (PHI [(VInst 1, 0)]);
                     mkInst 4 "" (Other true [VInst 2] [])];
                  mkBlock 2 "lpad" [mkInst 5 "" (Other true [] [])]]
              (mkBlock 0 "entry" [mkInst 1 "r" (Invoke [] 1 2)])
              (mkBlock 1 "cont"
                    [mkInst 2 "m" (PHI [(VConstInt 7%Z, 0); (VConstInt 8%Z, 0)]);
                     mkInst 3 "n" (PHI [(VInst 1, 0)]);
                     mkInst 4 "" (Other true [VInst 2] [])])
              [] (mkInst 1 "r" (Invoke [] 1 2)) [] 1 2)
    as (F' & tb' & H1 & _ & H3 & _ & H5 & H6 & _ & _ & H9 & _).
  - cbn. repeat constructor; cbn; intuition discriminate.
  - reflexivity.
  - reflexivity.
  - reflexivity.
  - reflexivity.
  - reflexivity.
  - exists F', tb'. repeat split; try assumption; apply H9.
Defined.

Lemma phi_entries_all_rekeyed_witness :
  exists F' tb',
    getInsertPointAfter sampleInvokeFunction 1 = Some (F', 6) /\
    lookupBlock F' 1 = Some tb' /\
    leadingPHIs (insts tb') =
      [mkInst 2 "m" (PHI [(VConstInt 7%Z, 3); (VConstInt 8%Z, 3)]);
       mkInst 3 "n" (PHI [(VInst 1, 3)])].
Proof.
  destruct (phi_entries_all_rekeyed sampleInvokeFunction
              [] [mkBlock 1 "cont"
                    [mkInst 2 "m" (PHI [(VConstInt 7%Z, 0); (VConstInt 8%Z, 0)]);
                     mkInst 3 "n" (PHI [(VInst 1, 0)]);
                     mkInst 4 "" (Other true [VInst 2] [])];
                  mkBlock 2 "lpad" [mkInst 5 "" (Other true [] [])]]
              (mkBlock 0 "entry" [mkInst 1 "r" (Invoke [] 1 2)])
              (mkBlock 1 "cont"
                    [mkInst 2 "m" (PHI [(VConstInt 7%Z, 0); (VConstInt 8%Z, 0)]);
                     mkInst 3 "n" (PHI [(VInst 1, 0)]);
                     mkInst 4 "" (Other true [VInst 2] [])])
              [] (mkInst 1 "r" (Invoke [] 1 2)) [] 1 2)
    as (F' & tb' & H1 & H2 & H3 & _).
  - cbn. repeat constructor; cbn; intuition discriminate.
  - reflexivity.
  - reflexivity.
  - reflexivity.
  - reflexivity.
  - exists F', tb'. repeat split; assumption.
Defined.

Lemma consumer_snapshot_framing_witness :
  exists F',
    rewriteGEP sampleFunction 1 = Some F' /\
    In (mkInst 2 "v" (Other false [VInst 10] [])) (instructions F') /\
    In (mkInst 4 "p.int" (PtrToInt (VInst 1))) (instructions F') /\
    In sampleGEP (instructions F').
Proof.
  destruct (consumer_snapshot_framing sampleFunction sampleFunction 1 2
              sampleGEP (VArg 0) [SeqIndex (VConstInt (-1)%Z) 4%Z] false
              eq_refl eq_refl eq_refl eq_refl)
    as (F' & H1 & _ & _ & _ & _ & H6 & H7 & H8 & _).
  exists F'. split; [exact H1|]. split; [|split].
  - apply (H8 (mkInst 2 "v" (Other false [VInst 1] []))).
    + cbn. tauto.
    + cbn. tauto.
  - exact H6.
  - apply (H7 sampleGEP).
    + cbn. tauto.
    + cbn. intros [H | []]. discriminate H.
Defined.

Lemma unused_gep_still_rewritten_witness :
  exists F',
    rewriteGEP sampleDeadFunction 1 = Some F' /\
    blocks F' =
      [mkBlock 0 "entry"
         (sampleGEP ::
          constantTagging 4 1 "p" (2 ^ 64 - 4)%Z ++
          [mkInst 2 "v" (Other false [VArg 0] []);
           mkInst 3 "" (Other true [VInst 2] [])])] /\
    users F' 10 = [].
Proof.
  destruct (unused_gep_still_rewritten sampleDeadFunction [] []
              (mkBlock 0 "entry"
                 [sampleGEP;
                  mkInst 2 "v" (Other false [VArg 0] []);
                  mkInst 3 "" (Other true [VInst 2] [])])
              [] [mkInst 3 "" (Other true [VInst 2] [])]
              sampleGEP (mkInst 2 "v" (Other false [VArg 0] []))
              (VArg 0) [SeqIndex (VConstInt (-1)%Z) 4%Z] false)
    as (mid & Shifted & F' & H1 & H2 & H3 & H4).
  - cbn. repeat constructor; cbn; intuition discriminate.
  - reflexivity.
  - reflexivity.
  - reflexivity.
  - reflexivity.
  - reflexivity.
  - exists F'. cbv zeta in *.
    change (rewriteGEP sampleDeadFunction 1 = Some F') in H1.
    split; [exact H1|].
    assert (E : rewriteGEP sampleDeadFunction 1 =
                Some (withBlocks sampleDeadFunction
                  [mkBlock 0 "entry"
                     (sampleGEP ::
                      constantTagging 4 1 "p" (2 ^ 64 - 4)%Z ++
                      [mkInst 2 "v" (Other false [VArg 0] []);
                       mkInst 3 "" (Other true [VInst 2] [])])]))
      by reflexivity.
    rewrite E in H1. injection H1 as <-. split; reflexivity.
Defined.

(** ** Names of synthesized values *)

Lemma prefix_empty (s : string) : String.prefix "" s = true.
Proof. destruct s; reflexivity. Qed.

Lemma prefix_app_noTail (p : string) :
  forall s t : string,
    noTail p t = true -> String.prefix p (s ++ t) = String.prefix p s.
Proof.
  induction p as [|c p IH]; intros s t H; [rewrite !prefix_empty; reflexivity|].
  cbn [noTail] in H. apply andb_prop in H. destruct H as [H1 H2].
  destruct s as [|d s].
  - cbn [String.append]. apply negb_true_iff in H1. rewrite H1. reflexivity.
  - cbn [String.append String.prefix].
    destruct (ascii_dec c d); [apply IH, H2 | reflexivity].
Qed.

Lemma string_app_assoc (a b c : string) : ((a ++ b) ++ c = a ++ (b ++ c))%string.
Proof. induction a as [|x a IH]; cbn; [reflexivity | rewrite IH; reflexivity]. Qed.

(** The name given to [NewPtr] passes a name test of the classifier exactly
    when the name of the rewritten instruction does. *)
Lemma nameTest_newptr (pat N : string) :
  noTail pat ".newptr" = true ->
  String.prefix pat "newptr" = false ->
  nameTest pat (PrefixOf N ++ "newptr") = nameTest pat N.
Proof.
  intros Hnt Hp. unfold nameTest, PrefixOf, starts_with.
  destruct N as [|c N].
  - cbn [hasName String.eqb negb String.append]. rewrite Hp. reflexivity.
  - cbn [hasName String.eqb negb andb].
    rewrite string_app_assoc.
    change ("." ++ "newptr")%string with ".newptr".
    rewrite (prefix_app_noTail pat (String c N) ".newptr" Hnt). reflexivity.
Qed.

Lemma nameTest_vtable (N : string) :
  nameTest "vtable" (PrefixOf N ++ "newptr") = nameTest "vtable" N.
Proof. apply nameTest_newptr; reflexivity. Qed.

Lemma nameTest_vbase (N : string) :
  nameTest "vbase.offset" (PrefixOf N ++ "newptr") = nameTest "vbase.offset" N.
Proof. apply nameTest_newptr; reflexivity. Qed.

(** ** Look-ups after a rewrite *)

Lemma find_app {A : Type} (p : A -> bool) (a b : list A) :
  find p (a ++ b) = match find p a with Some x => Some x | None => find p b end.
Proof.
  induction a as [|x a IH]; cbn; [reflexivity|].
  destruct (p x); [reflexivity | exact IH].
Qed.

Lemma find_none_all {A : Type} (p : A -> bool) (l : list A) :
  (forall z, In z l -> p z = false) -> find p l = None.
Proof.
  intros H. induction l as [|x l IH]; cbn; [reflexivity|].
  rewrite (H x) by (left; reflexivity). apply IH.
  intros z Hz. apply H. right. exact Hz.
Qed.

Lemma find_insertIn (p : Instruction -> bool) (ip : InstId)
    (new l : list Instruction) :
  (forall e, In e new -> p e = false) ->
  find p (insertIn ip new l) = find p l.
Proof.
  intros H. induction l as [|x l IH]; cbn; [reflexivity|].
  destruct (Nat.eqb (iid x) ip).
  - rewrite find_app, (find_none_all p new H). reflexivity.
  - cbn. rewrite IH. reflexivity.
Qed.

Lemma find_map_iid (r : Instruction -> Instruction) (j : InstId)
    (l : list Instruction) :
  (forall y, iid (r y) = iid y) ->
  find (fun z => Nat.eqb (iid z) j) (map r l) =
  option_map r (find (fun z => Nat.eqb (iid z) j) l).
Proof.
  intros H. induction l as [|x l IH]; cbn; [reflexivity|].
  rewrite H. destruct (Nat.eqb (iid x) j); [reflexivity | exact IH].
Qed.

Lemma iid_retarget (Us : list InstId) (g : InstId) (to : Value) (y : Instruction) :
  iid (retarget Us g to y) = iid y.
Proof. unfold retarget. destruct (existsb (Nat.eqb (iid y)) Us); reflexivity. Qed.

Lemma iname_retarget (Us : list InstId) (g : InstId) (to : Value) (y : Instruction) :
  iname (retarget Us g to y) = iname y.
Proof. unfold retarget. destruct (existsb (Nat.eqb (iid y)) Us); reflexivity. Qed.

Lemma isGEP_retarget (Us : list InstId) (g : InstId) (to : Value) (y : Instruction) :
  isGEP (retarget Us g to y) = isGEP y.
Proof.
  unfold retarget, isGEP. destruct (existsb (Nat.eqb (iid y)) Us); [|reflexivity].
  cbn. destruct (ikind y); reflexivity.
Qed.

(** An instruction allocated before the rewrite is found afterwards, with
    the users' operands redirected. *)
Lemma lookupInst_rewritten (F : Function) (Us : list InstId) (g ip : InstId)
    (to : Value) (new : list Instruction) (j : InstId) :
  (forall e, In e new -> iid e <> j) ->
  lookupInst (mapInsts (retarget Us g to) (insertBefore ip new F)) j =
  option_map (retarget Us g to) (lookupInst F j).
Proof.
  intros H. unfold lookupInst. rewrite instructions_mapInsts.
  rewrite (find_map_iid _ _ _ (iid_retarget Us g to)). f_equal.
  rewrite instructions_insertBefore. unfold instructions.
  induction (blocks F) as [|b bs IH]; cbn; [reflexivity|].
  rewrite !find_app, IH, find_insertIn; [reflexivity|].
  intros e He. apply Nat.eqb_neq, H, He.
Qed.

Lemma map_substValue_noop (g : InstId) (to : Value) (l : list Value) :
  ~ In (VInst g) l -> map (substValue g to) l = l.
Proof.
  intros H. rewrite <- (map_id l) at 2. apply map_ext_in. intros v Hv.
  unfold substValue. destruct v as [i| | |]; cbn; try reflexivity.
  destruct (Nat.eqb_spec i g) as [-> | _]; [contradiction | reflexivity].
Qed.

Lemma substValue_noop (g : InstId) (to v : Value) :
  v <> VInst g -> substValue g to v = v.
Proof.
  intros H. unfold substValue. destruct v as [i| | |]; cbn; try reflexivity.
  destruct (Nat.eqb_spec i g) as [-> | _]; [congruence | reflexivity].
Qed.

Lemma substInst_noop (g : InstId) (to : Value) (y : Instruction) :
  ~ In (VInst g) (operands (ikind y)) -> substInst g to y = y.
Proof.
  intros H. destruct y as [i n k]. unfold substInst. cbn in *. f_equal.
  destruct k as [base idxs vec | inc | args nd ud | d | v | v | op l r | t ops ss];
    cbn in *.
  - rewrite substValue_noop by (intros E; apply H; left; exact E).
    f_equal. rewrite <- (map_id idxs) at 2. apply map_ext_in.
    intros ix Hix. destruct ix as [v sz | f off]; [|reflexivity]. cbn.
    rewrite substValue_noop; [reflexivity|].
    intros E. apply H. right. apply in_map_iff.
    exists (SeqIndex v sz). split; [exact E | exact Hix].
  - f_equal. rewrite <- (map_id inc) at 2. apply map_ext_in.
    intros [v b] Hv. cbn. rewrite substValue_noop; [reflexivity|].
    intros E. apply H. apply in_map_iff. exists (v, b). split; [exact E | exact Hv].
  - rewrite map_substValue_noop by exact H. reflexivity.
  - reflexivity.
  - rewrite substValue_noop by (intros E; apply H; left; exact E). reflexivity.
  - rewrite substValue_noop by (intros E; apply H; left; exact E). reflexivity.
  - rewrite !substValue_noop; [reflexivity | |];
      intros E; apply H; [right; left | left]; exact E.
  - rewrite map_substValue_noop by exact H. reflexivity.
Qed.

(** On the instructions the function held before, redirecting the users is
    substituting everywhere. *)
Lemma retarget_old (F : Function) (g : InstId) (to : Value) (y : Instruction) :
  In y (instructions F) ->
  retarget (users F g) g to y = substInst g to y.
Proof.
  intros Hy. unfold retarget.
  destruct (existsb (Nat.eqb (iid y)) (users F g)) eqn:E; [reflexivity|].
  symmetry. apply substInst_noop. intros Hv.
  assert (In (iid y) (users F g)).
  { apply In_users. exists y. repeat split; assumption. }
  apply existsb_eqb_In in H. congruence.
Qed.

(** ** The skip tests are stable under a rewrite *)

Lemma find_unique {A : Type} (p : A -> bool) (l : list A) (a : A) :
  In a l -> p a = true -> (forall z, In z l -> p z = true -> z = a) ->
  find p l = Some a.
Proof.
  intros Ha Hp Hu. destruct (find p l) as [z|] eqn:E.
  - apply find_some in E. destruct E as [Hz Hpz]. f_equal. apply Hu; assumption.
  - pose proof (find_none _ _ E a Ha). congruence.
Qed.

Lemma wfNew_id_inj (n : InstId) (l : list Instruction) (a b : Instruction) :
  wfNew n l -> In a l -> In b l -> iid a = iid b -> a = b.
Proof.
  revert n. induction l as [|y l IH]; intros n Hw Ha Hb E; [destruct Ha|].
  cbn in Hw. destruct Hw as (Hy & _ & _ & Hw).
  destruct Ha as [<- | Ha], Hb as [<- | Hb].
  - reflexivity.
  - destruct (wfNew_In _ _ b Hw Hb) as (H & _). lia.
  - destruct (wfNew_In _ _ a Hw Ha) as (H & _). lia.
  - apply (IH (S n)); assumption.
Qed.

Lemma isArith_not_GEP (y : Instruction) : isArith y = true -> isGEP y = false.
Proof. unfold isArith, isGEP. destruct (ikind y); try discriminate; reflexivity. Qed.

Lemma hasAllZeroIndices_subst (g n : InstId) (to : Value) (idxs : list GepIndex) :
  to = VInst n ->
  hasAllZeroIndices (map (substIndex g to) idxs) = hasAllZeroIndices idxs.
Proof.
  intros ->. unfold hasAllZeroIndices. induction idxs as [|ix idxs IH]; [reflexivity|].
  cbn [map forallb]. rewrite IH. f_equal.
  destruct ix as [v sz | f off]; [|reflexivity]. cbn. unfold substValue.
  destruct (isInstRef g v) eqn:E; [|reflexivity].
  destruct v; try discriminate E. reflexivity.
Qed.

Lemma indexOperand_substIndex (g : InstId) (to : Value) (ix : GepIndex) :
  indexOperand (substIndex g to ix) = substValue g to (indexOperand ix).
Proof. destruct ix; reflexivity. Qed.

Lemma filter_none {A : Type} (p : A -> bool) (l : list A) :
  (forall e, In e l -> p e = false) -> filter p l = [].
Proof.
  intros H. induction l as [|e l IH]; [reflexivity|].
  cbn. rewrite (H e) by (left; reflexivity).
  apply IH. intros z Hz. apply H. right. exact Hz.
Qed.

Lemma collect_map (r : Instruction -> Instruction) (l : list Instruction) :
  (forall y, isGEP (r y) = isGEP y) -> (forall y, iid (r y) = iid y) ->
  map iid (filter isGEP (map r l)) = map iid (filter isGEP l).
Proof.
  intros H1 H2. induction l as [|y l IH]; [reflexivity|].
  cbn. rewrite H1. destruct (isGEP y); cbn; [rewrite H2, IH|]; [reflexivity | exact IH].
Qed.

Section Rewritten.

Variables (F : Function) (g ip : InstId) (x : Instruction)
          (base : Value) (idxs : list GepIndex) (vec : bool)
          (NP : Value) (B : Builder).

Hypothesis Hx : lookupInst F g = Some x.
Hypothesis Hk : ikind x = GetElementPtr base idxs vec.
Hypothesis Hip : getInsertPointAfter F g = Some (F, ip).
Hypothesis HE :
  emitTagging g (iname x) idxs (mkBuilder (freshInst F) []) = (NP, B).

Let F' : Function :=
  mapInsts (retarget (users F g) g NP) (insertBefore ip (emitted B) F).

Let newptr : Instruction :=
  mkInst (freshInst F + List.length (emitted B) - 1)
         (PrefixOf (iname x) ++ "newptr")%string
         (IntToPtr (VInst (freshInst F + List.length (emitted B) - 2))).

Lemma rewritten_facts :
  wfNew (freshInst F) (emitted B) /\
  7 <= List.length (emitted B) /\
  NP = VInst (iid newptr) /\
  In newptr (emitted B).
Proof.
  pose proof (gep_indices_inScope F g x base idxs vec Hx Hk) as Hsc.
  destruct (emitTagging_wf g (iname x) idxs (freshInst F) NP B
              (lookupInst_fresh F g x Hx) Hsc HE) as (Hw & Hlen & HNP & _).
  destruct (emitTagging_shape g (iname x) idxs (freshInst F) NP B Hsc HE)
    as (mid & Shifted & Hem & _ & _ & _ & _).
  cbv zeta in Hem.
  split; [exact Hw|]. split; [exact Hlen|]. split; [exact HNP|].
  rewrite Hem at 1. apply in_or_app. right. apply in_or_app. right.
  unfold taggingTail. right. right. left. unfold newptr.
  rewrite Hem, !length_app. cbn [List.length taggingHead taggingTail].
  f_equal; [lia|]. f_equal. f_equal. lia.
Qed.

Lemma new_ids_fresh (e : Instruction) :
  In e (emitted B) -> freshInst F <= iid e.
Proof.
  intros He. destruct rewritten_facts as (Hw & _).
  destruct (wfNew_In _ _ e Hw He) as (H & _). lia.
Qed.

Lemma ip_in_function :
  exists b, In b (blocks F) /\ In ip (map iid (insts b)).
Proof.
  destruct (getInsertPointAfter_GEP F F g ip x base idxs vec Hx Hk Hip)
    as (_ & b & Hb & Hn).
  exists b. split; [apply getParent_In with g, Hb | apply nextIn_In with g, Hn].
Qed.

Lemma lookupInst_old (j : InstId) :
  j < freshInst F ->
  lookupInst F' j = option_map (retarget (users F g) g NP) (lookupInst F j).
Proof.
  intros Hj. apply lookupInst_rewritten.
  intros e He. apply new_ids_fresh in He. lia.
Qed.

Lemma In_rewritten (z : Instruction) :
  In z (instructions F') ->
  (exists y, In y (instructions F) /\ z = substInst g NP y) \/
  In z (emitted B).
Proof.
  unfold F'. rewrite instructions_mapInsts. intros Hz.
  apply in_map_iff in Hz. destruct Hz as (y & <- & Hy).
  apply In_insertBefore in Hy. destruct Hy as [Hy | Hy].
  - left. exists y. split; [exact Hy | apply retarget_old, Hy].
  - right. rewrite retarget_new by (apply new_ids_fresh, Hy). exact Hy.
Qed.

Lemma lookupInst_newptr : lookupInst F' (iid newptr) = Some newptr.
Proof.
  destruct rewritten_facts as (Hw & Hlen & _ & Hin).
  unfold lookupInst. apply find_unique.
  - unfold F'. rewrite instructions_mapInsts. apply in_map_iff.
    exists newptr. split.
    + apply retarget_new, new_ids_fresh, Hin.
    + destruct ip_in_function as (b & Hb & Hipb).
      apply (In_insertBefore_new ip (emitted B) F b); assumption.
  - apply Nat.eqb_refl.
  - intros z Hz Ez. apply Nat.eqb_eq in Ez.
    apply In_rewritten in Hz. destruct Hz as [(y & Hy & ->) | Hz].
    + exfalso. cbn in Ez. apply freshInst_above_id in Hy.
      pose proof (new_ids_fresh newptr Hin). lia.
    + apply (wfNew_id_inj _ _ z newptr Hw Hz Hin Ez).
Qed.

Lemma getName_subst (pat : string) (v : Value) :
  noTail pat ".newptr" = true ->
  String.prefix pat "newptr" = false ->
  inScope (freshInst F) v ->
  nameTest pat (getName F' (substValue g NP v)) = nameTest pat (getName F v).
Proof.
  intros Hnt Hp Hv. destruct rewritten_facts as (_ & _ & HNP & _).
  destruct v as [i | n | s | z]; try reflexivity.
  unfold substValue. cbn [isInstRef].
  destruct (Nat.eqb_spec i g) as [-> | Hne].
  - rewrite HNP. cbn [getName]. rewrite lookupInst_newptr, Hx.
    cbn [iname newptr]. apply nameTest_newptr; assumption.
  - cbn [getName]. unfold inScope in Hv. cbn in Hv.
    rewrite lookupInst_old by lia.
    destruct (lookupInst F i) as [y|]; [|reflexivity].
    cbn [option_map]. rewrite iname_retarget. reflexivity.
Qed.

Lemma isGlobal_subst (v : Value) :
  isGlobalVariable (substValue g NP v) &&
    starts_with (getName F' (substValue g NP v)) "_ZTV" =
  isGlobalVariable v && starts_with (getName F v) "_ZTV".
Proof.
  destruct rewritten_facts as (_ & _ & HNP & _).
  destruct v as [i | n | s | z]; try reflexivity.
  unfold substValue. cbn [isInstRef].
  destruct (Nat.eqb i g); [rewrite HNP|]; reflexivity.
Qed.

Lemma skipped_subst (b0 : Value) (ixs : list GepIndex) (v0 : bool) :
  inScope (freshInst F) b0 ->
  Forall (fun ix => inScope (freshInst F) (indexOperand ix)) ixs ->
  skipped F' (substValue g NP b0) (map (substIndex g NP) ixs) v0 =
  skipped F b0 ixs v0.
Proof.
  intros Hb Hixs. destruct rewritten_facts as (_ & _ & HNP & _).
  unfold skipped. rewrite (hasAllZeroIndices_subst g _ NP ixs HNP).
  destruct (hasAllZeroIndices ixs); [reflexivity|].
  assert (Hv : isVtableGep F' (substValue g NP b0) (map (substIndex g NP) ixs) =
               isVtableGep F b0 ixs).
  { unfold isVtableGep.
    change (hasName (getName F' (substValue g NP b0)) &&
            starts_with (getName F' (substValue g NP b0)) "vtable")
      with (nameTest "vtable" (getName F' (substValue g NP b0))).
    change (hasName (getName F b0) && starts_with (getName F b0) "vtable")
      with (nameTest "vtable" (getName F b0)).
    rewrite (getName_subst "vtable" b0) by (reflexivity || exact Hb).
    destruct (nameTest "vtable" (getName F b0)); [reflexivity|].
    rewrite isGlobal_subst.
    destruct ixs as [|ix [|ix2 r]]; cbn [map]; try reflexivity.
    rewrite indexOperand_substIndex.
    change (hasName (getName F' (substValue g NP (indexOperand ix))) &&
            starts_with (getName F' (substValue g NP (indexOperand ix))) "vbase.offset")
      with (nameTest "vbase.offset" (getName F' (substValue g NP (indexOperand ix)))).
    rewrite (getName_subst "vbase.offset" (indexOperand ix));
      [reflexivity | reflexivity | reflexivity |].
    inversion Hixs; assumption. }
  rewrite Hv. reflexivity.
Qed.

Lemma qualifies_subst (y : Instruction) :
  In y (instructions F) ->
  qualifies F' (substInst g NP y) = qualifies F y.
Proof.
  intros Hy. unfold qualifies, substInst. cbn [ikind].
  destruct (ikind y) as [b0 ixs v0 | | | | | | | ] eqn:Ky; try reflexivity.
  cbn [substKind]. f_equal. apply skipped_subst.
  - apply (operand_inScope F y); [exact Hy|]. rewrite Ky. left. reflexivity.
  - apply Forall_forall. intros ix Hix.
    apply (operand_inScope F y); [exact Hy|]. rewrite Ky. right.
    apply in_map, Hix.
Qed.

(** Which snapshot entries rewrite is the same before and after. *)
Lemma rewritten_stable (j : InstId) : rewritten F' j = rewritten F j.
Proof.
  unfold rewritten. destruct (Nat.lt_ge_cases j (freshInst F)) as [Hj | Hj].
  - rewrite lookupInst_old by exact Hj.
    destruct (lookupInst F j) as [y|] eqn:Ey; [|reflexivity].
    cbn [option_map]. apply lookupInst_In in Ey. destruct Ey as [Hy _].
    rewrite retarget_old by exact Hy. apply qualifies_subst, Hy.
  - assert (HN : lookupInst F j = None).
    { destruct (lookupInst F j) as [y|] eqn:Ey; [|reflexivity].
      apply lookupInst_fresh in Ey. lia. }
    rewrite HN. destruct (lookupInst F' j) as [z|] eqn:Ez; [|reflexivity].
    apply lookupInst_In in Ez. destruct Ez as [Hz Hid].
    apply In_rewritten in Hz. destruct Hz as [(y & Hy & ->) | Hz].
    + cbn in Hid. apply freshInst_above_id in Hy. lia.
    + destruct rewritten_facts as (Hw & _).
      destruct (wfNew_In _ _ z Hw Hz) as (_ & Ha & _).
      unfold qualifies. unfold isArith in Ha.
      destruct (ikind z); try discriminate Ha; reflexivity.
Qed.

Lemma filter_isGEP_insertIn (l : list Instruction) :
  filter isGEP (insertIn ip (emitted B) l) = filter isGEP l.
Proof.
  assert (Hn : filter isGEP (emitted B) = []).
  { apply filter_none. intros e He. destruct rewritten_facts as (Hw & _).
    destruct (wfNew_In _ _ e Hw He) as (_ & Ha & _).
    apply isArith_not_GEP, Ha. }
  induction l as [|y l IH]; cbn; [reflexivity|].
  destruct (Nat.eqb (iid y) ip).
  - rewrite filter_app, Hn. reflexivity.
  - cbn. rewrite IH. reflexivity.
Qed.

(** The candidates of a later snapshot are those of this one. *)
Lemma collectGEPs_stable : collectGEPs F' = collectGEPs F.
Proof.
  unfold collectGEPs, F'. rewrite instructions_mapInsts.
  rewrite collect_map by
    (intros; apply isGEP_retarget || apply iid_retarget).
  f_equal. rewrite instructions_insertBefore. unfold instructions.
  induction (blocks F) as [|b bs IH]; [reflexivity|].
  cbn [flat_map]. rewrite !filter_app, IH, filter_isGEP_insertIn. reflexivity.
Qed.

Lemma length_insertIn (l : list Instruction) :
  List.length l <= List.length (insertIn ip (emitted B) l) /\
  (In ip (map iid l) ->
   List.length l + List.length (emitted B) <=
   List.length (insertIn ip (emitted B) l)).
Proof.
  induction l as [|y l [IH1 IH2]]; cbn; [split; [lia | tauto]|].
  destruct (Nat.eqb_spec (iid y) ip) as [E | NE].
  - rewrite length_app. cbn. lia.
  - cbn. split; [lia|]. intros [H | H]; [contradiction|].
    specialize (IH2 H). lia.
Qed.

(** The rewrite adds the emitted sequence, seven instructions at least. *)
Lemma length_rewritten :
  List.length (instructions F) + 7 <= List.length (instructions F').
Proof.
  destruct rewritten_facts as (_ & Hlen & _).
  destruct ip_in_function as (b0 & Hb0 & Hipb).
  unfold F'. rewrite instructions_mapInsts, length_map, instructions_insertBefore.
  unfold instructions. apply in_split in Hb0. destruct Hb0 as (l1 & l2 & ->).
  rewrite !flat_map_app, !length_app. cbn [flat_map]. rewrite !length_app.
  assert (H1 : forall bs, List.length (flat_map insts bs) <=
            List.length (flat_map (fun b => insertIn ip (emitted B) (insts b)) bs)).
  { induction bs as [|b bs IH]; cbn; [lia|]. rewrite !length_app.
    pose proof (proj1 (length_insertIn (insts b))). lia. }
  pose proof (H1 l1). pose proof (H1 l2).
  pose proof (proj2 (length_insertIn (insts b0)) Hipb). lia.
Qed.

End Rewritten.

(** ** A run, and a second run *)

Lemma rewritten_false_noop (F : Function) (g : InstId) :
  rewritten F g = false -> rewriteGEP F g = Some F.
Proof.
  unfold rewritten, rewriteGEP, qualifies.
  destruct (lookupInst F g) as [x|]; [|reflexivity].
  destruct (ikind x); try reflexivity.
  destruct (skipped F base indices isVectorTy); [reflexivity | discriminate].
Qed.

(** One iteration keeps the candidates, keeps which of them rewrite, and adds
    seven instructions at least when it rewrites. *)
Lemma rewriteGEP_step (F F' : Function) (g : InstId) :
  rewriteGEP F g = Some F' ->
  collectGEPs F' = collectGEPs F /\
  (forall j, rewritten F' j = rewritten F j) /\
  List.length (instructions F) + (if rewritten F g then 7 else 0) <=
    List.length (instructions F').
Proof.
  intros H. destruct (rewritten F g) eqn:ER.
  2:{ rewrite (rewritten_false_noop F g ER) in H. injection H as <-.
      repeat split. lia. }
  unfold rewritten, qualifies in ER.
  destruct (lookupInst F g) as [x|] eqn:Hx; [|discriminate].
  destruct (ikind x) as [base idxs vec | | | | | | | ] eqn:Hk; try discriminate.
  apply negb_true_iff in ER.
  destruct (getInsertPointAfter F g) as [[F1 ip]|] eqn:Hip.
  2:{ unfold rewriteGEP in H. rewrite Hx, Hk, ER, Hip in H. discriminate. }
  rewrite (rewriteGEP_rewrites F F1 g ip x base idxs vec Hx Hk ER Hip) in H.
  injection H as <-.
  destruct (getInsertPointAfter_GEP F F1 g ip x base idxs vec Hx Hk Hip) as [-> _].
  assert (HE : emitTagging g (iname x) idxs (mkBuilder (freshInst F) []) =
               (fst (emitTagging g (iname x) idxs (mkBuilder (freshInst F) [])),
                snd (emitTagging g (iname x) idxs (mkBuilder (freshInst F) []))))
    by apply surjective_pairing.
  split; [|split].
  - eapply collectGEPs_stable; eassumption.
  - intros j. eapply rewritten_stable; eassumption.
  - eapply length_rewritten; eassumption.
Qed.

Lemma fold_rewriteGEP_None (l : list InstId) :
  fold_left (fun acc GEP => match acc with
                            | Some F' => rewriteGEP F' GEP
                            | None => None
                            end) l None = None.
Proof. induction l as [|g l IH]; [reflexivity | exact IH]. Qed.

Lemma fold_rewriteGEP (l : list InstId) :
  forall F0 Fend : Function,
    fold_left (fun acc GEP => match acc with
                              | Some F' => rewriteGEP F' GEP
                              | None => None
                              end) l (Some F0) = Some Fend ->
    collectGEPs Fend = collectGEPs F0 /\
    (forall j, rewritten Fend j = rewritten F0 j) /\
    List.length (instructions F0) + 7 * List.length (filter (rewritten F0) l) <=
      List.length (instructions Fend) /\
    (filter (rewritten F0) l = [] -> Fend = F0).
Proof.
  induction l as [|g l IH]; intros F0 Fend H.
  - cbn in H. injection H as <-. cbn. repeat split. lia.
  - cbn [fold_left] in H.
    destruct (rewriteGEP F0 g) as [Fm|] eqn:Eg;
      [|rewrite fold_rewriteGEP_None in H; discriminate].
    destruct (rewriteGEP_step F0 Fm g Eg) as (C1 & R1 & L1).
    destruct (IH Fm Fend H) as (C2 & R2 & L2 & N2).
    assert (Hf : filter (rewritten Fm) l = filter (rewritten F0) l)
      by (apply filter_ext, R1).
    rewrite Hf in L2, N2.
    split; [congruence|]. split; [intros j; rewrite R2; apply R1|].
    cbn [filter]. destruct (rewritten F0 g) eqn:ER.
    + split; [cbn [List.length]; lia | discriminate].
    + split; [lia|]. intros Hn. rewrite (rewritten_false_noop F0 g ER) in Eg.
      injection Eg as <-. apply N2, Hn.
Qed.

(** C3, as the code has it -- Candidacy is not idempotent.  A run keeps no
    record of what it rewrote and deletes nothing, so a second run takes the
    same snapshot of pointer-arithmetic instructions as the first, the same
    entries of it pass the skip tests, and the second run rewrites each of
    them again: like the first, it adds at least seven instructions for every
    such entry.  A run rewrites nothing only where no entry of the snapshot
    passes the tests. *)
Theorem second_run_rewrites_again (F F1 F2 : Function) :
  runOnFunc F = Some F1 ->
  runOnFunc F1 = Some F2 ->
  collectGEPs F1 = collectGEPs F /\
  rewriteCount F1 = rewriteCount F /\
  List.length (instructions F) + 7 * rewriteCount F <=
    List.length (instructions F1) /\
  List.length (instructions F1) + 7 * rewriteCount F <=
    List.length (instructions F2) /\
  (rewriteCount F = 0 -> F1 = F /\ F2 = F).
Proof.
  unfold runOnFunc. intros H1 H2.
  destruct (fold_rewriteGEP _ F F1 H1) as (C1 & R1 & L1 & N1).
  destruct (fold_rewriteGEP _ F1 F2 H2) as (C2 & R2 & L2 & N2).
  assert (HC : rewriteCount F1 = rewriteCount F).
  { unfold rewriteCount. rewrite C1. f_equal. apply filter_ext, R1. }
  split; [exact C1|]. split; [exact HC|]. split; [exact L1|].
  split; [fold (rewriteCount F1) in L2; rewrite HC in L2; exact L2|].
  intros H0.
  assert (E1 : F1 = F).
  { apply N1. fold (rewriteCount F) in L1. unfold rewriteCount in H0.
    destruct (filter (rewritten F) (collectGEPs F)); [reflexivity | discriminate]. }
  split; [exact E1|]. transitivity F1; [|exact E1]. apply N2.
  rewrite <- HC in H0. unfold rewriteCount in H0.
  destruct (filter (rewritten F1) (collectGEPs F1)); [reflexivity | discriminate].
Qed.

Lemma second_run_rewrites_again_witness :
  exists F1 F2,
    runOnFunc sampleFunction = Some F1 /\
    runOnFunc F1 = Some F2 /\
    rewriteCount F1 = 1 /\
    List.length (instructions sampleFunction) + 7 <= List.length (instructions F1) /\
    List.length (instructions F1) + 7 <= List.length (instructions F2).
Proof.
  destruct (runOnFunc sampleFunction) as [F1|] eqn:E1; [|discriminate E1].
  destruct (runOnFunc F1) as [F2|] eqn:E2.
  - exists F1, F2.
    destruct (second_run_rewrites_again sampleFunction F1 F2 E1 E2)
      as (_ & HC & L1 & L2 & _).
    change (rewriteCount sampleFunction) with 1 in *.
    repeat split; try assumption; lia.
  - exfalso. vm_compute in E1. injection E1 as <-. vm_compute in E2. discriminate E2.
Defined.

(** The second run over [sampleFunction] is not the identity: it finds the
    one candidate again and inserts a second tagging sequence in front of the
    first, whose pointer-to-integer cast now reads the second [NewPtr]. *)
Lemma second_run_not_idempotent :
  exists F1 F2,
    runOnFunc sampleFunction = Some F1 /\
    runOnFunc F1 = Some F2 /\
    F2 <> F1 /\
    List.length (instructions F1) = 10 /\
    List.length (instructions F2) = 17 /\
    lookupInst F1 4 = Some (mkInst 4 "p.int" (PtrToInt (VInst 1))) /\
    lookupInst F2 4 = Some (mkInst 4 "p.int" (PtrToInt (VInst 17))) /\
    lookupInst F2 17 = Some (mkInst 17 "p.newptr" (IntToPtr (VInst 16))) /\
    run [sampleFunction] = Some [F1] /\
    run [F1] = Some [F2].
Proof.
  eexists. eexists.
  split; [vm_compute; reflexivity|].
  split; [vm_compute; reflexivity|].
  split; [intros E; apply (f_equal (fun G => List.length (instructions G))) in E;
          vm_compute in E; discriminate E|].
  repeat split; vm_compute; reflexivity.
Qed.

(** ** What the tag leaves alone, and what it accumulates *)

Local Open Scope Z_scope.

Lemma shifted_offset_multiple (d : Z) :
  wrap64 (Z.shiftl d 49) = 2 ^ 49 * (d mod 2 ^ 15).
Proof.
  unfold wrap64. rewrite Z.shiftl_mul_pow2 by lia.
  change (2 ^ 64) with (2 ^ 49 * 2 ^ 15).
  rewrite (Z.mul_comm d). apply Z.mul_mod_distr_l; lia.
Qed.

(** The value of [NewPtr]: the 15-bit field above the flag bit gets the
    offset added when the flag is set, and nothing else changes. *)
Lemma tagged_value (p d : Z) :
  0 <= p < 2 ^ 64 ->
  wrap64 (p + Z.land (wrap64 (Z.shiftl d 49))
                     (if Z.testbit p 48 then 2 ^ 64 - 1 else 0)) =
  p mod 2 ^ 49 +
  2 ^ 49 * ((p / 2 ^ 49 + (if Z.testbit p 48 then d else 0)) mod 2 ^ 15).
Proof.
  intros Hp.
  assert (E : Z.land (wrap64 (Z.shiftl d 49))
                     (if Z.testbit p 48 then 2 ^ 64 - 1 else 0) =
              2 ^ 49 * ((if Z.testbit p 48 then d else 0) mod 2 ^ 15)).
  { destruct (Z.testbit p 48).
    - rewrite land_all_ones, wrap64_idem. apply shifted_offset_multiple.
    - rewrite Z.land_0_r. reflexivity. }
  rewrite E. clear E. unfold wrap64.
  set (k := (if Z.testbit p 48 then d else 0)).
  change (2 ^ 64) with (2 ^ 49 * 2 ^ 15).
  rewrite Z.rem_mul_r by lia.
  replace (p + 2 ^ 49 * (k mod 2 ^ 15)) with (p + (k mod 2 ^ 15) * 2 ^ 49) by lia.
  rewrite Z.mod_add by lia. rewrite Z.div_add by lia.
  rewrite Zplus_mod_idemp_r. reflexivity.
Qed.

(** X1 -- The tag never touches the low 49 bits.  Whatever the indices of the
    instruction and whatever the flag bit, the emitted sequence executes and
    [NewPtr] agrees with the pointer on bits 0 to 48: the 48 address bits and
    the flag bit itself are preserved, so a tagged pointer stays tagged. *)
Theorem tag_preserves_low_bits (F : Function) (GEP : InstId) (x : Instruction)
    (base : Value) (idxs : list GepIndex) (vec : bool) (env : Env) :
  lookupInst F GEP = Some x ->
  ikind x = GetElementPtr base idxs vec ->
  0 <= instVal env GEP < 2 ^ 64 ->
  exists env',
    exec env (emitted (snd (emitTagging GEP (iname x) idxs
                              (mkBuilder (freshInst F) [])))) = Some env' /\
    let v := valueOf env' (fst (emitTagging GEP (iname x) idxs
                                  (mkBuilder (freshInst F) []))) in
    v mod 2 ^ 49 = instVal env GEP mod 2 ^ 49 /\
    (forall k, 0 <= k < 49 -> Z.testbit v k = Z.testbit (instVal env GEP) k) /\
    0 <= v < 2 ^ 64.
Proof.
  intros Hx _ Hp.
  destruct (emitTagging GEP (iname x) idxs (mkBuilder (freshInst F) []))
    as [NewPtr B] eqn:E.
  destruct (emitTagging_value GEP (iname x) idxs (freshInst F) env NewPtr B
              (lookupInst_fresh F GEP x Hx) E) as (env' & d & He & Hv & _).
  exists env'. split; [exact He|]. cbn [fst]. cbv zeta.
  assert (Hm : valueOf env' NewPtr mod 2 ^ 49 = instVal env GEP mod 2 ^ 49).
  { rewrite Hv, (tagged_value _ d Hp).
    match goal with |- (?a + 2 ^ 49 * ?K) mod _ = _ =>
      replace (a + 2 ^ 49 * K) with (a + K * 2 ^ 49) by lia end.
    rewrite Z.mod_add by lia. apply Z.mod_mod. lia. }
  split; [exact Hm|]. split.
  - intros k Hk.
    rewrite <- (Z.mod_pow2_bits_low (valueOf env' NewPtr) 49 k) by lia.
    rewrite Hm. apply Z.mod_pow2_bits_low. lia.
  - rewrite Hv. apply wrap64_range.
Qed.

Lemma tag_preserves_low_bits_witness :
  exists env',
    exec (sampleEnv (2 ^ 48 + 4096))
         (emitted (snd (emitTagging 1%nat (iname sampleGEP)
                          [SeqIndex (VConstInt (-1)) 4]
                          (mkBuilder (freshInst sampleFunction) [])))) = Some env' /\
    Z.testbit (valueOf env' (fst (emitTagging 1%nat (iname sampleGEP)
                         [SeqIndex (VConstInt (-1)) 4]
                         (mkBuilder (freshInst sampleFunction) [])))) 48 = true.
Proof.
  destruct (tag_preserves_low_bits sampleFunction 1%nat sampleGEP (VArg 0)
              [SeqIndex (VConstInt (-1)) 4] false (sampleEnv (2 ^ 48 + 4096))
              eq_refl eq_refl) as (env' & He & _ & Hb & _).
  - cbn. lia.
  - exists env'. split; [exact He|]. rewrite Hb by lia. reflexivity.
Defined.

(** X2 -- The tag field is a 15-bit accumulator.  With the flag bit set and
    the offset folded to the constant [o], [NewPtr] keeps the low 49 bits of
    the pointer and holds in bits 49 to 63 the old field plus [o], modulo
    2^15: only the low 15 bits of the offset are embedded, and a carry out of
    bit 63 is lost. *)
Theorem tag_field_accumulates (F : Function) (GEP : InstId) (x : Instruction)
    (base : Value) (idxs : list GepIndex) (vec : bool) (o : Z) (env : Env) :
  lookupInst F GEP = Some x ->
  ikind x = GetElementPtr base idxs vec ->
  accumulateConstantOffset idxs 0 = Some o ->
  0 <= instVal env GEP < 2 ^ 64 ->
  Z.testbit (instVal env GEP) 48 = true ->
  exists env',
    exec env (emitted (snd (emitTagging GEP (iname x) idxs
                              (mkBuilder (freshInst F) [])))) = Some env' /\
    let v := valueOf env' (fst (emitTagging GEP (iname x) idxs
                                  (mkBuilder (freshInst F) []))) in
    v = instVal env GEP mod 2 ^ 49 +
        2 ^ 49 * ((instVal env GEP / 2 ^ 49 + o) mod 2 ^ 15) /\
    v / 2 ^ 49 = (instVal env GEP / 2 ^ 49 + o mod 2 ^ 15) mod 2 ^ 15.
Proof.
  intros Hx _ Ho Hp Hbit.
  destruct (emitTagging GEP (iname x) idxs (mkBuilder (freshInst F) []))
    as [NewPtr B] eqn:E.
  destruct (emitTagging_value GEP (iname x) idxs (freshInst F) env NewPtr B
              (lookupInst_fresh F GEP x Hx) E) as (env' & d & He & Hv & Hd).
  exists env'. split; [exact He|]. cbn [fst]. cbv zeta.
  assert (Hval : valueOf env' NewPtr =
                 instVal env GEP mod 2 ^ 49 +
                 2 ^ 49 * ((instVal env GEP / 2 ^ 49 + o) mod 2 ^ 15)).
  { rewrite Hv, (tagged_value _ d Hp), Hbit, (Hd o Ho). f_equal. f_equal.
    unfold constValue, wrap64.
    rewrite <- (Zplus_mod_idemp_r (o mod 2 ^ 64)).
    change (2 ^ 64) with (2 ^ 15 * 2 ^ 49).
    rewrite Z.rem_mul_r by lia.
    rewrite (Z.mul_comm (2 ^ 15)), Z.mod_add by lia.
    rewrite Z.mod_mod by lia. rewrite Zplus_mod_idemp_r. reflexivity. }
  split; [exact Hval|].
  rewrite Hval.
  match goal with |- (?a + 2 ^ 49 * ?K) / _ = _ =>
    replace (a + 2 ^ 49 * K) with (a + K * 2 ^ 49) by lia end.
  rewrite Z.div_add by lia.
  rewrite Z.mod_div by lia. rewrite Z.add_0_l.
  rewrite Zplus_mod_idemp_r. reflexivity.
Qed.

Lemma tag_field_accumulates_witness :
  exists env',
    exec (sampleEnv (2 ^ 48 + 4096))
         (emitted (snd (emitTagging 1%nat (iname sampleGEP)
                          [SeqIndex (VConstInt (-1)) 4]
                          (mkBuilder (freshInst sampleFunction) [])))) = Some env' /\
    valueOf env' (fst (emitTagging 1%nat (iname sampleGEP)
                         [SeqIndex (VConstInt (-1)) 4]
                         (mkBuilder (freshInst sampleFunction) []))) / 2 ^ 49 =
    2 ^ 15 - 4.
Proof.
  destruct (tag_field_accumulates sampleFunction 1%nat sampleGEP (VArg 0)
              [SeqIndex (VConstInt (-1)) 4] false (2 ^ 64 - 4)
              (sampleEnv (2 ^ 48 + 4096)) eq_refl eq_refl eq_refl)
    as (env' & He & _ & Hd).
  - cbn. lia.
  - reflexivity.
  - exists env'. split; [exact He|]. rewrite Hd. reflexivity.
Defined.

Local Open Scope nat_scope.
Local Open Scope list_scope.

(** ** The run leaves the control-flow graph alone *)

Lemma rewriteGEP_cases (F F' : Function) (g : InstId) :
  rewriteGEP F g = Some F' ->
  F' = F \/
  exists x base idxs vec ip,
    lookupInst F g = Some x /\
    ikind x = GetElementPtr base idxs vec /\
    skipped F base idxs vec = false /\
    getInsertPointAfter F g = Some (F, ip) /\
    F' = mapInsts
           (retarget (users F g) g
              (fst (emitTagging g (iname x) idxs (mkBuilder (freshInst F) []))))
           (insertBefore ip
              (emitted (snd (emitTagging g (iname x) idxs
                               (mkBuilder (freshInst F) []))))
              F).
Proof.
  intros H. destruct (lookupInst F g) as [x|] eqn:Hx.
  2:{ unfold rewriteGEP in H. rewrite Hx in H. injection H as <-. left. reflexivity. }
  destruct (ikind x) as [base idxs vec | | | | | | | ] eqn:Hk;
    try (unfold rewriteGEP in H; rewrite Hx, Hk in H; injection H as <-;
         left; reflexivity).
  destruct (skipped F base idxs vec) eqn:Hs.
  { unfold rewriteGEP in H. rewrite Hx, Hk, Hs in H. injection H as <-.
    left. reflexivity. }
  destruct (getInsertPointAfter F g) as [[F1 ip]|] eqn:Hip.
  2:{ unfold rewriteGEP in H. rewrite Hx, Hk, Hs, Hip in H. discriminate. }
  rewrite (rewriteGEP_rewrites F F1 g ip x base idxs vec Hx Hk Hs Hip) in H.
  injection H as <-.
  destruct (getInsertPointAfter_GEP F F1 g ip x base idxs vec Hx Hk Hip) as [-> _].
  right. exists x, base, idxs, vec, ip. repeat split; assumption.
Qed.

Lemma lastInst_cons (x : Instruction) (l : list Instruction) :
  l <> [] -> lastInst (x :: l) = lastInst l.
Proof. destruct l; [congruence | reflexivity]. Qed.

Lemma lastInst_app_cons (a l : list Instruction) (x : Instruction) :
  lastInst (a ++ x :: l) = lastInst (x :: l).
Proof.
  induction a as [|y a IH]; [reflexivity|].
  cbn [app]. rewrite lastInst_cons; [exact IH|].
  destruct a; discriminate.
Qed.

Lemma lastInst_insertIn (ip : InstId) (new l : list Instruction) :
  lastInst (insertIn ip new l) = lastInst l.
Proof.
  induction l as [|x l IH]; [reflexivity|].
  cbn [insertIn]. destruct (Nat.eqb (iid x) ip).
  - apply lastInst_app_cons.
  - destruct l as [|y l]; [reflexivity|].
    change (lastInst (x :: y :: l)) with (lastInst (y :: l)).
    rewrite lastInst_cons; [exact IH|].
    cbn [insertIn]. destruct (Nat.eqb (iid y) ip); [|discriminate].
    destruct new; discriminate.
Qed.

Lemma successors_substKind (g : InstId) (to : Value) (k : InstKind) :
  successors (substKind g to k) = successors k.
Proof. destruct k; reflexivity. Qed.

Lemma successors_retarget (Us : list InstId) (g : InstId) (to : Value)
    (y : Instruction) :
  successors (ikind (retarget Us g to y)) = successors (ikind y).
Proof.
  unfold retarget. destruct (existsb (Nat.eqb (iid y)) Us); [|reflexivity].
  apply successors_substKind.
Qed.

Lemma blocks_rewritten (r : Instruction -> Instruction) (ip : InstId)
    (new : list Instruction) (F : Function) :
  blocks (mapInsts r (insertBefore ip new F)) =
  map (fun b => mkBlock (bid b) (bname b) (map r (insertIn ip new (insts b))))
      (blocks F).
Proof.
  unfold mapInsts, insertBefore, mapBlocks. cbn [blocks].
  rewrite map_map. reflexivity.
Qed.

Lemma sameCFG_refl (F : Function) : sameCFG F F.
Proof. repeat split. Qed.

Lemma sameCFG_trans (F1 F2 F3 : Function) :
  sameCFG F1 F2 -> sameCFG F2 F3 -> sameCFG F1 F3.
Proof.
  unfold sameCFG. intros (A1 & A2 & A3 & A4 & A5 & A6 & A7 & A8)
                         (B1 & B2 & B3 & B4 & B5 & B6 & B7 & B8).
  repeat split; congruence.
Qed.

Lemma sameCFG_rewritten (Us : list InstId) (g ip : InstId) (to : Value)
    (new : list Instruction) (F : Function) :
  sameCFG F (mapInsts (retarget Us g to) (insertBefore ip new F)).
Proof.
  unfold sameCFG. rewrite blocks_rewritten, !map_map. cbn [bid bname].
  repeat split.
  apply map_ext. intros b. unfold blockSuccessors. cbn [insts].
  rewrite lastInst_map, lastInst_insertIn.
  destruct (lastInst (insts b)) as [t|]; [|reflexivity].
  apply successors_retarget.
Qed.

Lemma rewriteGEP_sameCFG (F F' : Function) (g : InstId) :
  rewriteGEP F g = Some F' -> sameCFG F F'.
Proof.
  intros H. apply rewriteGEP_cases in H.
  destruct H as [-> | (x & base & idxs & vec & ip & _ & _ & _ & _ & ->)].
  - apply sameCFG_refl.
  - apply sameCFG_rewritten.
Qed.

Lemma fold_sameCFG (l : list InstId) :
  forall F0 Fend : Function,
    fold_left (fun acc GEP => match acc with
                              | Some F' => rewriteGEP F' GEP
                              | None => None
                              end) l (Some F0) = Some Fend ->
    sameCFG F0 Fend.
Proof.
  induction l as [|g l IH]; intros F0 Fend H.
  - cbn in H. injection H as <-. apply sameCFG_refl.
  - cbn [fold_left] in H.
    destruct (rewriteGEP F0 g) as [Fm|] eqn:Eg;
      [|rewrite fold_rewriteGEP_None in H; discriminate].
    apply (sameCFG_trans F0 Fm Fend);
      [apply (rewriteGEP_sameCFG F0 Fm g Eg) | apply IH, H].
Qed.

Lemma predecessors_sameCFG (F F' : Function) (Z : BlockId) :
  sameCFG F F' -> predecessors F' Z = predecessors F Z.
Proof.
  intros (_ & _ & _ & _ & _ & Hb & _ & Hs). unfold predecessors.
  revert Hb Hs. generalize (blocks F). generalize (blocks F').
  induction l as [|b' l' IH]; intros [|b l] Hb Hs; try discriminate; [reflexivity|].
  cbn in Hb, Hs. injection Hb as Hb1 Hb2. injection Hs as Hs1 Hs2.
  cbn [filter]. rewrite Hs1.
  destruct (existsb (Nat.eqb Z) (blockSuccessors b)); cbn [map];
    rewrite ?Hb1, (IH l Hb2 Hs2); reflexivity.
Qed.

(** X3 -- The run never touches the control-flow graph.  Whatever it
    rewrites, [runOnFunc] returns a function with the same name, linkage,
    attributes and arguments, the same blocks in the same order under the
    same names, each with the same successors, hence every block with the
    same predecessors: the edge-splitting branch of the resolver is never
    taken from the run, and no block is created. *)
Theorem runOnFunc_preserves_cfg (F F' : Function) :
  runOnFunc F = Some F' ->
  sameCFG F F' /\
  List.length (blocks F') = List.length (blocks F) /\
  (forall Z, predecessors F' Z = predecessors F Z) /\
  shouldInstrument F' = shouldInstrument F.
Proof.
  intros H. apply fold_sameCFG in H.
  split; [exact H|]. split; [|split].
  - destruct H as (_ & _ & _ & _ & _ & Hb & _).
    rewrite <- (length_map bid (blocks F')), Hb. apply length_map.
  - intros Z. apply predecessors_sameCFG, H.
  - destruct H as (H1 & H2 & H3 & H4 & H5 & Hb & _).
    unfold shouldInstrument, isDeclaration, hasFnAttribute, empty.
    rewrite H1, H2, H3, H4.
    destruct (blocks F), (blocks F'); try discriminate Hb; reflexivity.
Qed.

Lemma runOnFunc_preserves_cfg_witness :
  exists F',
    runOnFunc sampleFunction = Some F' /\
    map bid (blocks F') = [0] /\
    shouldInstrument F' = true.
Proof.
  destruct (runOnFunc sampleFunction) as [F'|] eqn:E; [|discriminate E].
  destruct (runOnFunc_preserves_cfg sampleFunction F' E)
    as ((_ & _ & _ & _ & _ & Hb & _) & _ & _ & Hs).
  exists F'. split; [reflexivity|]. split; [exact Hb | exact Hs].
Defined.

(** ** Distinct instruction numbers are kept, and the run completes *)

Lemma wfNew_NoDup (n : InstId) (l : list Instruction) :
  wfNew n l -> NoDup (map iid l).
Proof.
  revert n. induction l as [|x l IH]; intros n Hw; [constructor|].
  cbn. constructor.
  - intros Hin. apply in_map_iff in Hin. destruct Hin as (z & Ez & Hz).
    cbn in Hw. destruct Hw as (Hx & _ & _ & Hw).
    destruct (wfNew_In _ _ z Hw Hz) as (H & _). lia.
  - cbn in Hw. apply (IH (S n)), Hw.
Qed.

Lemma NoDup_insertIn (ip : InstId) (new l : list Instruction) :
  NoDup (map iid l) -> NoDup (map iid new) ->
  (forall e, In e new -> ~ In (iid e) (map iid l)) ->
  NoDup (map iid (insertIn ip new l)).
Proof.
  intros Hl Hn Hd. induction l as [|x l IH]; [constructor|].
  cbn [insertIn]. destruct (Nat.eqb (iid x) ip).
  - rewrite map_app. apply NoDup_app; [exact Hn | exact Hl|].
    intros a Ha. apply in_map_iff in Ha. destruct Ha as (e & <- & He).
    apply Hd, He.
  - cbn [map] in *. inversion Hl as [|? ? Hx Hl']; subst. constructor.
    + intros Hin. apply in_map_iff in Hin. destruct Hin as (z & Ez & Hz).
      apply In_insertIn in Hz. destruct Hz as [Hz | Hz].
      * apply Hx. rewrite <- Ez. apply in_map, Hz.
      * apply (Hd z Hz). left. symmetry. exact Ez.
    + apply IH; [exact Hl'|]. intros e He Hin. apply (Hd e He). right. exact Hin.
Qed.

Lemma insertIn_app_in (ip : InstId) (new a c : list Instruction) :
  In ip (map iid a) -> insertIn ip new (a ++ c) = insertIn ip new a ++ c.
Proof.
  induction a as [|x a IH]; cbn; [tauto|].
  intros H. destruct (Nat.eqb_spec (iid x) ip) as [E | NE].
  - rewrite <- !app_assoc. reflexivity.
  - cbn. f_equal. apply IH. destruct H; [contradiction | assumption].
Qed.

Lemma insertIn_app_notin (ip : InstId) (new a c : list Instruction) :
  ~ In ip (map iid a) -> insertIn ip new (a ++ c) = a ++ insertIn ip new c.
Proof.
  induction a as [|x a IH]; cbn; [reflexivity|].
  intros H. destruct (Nat.eqb_spec (iid x) ip) as [E | NE]; [tauto|].
  f_equal. apply IH. tauto.
Qed.

Lemma flat_insertIn_notin (ip : InstId) (new : list Instruction)
    (bs : list BasicBlock) :
  ~ In ip (map iid (flat_map insts bs)) ->
  flat_map (fun b => insertIn ip new (insts b)) bs = flat_map insts bs.
Proof.
  induction bs as [|b bs IH]; cbn; [reflexivity|].
  rewrite map_app, in_app_iff. intros H.
  rewrite IH by tauto. f_equal. apply insertIn_notin.
  intros a Ha E. apply H. left. rewrite <- E. apply in_map, Ha.
Qed.

(** With distinct instruction numbers the insertion point designates one
    place of the function. *)
Lemma flat_insertIn (ip : InstId) (new : list Instruction) (bs : list BasicBlock) :
  NoDup (map iid (flat_map insts bs)) ->
  flat_map (fun b => insertIn ip new (insts b)) bs =
  insertIn ip new (flat_map insts bs).
Proof.
  induction bs as [|b bs IH]; cbn; [reflexivity|].
  rewrite map_app. intros Hnd.
  destruct (in_dec Nat.eq_dec ip (map iid (insts b))) as [Hin | Hout].
  - rewrite insertIn_app_in by exact Hin. f_equal.
    apply flat_insertIn_notin. intros Hin2.
    apply in_map_iff in Hin. destruct Hin as (a1 & E1 & H1).
    apply in_map_iff in Hin2. destruct Hin2 as (a2 & E2 & H2).
    rewrite <- map_app in Hnd.
    apply (NoDup_map_app_disjoint iid _ _ a1 a2 Hnd H1 H2). congruence.
  - rewrite insertIn_app_notin by exact Hout.
    rewrite (insertIn_notin ip new (insts b)).
    + f_equal. apply IH. apply NoDup_app_remove_l in Hnd. exact Hnd.
    + intros a Ha E. apply Hout. rewrite <- E. apply in_map, Ha.
Qed.

Lemma map_iid_retarget (Us : list InstId) (g : InstId) (to : Value)
    (l : list Instruction) :
  map iid (map (retarget Us g to) l) = map iid l.
Proof. rewrite map_map. apply map_ext, iid_retarget. Qed.

Lemma NoDup_rewritten (F : Function) (Us : list InstId) (g ip : InstId)
    (to : Value) (new : list Instruction) :
  NoDup (map iid (instructions F)) ->
  wfNew (freshInst F) new ->
  NoDup (map iid (instructions
                    (mapInsts (retarget Us g to) (insertBefore ip new F)))).
Proof.
  intros Hnd Hw. rewrite instructions_mapInsts, map_iid_retarget.
  rewrite instructions_insertBefore. unfold instructions in *.
  rewrite flat_insertIn by exact Hnd.
  apply NoDup_insertIn; [exact Hnd | apply (wfNew_NoDup _ _ Hw)|].
  intros e He Hin. apply in_map_iff in Hin. destruct Hin as (z & Ez & Hz).
  apply (freshInst_above_id F) in Hz.
  destruct (wfNew_In _ _ e Hw He) as (H & _). lia.
Qed.

Lemma rewriteGEP_emitted_wf (F : Function) (g : InstId) (x : Instruction)
    (base : Value) (idxs : list GepIndex) (vec : bool) :
  lookupInst F g = Some x ->
  ikind x = GetElementPtr base idxs vec ->
  wfNew (freshInst F)
        (emitted (snd (emitTagging g (iname x) idxs (mkBuilder (freshInst F) [])))).
Proof.
  intros Hx Hk.
  destruct (emitTagging g (iname x) idxs (mkBuilder (freshInst F) []))
    as [NP B] eqn:E.
  apply (emitTagging_wf g (iname x) idxs (freshInst F) NP B
           (lookupInst_fresh F g x Hx)
           (gep_indices_inScope F g x base idxs vec Hx Hk) E).
Qed.

Lemma rewriteGEP_NoDup (F F' : Function) (g : InstId) :
  NoDup (map iid (instructions F)) ->
  rewriteGEP F g = Some F' ->
  NoDup (map iid (instructions F')).
Proof.
  intros Hnd H. apply rewriteGEP_cases in H.
  destruct H as [-> | (x & base & idxs & vec & ip & Hx & Hk & _ & _ & ->)];
    [exact Hnd|].
  apply NoDup_rewritten; [exact Hnd|].
  apply (rewriteGEP_emitted_wf F g x base idxs vec Hx Hk).
Qed.

Lemma rewriteGEP_kept (F F' : Function) (g : InstId) :
  rewriteGEP F g = Some F' -> kept F F'.
Proof.
  intros H j y Hy. apply rewriteGEP_cases in H.
  destruct H as [-> | (x & base & idxs & vec & ip & Hx & Hk & _ & _ & ->)].
  - exists y. repeat split. exact Hy.
  - pose proof (rewriteGEP_emitted_wf F g x base idxs vec Hx Hk) as Hw.
    rewrite lookupInst_rewritten.
    + rewrite Hy. cbn [option_map]. eexists. split; [reflexivity|].
      split; [apply iname_retarget | apply isGEP_retarget].
    + intros e He E. destruct (wfNew_In _ _ e Hw He) as (H & _).
      apply lookupInst_fresh in Hy. lia.
Qed.

Lemma fold_NoDup_kept (l : list InstId) :
  forall F0 Fend : Function,
    fold_left (fun acc GEP => match acc with
                              | Some F' => rewriteGEP F' GEP
                              | None => None
                              end) l (Some F0) = Some Fend ->
    kept F0 Fend /\
    (NoDup (map iid (instructions F0)) -> NoDup (map iid (instructions Fend))).
Proof.
  induction l as [|g l IH]; intros F0 Fend H.
  - cbn in H. injection H as <-. split; [|tauto].
    intros j y Hy. exists y. repeat split. exact Hy.
  - cbn [fold_left] in H.
    destruct (rewriteGEP F0 g) as [Fm|] eqn:Eg;
      [|rewrite fold_rewriteGEP_None in H; discriminate].
    destruct (IH Fm Fend H) as [K N]. split.
    + intros j y Hy.
      destruct (rewriteGEP_kept F0 Fm g Eg j y Hy) as (y1 & H1 & N1 & G1).
      destruct (K j y1 H1) as (y2 & H2 & N2 & G2).
      exists y2. repeat split; congruence.
    + intros Hnd. apply N. apply (rewriteGEP_NoDup F0 Fm g Hnd Eg).
Qed.

(** X4 -- Nothing is deleted, renamed or duplicated.  After a run every
    instruction the function held is still found under its number, with its
    name, pointer arithmetic iff it was; and when the instructions of the
    function were pairwise distinct they still are, the synthesized ones
    included. *)
Theorem runOnFunc_keeps_instructions (F F' : Function) :
  runOnFunc F = Some F' ->
  (forall j y, lookupInst F j = Some y ->
     exists y', lookupInst F' j = Some y' /\
                iname y' = iname y /\ isGEP y' = isGEP y) /\
  (NoDup (map iid (instructions F)) -> NoDup (map iid (instructions F'))).
Proof. intros H. apply (fold_NoDup_kept _ F F' H). Qed.

Lemma runOnFunc_keeps_instructions_witness :
  exists F' y',
    runOnFunc sampleFunction = Some F' /\
    lookupInst F' 1 = Some y' /\ iname y' = "p"%string /\ isGEP y' = true.
Proof.
  destruct (runOnFunc sampleFunction) as [F'|] eqn:E; [|discriminate E].
  destruct (runOnFunc_keeps_instructions sampleFunction F' E) as [K _].
  destruct (K 1 sampleGEP eq_refl) as (y' & H1 & H2 & H3).
  exists F', y'. repeat split; assumption.
Defined.

(** ** The run completes on well-formed functions *)

Lemma blockClosed_rewritten (Us : list InstId) (g ip : InstId) (to : Value)
    (new : list Instruction) (F : Function) :
  forallb blockClosed (blocks F) = true ->
  forallb blockClosed
    (blocks (mapInsts (retarget Us g to) (insertBefore ip new F))) = true.
Proof.
  rewrite blocks_rewritten. rewrite !forallb_forall. intros H b' Hb'.
  apply in_map_iff in Hb'. destruct Hb' as (b & <- & Hb).
  specialize (H b Hb). unfold blockClosed in *. cbn [insts].
  rewrite lastInst_map, lastInst_insertIn.
  destruct (lastInst (insts b)) as [t|]; [|reflexivity].
  cbn [option_map]. rewrite isGEP_retarget. exact H.
Qed.

Lemma rewriteGEP_blockClosed (F F' : Function) (g : InstId) :
  forallb blockClosed (blocks F) = true ->
  rewriteGEP F g = Some F' ->
  forallb blockClosed (blocks F') = true.
Proof.
  intros Hc H. apply rewriteGEP_cases in H.
  destruct H as [-> | (x & base & idxs & vec & ip & _ & _ & _ & _ & ->)];
    [exact Hc | apply blockClosed_rewritten, Hc].
Qed.

(** In a function with distinct instructions whose blocks do not end in
    pointer arithmetic, an iteration of the loop never aborts. *)
Lemma rewriteGEP_succeeds (F : Function) (g : InstId) :
  NoDup (map iid (instructions F)) ->
  forallb blockClosed (blocks F) = true ->
  exists F', rewriteGEP F g = Some F'.
Proof.
  intros Hnd Hc. unfold rewriteGEP.
  destruct (lookupInst F g) as [x|] eqn:Hx; [|eexists; reflexivity].
  destruct (ikind x) as [base idxs vec | | | | | | | ] eqn:Hk;
    try (eexists; reflexivity).
  destruct (skipped F base idxs vec); [eexists; reflexivity|].
  apply lookupInst_In in Hx. destruct Hx as [Hin <-].
  unfold instructions in Hin. apply in_flat_map in Hin.
  destruct Hin as (b & Hb & Hxb).
  apply in_split in Hb. destruct Hb as (ps1 & ps2 & Hbs).
  apply in_split in Hxb. destruct Hxb as (pre & post & Hins).
  destruct post as [|y post].
  { exfalso. rewrite forallb_forall in Hc.
    assert (Hbin : In b (blocks F))
      by (rewrite Hbs; apply in_or_app; right; left; reflexivity).
    specialize (Hc b Hbin). unfold blockClosed in Hc.
    rewrite Hins, lastInst_snoc in Hc. unfold isGEP in Hc.
    rewrite Hk in Hc. discriminate. }
  destruct (distinct_position F ps1 ps2 b pre post x y Hnd Hbs Hins)
    as (Hl & Hp & Hn & _).
  unfold getInsertPointAfter. rewrite Hl, Hp, Hk. cbn [isTerminator].
  rewrite Hn. cbn [option_map].
  destruct (emitTagging (iid x) (iname x) idxs (mkBuilder (freshInst F) [])).
  eexists. reflexivity.
Qed.

Lemma fold_succeeds (l : list InstId) :
  forall F : Function,
    NoDup (map iid (instructions F)) ->
    forallb blockClosed (blocks F) = true ->
    exists F',
      fold_left (fun acc GEP => match acc with
                                | Some F' => rewriteGEP F' GEP
                                | None => None
                                end) l (Some F) = Some F' /\
      NoDup (map iid (instructions F')) /\
      forallb blockClosed (blocks F') = true.
Proof.
  induction l as [|g l IH]; intros F Hnd Hc.
  - exists F. repeat split; assumption.
  - cbn [fold_left]. destruct (rewriteGEP_succeeds F g Hnd Hc) as (Fm & Eg).
    rewrite Eg. apply IH.
    + apply (rewriteGEP_NoDup F Fm g Hnd Eg).
    + apply (rewriteGEP_blockClosed F Fm g Hc Eg).
Qed.

(** X5 -- The run completes.  When the instructions of the function are
    pairwise distinct and no block ends in a pointer-arithmetic instruction
    (every block ends in its terminator), [runOnFunc] does not abort: every
    candidate has an instruction after it in its block, so the resolver finds
    an insertion point each time; and the result satisfies both conditions
    again, so a further run completes as well. *)
Theorem runOnFunc_completes (F : Function) :
  NoDup (map iid (instructions F)) ->
  forallb blockClosed (blocks F) = true ->
  exists F',
    runOnFunc F = Some F' /\
    NoDup (map iid (instructions F')) /\
    forallb blockClosed (blocks F') = true.
Proof. intros Hnd Hc. apply fold_succeeds; assumption. Qed.

Lemma runOnFunc_completes_witness :
  exists F',
    runOnFunc sampleFunction = Some F' /\
    NoDup (map iid (instructions F')) /\
    forallb blockClosed (blocks F') = true.
Proof.
  apply (runOnFunc_completes sampleFunction).
  - cbn. repeat constructor; cbn; intuition discriminate.
  - reflexivity.
Defined.

(** ** The resolver away from exceptional calls *)







(** ** The module driver *)

Lemma mapM_Forall2 {A B : Type} (f : A -> option B) (l : list A) :
  forall l', mapM f l = Some l' -> Forall2 (fun a b => f a = Some b) l l'.
Proof.
  induction l as [|a l IH]; intros l' H; cbn in H.
  - injection H as <-. constructor.
  - destruct (f a) as [b|] eqn:Ea; [|discriminate].
    destruct (mapM f l) as [bs|]; [|discriminate].
    injection H as <-. constructor; [exact Ea | apply IH; reflexivity].
Qed.

Lemma mapM_total {A B : Type} (f : A -> option B) (l : list A) :
  (forall a, In a l -> exists b, f a = Some b) ->
  exists l', mapM f l = Some l'.
Proof.
  induction l as [|a l IH]; intros H; cbn.
  - eexists. reflexivity.
  - destruct (H a (or_introl eq_refl)) as (b & ->).
    destruct IH as (bs & ->); [intros z Hz; apply H; right; exact Hz|].
    eexists. reflexivity.
Qed.

Lemma mapM_None {A B : Type} (f : A -> option B) (l : list A) :
  mapM f l = None -> exists a, In a l /\ f a = None.
Proof.
  induction l as [|a l IH]; cbn; [discriminate|].
  destruct (f a) as [b|] eqn:Ea.
  - destruct (mapM f l) as [bs|]; [discriminate|].
    intros _. destruct (IH eq_refl) as (z & Hz & Ez).
    exists z. split; [right; exact Hz | exact Ez].
  - intros _. exists a. split; [left; reflexivity | exact Ea].
Qed.

Lemma shouldInstrument_sameCFG (F F' : Function) :
  sameCFG F F' -> shouldInstrument F' = shouldInstrument F.
Proof.
  intros (H1 & H2 & H3 & H4 & H5 & Hb & _).
  unfold shouldInstrument, isDeclaration, hasFnAttribute, empty.
  rewrite H1, H2, H3, H4.
  destruct (blocks F), (blocks F'); try discriminate Hb; reflexivity.
Qed.

(** X8 -- The pass over a module.  When [run] finishes, the module holds as
    many functions as before, in the same order and under the same names.  A
    function the filter rejects is returned as it was; one it accepts is
    replaced by the result of [runOnFunc] on it.  Either way the function
    keeps its control-flow graph and the filter's verdict on it is the same
    after the pass as before. *)
Theorem run_module_structure (M M' : Module) :
  run M = Some M' ->
  List.length M' = List.length M /\
  map fname M' = map fname M /\
  Forall2 (fun F F' =>
             (shouldInstrument F = false -> F' = F) /\
             (shouldInstrument F = true -> runOnFunc F = Some F') /\
             sameCFG F F' /\
             shouldInstrument F' = shouldInstrument F) M M'.
Proof.
  unfold run. intros H. apply mapM_Forall2 in H.
  assert (Hall : Forall2 (fun F F' =>
             (shouldInstrument F = false -> F' = F) /\
             (shouldInstrument F = true -> runOnFunc F = Some F') /\
             sameCFG F F' /\
             shouldInstrument F' = shouldInstrument F) M M').
  { induction H as [|F F' l l' HF Hl IH]; constructor; [|exact IH].
    destruct (shouldInstrument F) eqn:Es.
    - assert (Hc : sameCFG F F') by (apply (fold_sameCFG _ _ _ HF)).
      split; [discriminate|]. split; [intros _; exact HF|].
      split; [exact Hc|].
      rewrite (shouldInstrument_sameCFG F F' Hc). exact Es.
    - injection HF as <-. split; [reflexivity|]. split; [discriminate|].
      split; [apply sameCFG_refl | exact Es]. }
  split; [|split; [|exact Hall]].
  - symmetry. apply (Forall2_length H).
  - clear H. induction Hall as [|F F' l l' HF Hl IH]; [reflexivity|].
    cbn. rewrite IH. destruct HF as (_ & _ & (Hn & _) & _). rewrite Hn.
    reflexivity.
Qed.

Lemma run_module_structure_witness :
  exists M',
    run [sampleVtableFunction; sampleFunction] = Some M' /\
    map fname M' = map fname [sampleVtableFunction; sampleFunction].
Proof.
  destruct (run [sampleVtableFunction; sampleFunction]) as [M'|] eqn:E;
    [|discriminate E].
  destruct (run_module_structure _ M' E) as (_ & Hn & _).
  exists M'. split; [reflexivity | exact Hn].
Defined.

(** X9 -- The pass completes on well-formed modules, and fails only through
    an eligible function.  When every function the filter accepts has
    pairwise distinct instructions and no block that ends in a
    pointer-arithmetic instruction, [run] returns a module, whose accepted
    functions satisfy both conditions again.  In general, when [run] aborts,
    some function of the module is accepted by the filter and [runOnFunc]
    aborts on it: functions the filter rejects are never a cause. *)
Theorem run_module_completes (M : Module) :
  (run M = None ->
   exists F, In F M /\ shouldInstrument F = true /\ runOnFunc F = None) /\
  ((forall F, In F M -> shouldInstrument F = true ->
      NoDup (map iid (instructions F)) /\
      forallb blockClosed (blocks F) = true) ->
   exists M',
     run M = Some M' /\
     forall F', In F' M' -> shouldInstrument F' = true ->
       NoDup (map iid (instructions F')) /\
       forallb blockClosed (blocks F') = true).
Proof.
  split.
  - unfold run. intros H. apply mapM_None in H. destruct H as (F & HF & E).
    exists F. destruct (shouldInstrument F); [|discriminate].
    repeat split; assumption.
  - intros Hwf.
    assert (Hex : exists M', run M = Some M').
    { unfold run. apply mapM_total. intros F HF.
      destruct (shouldInstrument F) eqn:Es; [|eexists; reflexivity].
      destruct (Hwf F HF Es) as (Hnd & Hc).
      destruct (fold_succeeds (collectGEPs F) F Hnd Hc) as (F' & E & _).
      exists F'. exact E. }
    destruct Hex as (M' & E). exists M'. split; [exact E|].
    unfold run in E. apply mapM_Forall2 in E.
    intros F' HF' Es'.
    assert (Hpre : exists F, In F M /\
              (if shouldInstrument F then runOnFunc F else Some F) = Some F').
    { clear Hwf Es'. induction E as [|F G l l' HF Hl IH]; [contradiction|].
      destruct HF' as [<- | HF'].
      - exists F. split; [left; reflexivity | exact HF].
      - destruct (IH HF') as (F0 & H0 & E0).
        exists F0. split; [right; exact H0 | exact E0]. }
    destruct Hpre as (F & HF & EF).
    destruct (shouldInstrument F) eqn:Es.
    + destruct (Hwf F HF Es) as (Hnd & Hc).
      destruct (fold_succeeds (collectGEPs F) F Hnd Hc) as (F'' & E2 & Hnd' & Hc').
      unfold runOnFunc in EF. rewrite E2 in EF. injection EF as <-.
      split; assumption.
    + injection EF as <-. congruence.
Qed.

Lemma run_module_completes_witness :
  exists M', run [sampleVtableFunction; sampleFunction] = Some M'.
Proof.
  destruct (proj2 (run_module_completes [sampleVtableFunction; sampleFunction]))
    as (M' & E & _).
  - intros F [<- | [<- | []]] _; (split; [|reflexivity]);
      cbn; repeat constructor; cbn; intuition discriminate.
  - exists M'. exact E.
Defined.

(** ** Layout of the function after the edge split *)

Lemma predecessors_elsewhere (F F' : Function) (ps1 ps2 : list BasicBlock)
    (pb : BasicBlock) (pre : list Instruction) (x : Instruction)
    (args : list Value) (T U Z q : BlockId) :
  NoDup (map iid (instructions F)) ->
  blocks F = ps1 ++ pb :: ps2 ->
  insts pb = pre ++ [x] ->
  ikind x = Invoke args T U ->
  (forall b', In b' (blocks F') <->
     b' = insertPointBlock F T \/
     exists b0, In b0 (blocks F) /\
                b' = splitBlock (iid x) T (bid pb) (freshBlock F) b0) ->
  Z <> T -> Z <> freshBlock F ->
  (In q (predecessors F' Z) <-> In q (predecessors F Z)).
Proof.
  intros Hnd Hbs Hpb Hk Hmem HZT HZB. rewrite !In_predecessors. split.
  - intros (b' & Hb' & <- & Hs). apply Hmem in Hb'.
    destruct Hb' as [-> | (b0 & Hb0 & ->)].
    + cbn in Hs. destruct Hs as [Hs | []]. congruence.
    + rewrite splitBlock_bid. rewrite splitBlock_successors in Hs.
      exists b0. split; [exact Hb0|]. split; [reflexivity|].
      unfold blockSuccessors.
      destruct (lastInst (insts b0)) as [t|] eqn:Et; [|destruct Hs].
      apply redirected_successors in Hs.
      destruct Hs as [(E & a & n & u & Ka & Hq) | (_ & Hs)]; [|exact Hs].
      destruct (terminator_is_invoke F ps1 ps2 pb pre x Hnd Hbs Hpb b0 t Hb0 Et E)
        as [-> ->].
      rewrite Ka. cbn. destruct Hq as [Hq | Hq]; [congruence|].
      right. left. symmetry. exact Hq.
  - intros (b0 & Hb0 & <- & Hs).
    exists (splitBlock (iid x) T (bid pb) (freshBlock F) b0).
    split; [|split].
    + apply Hmem. right. exists b0. split; [exact Hb0 | reflexivity].
    + apply splitBlock_bid.
    + rewrite splitBlock_successors. unfold blockSuccessors in Hs.
      destruct (lastInst (insts b0)) as [t|] eqn:Et; [|destruct Hs].
      destruct (Nat.eq_dec (iid t) (iid x)) as [E | E].
      * destruct (terminator_is_invoke F ps1 ps2 pb pre x Hnd Hbs Hpb b0 t Hb0 Et E)
          as [-> ->].
        rewrite (redirectInvoke_invoke (freshBlock F) x args T U Hk).
        rewrite Hk in Hs. cbn in Hs |- *.
        destruct Hs as [Hs | [Hs | []]]; [congruence|]. right. left. exact Hs.
      * rewrite redirectInvoke_other; [exact Hs | exact E].
Qed.

(** X10 -- Where the edge split puts things.  Let the exceptional call [x]
    end block [pb], in a function whose instructions and whose blocks are
    pairwise distinct, and let [tb], the normal destination [T] of [x], stand
    between the blocks [l1] and [l2].  The resolver returns a function with
    the same header in which the one new block stands immediately in front of
    [tb] and every other block is where it was; its one jump is the only new
    instruction, and instructions and blocks are pairwise distinct again.
    When the unwind destination of [x] is not [T], the new block has taken
    the place of [pb] among the predecessors of [T]; a block other than [T]
    and the new block has the predecessors it had. *)
Theorem edge_split_layout (F : Function) (ps1 ps2 l1 l2 : list BasicBlock)
    (pb tb : BasicBlock) (pre : list Instruction) (x : Instruction)
    (args : list Value) (T U : BlockId) :
  NoDup (map iid (instructions F)) ->
  NoDup (map bid (blocks F)) ->
  blocks F = ps1 ++ pb :: ps2 ->
  insts pb = pre ++ [x] ->
  ikind x = Invoke args T U ->
  blocks F = l1 ++ tb :: l2 ->
  bid tb = T ->
  exists F',
    getInsertPointAfter F (iid x) = Some (F', freshInst F) /\
    fname F' = fname F /\ linkage F' = linkage F /\ fnAttrs F' = fnAttrs F /\
    fargs F' = fargs F /\
    map bid (blocks F') = map bid l1 ++ freshBlock F :: map bid (tb :: l2) /\
    map iid (instructions F') =
      map iid (flat_map insts l1) ++ freshInst F ::
      map iid (flat_map insts (tb :: l2)) /\
    NoDup (map bid (blocks F')) /\
    NoDup (map iid (instructions F')) /\
    (U <> T -> forall q,
       In q (predecessors F' T) <->
       q = freshBlock F \/ (q <> bid pb /\ In q (predecessors F T))) /\
    (forall Z q, Z <> T -> Z <> freshBlock F ->
       (In q (predecessors F' Z) <-> In q (predecessors F Z))).
Proof.
  intros Hnd Hbid Hbs Hpb Hk Hl Htb.
  assert (Hl1 : forall z, In z l1 -> Nat.eqb (bid z) T = false).
  { intros z Hz. apply Nat.eqb_neq. rewrite <- Htb.
    rewrite Hl in Hbid. apply NoDup_map_split in Hbid.
    destruct Hbid as [H _]. apply H, Hz. }
  assert (HT : lookupBlock F T = Some tb).
  { unfold lookupBlock. rewrite Hl. apply find_first; [exact Hl1|].
    apply Nat.eqb_eq, Htb. }
  assert (Hxin : In x (insts pb)).
  { rewrite Hpb. apply in_or_app. right. left. reflexivity. }
  destruct (distinct_lookup F ps1 ps2 pb x Hnd Hbs Hxin) as [Hx Hp].
  pose proof (getInsertPointAfter_invoke F (iid x) x args T U pb tb l1 l2
                Hx Hk Hp Hl Hl1 Htb) as HG.
  destruct (edge_split F ps1 ps2 pb tb pre x args T U Hnd Hbs Hpb Hk HT)
    as (F' & HG' & Hmem & _).
  rewrite HG in HG'. injection HG' as HF'.
  assert (HTB : T < freshBlock F).
  { rewrite <- Htb. apply freshBlock_above_bid. rewrite Hl.
    apply in_or_app. right. left. reflexivity. }
  set (upd := splitBlock (iid x) T (bid pb) (freshBlock F)) in *.
  assert (Hbids : map bid (blocks F') =
                  map bid l1 ++ freshBlock F :: map bid (tb :: l2)).
  { rewrite <- HF'. cbn [blocks withBlocks]. rewrite map_app. cbn [map].
    rewrite !map_map. f_equal; [apply map_ext; intros b; apply splitBlock_bid|].
    cbn [insertPointBlock bid]. f_equal. unfold upd. rewrite splitBlock_bid.
    f_equal. apply map_ext; intros b; apply splitBlock_bid. }
  assert (Hids : map iid (instructions F') =
                 map iid (flat_map insts l1) ++ freshInst F ::
                 map iid (flat_map insts (tb :: l2))).
  { rewrite <- HF'. unfold instructions. cbn [blocks withBlocks].
    rewrite flat_map_app, map_app. cbn [flat_map]. rewrite map_app.
    unfold upd. rewrite flat_map_ids_splitBlock.
    change (splitBlock (iid x) T (bid pb) (freshBlock F) tb ::
            map (splitBlock (iid x) T (bid pb) (freshBlock F)) l2)
      with (map (splitBlock (iid x) T (bid pb) (freshBlock F)) (tb :: l2)).
    cbn [insertPointBlock insts map app].
    f_equal. f_equal.
    change (map iid (flat_map insts
              (map (splitBlock (iid x) T (bid pb) (freshBlock F)) (tb :: l2))) =
            map iid (flat_map insts (tb :: l2))).
    apply flat_map_ids_splitBlock. }
  exists F'. split; [rewrite <- HF'; exact HG|].
  split; [rewrite <- HF'; reflexivity|]. split; [rewrite <- HF'; reflexivity|].
  split; [rewrite <- HF'; reflexivity|]. split; [rewrite <- HF'; reflexivity|].
  split; [exact Hbids|]. split; [exact Hids|]. split; [|split; [|split]].
  - rewrite Hbids.
    apply NoDup_Add with (a := freshBlock F)
      (l := map bid l1 ++ map bid (tb :: l2)); [apply Add_app|].
    split.
    + rewrite <- map_app, <- Hl. exact Hbid.
    + rewrite <- map_app, <- Hl. intros Hin.
      apply in_map_iff in Hin. destruct Hin as (z & Hz & Hin).
      apply freshBlock_above_bid in Hin. lia.
  - rewrite Hids.
    apply NoDup_Add with (a := freshInst F)
      (l := map iid (flat_map insts l1) ++ map iid (flat_map insts (tb :: l2)));
      [apply Add_app|].
    split.
    + rewrite <- map_app, <- flat_map_app, <- Hl. exact Hnd.
    + rewrite <- map_app, <- flat_map_app, <- Hl. intros Hin.
      apply in_map_iff in Hin. destruct Hin as (z & Hz & Hin).
      apply freshInst_above_id in Hin. lia.
  - intros HU q.
    apply (predecessors_destination F F' ps1 ps2 pb pre x args T U);
      assumption.
  - intros Z q HZT HZB.
    apply (predecessors_elsewhere F F' ps1 ps2 pb pre x args T U); assumption.
Qed.

Lemma edge_split_layout_witness :
  exists F',
    getInsertPointAfter sampleInvokeFunction 1 = Some (F', 6) /\
    map bid (blocks F') = [0; 3; 1; 2] /\
    map iid (instructions F') = [1; 6; 2; 3; 4; 5].
Proof.
  destruct (edge_split_layout sampleInvokeFunction
              [] [mkBlock 1 "cont"
                    [mkInst 2 "m" (PHI [(VConstInt 7%Z, 0); (VConstInt 8%Z, 0)]);
                     mkInst 3 "n" (PHI [(VInst 1, 0)]);
                     mkInst 4 "" (Other true [VInst 2] [])];
                  mkBlock 2 "lpad" [mkInst 5 "" (Other true [] [])]]
              [mkBlock 0 "entry" [mkInst 1 "r" (Invoke [] 1 2)]]
              [mkBlock 2 "lpad" [mkInst 5 "" (Other true [] [])]]
              (mkBlock 0 "entry" [mkInst 1 "r" (Invoke [] 1 2)])
              (mkBlock 1 "cont"
                    [mkInst 2 "m" (PHI [(VConstInt 7%Z, 0); (VConstInt 8%Z, 0)]);
                     mkInst 3 "n" (PHI [(VInst 1, 0)]);
                     mkInst 4 "" (Other true [VInst 2] [])])
              [] (mkInst 1 "r" (Invoke [] 1 2)) [] 1 2)
    as (F' & H1 & _ & _ & _ & _ & H2 & H3 & _).
  - cbn. repeat constructor; cbn; intuition discriminate.
  - cbn. repeat constructor; cbn; intuition discriminate.
  - reflexivity.
  - reflexivity.
  - reflexivity.
  - reflexivity.
  - reflexivity.
  - exists F'. repeat split; assumption.
Defined.

(** ** Who reads the pointer arithmetic after the rewrite *)

Lemma cleanStep_ret {A : Type} (g n : InstId) (a : A) (Q : A -> Prop) :
  Q a -> cleanStep g n (ret a) Q.
Proof. intros H s Hs. split; [exact Hs | exact H]. Qed.

Lemma cleanStep_bind {A B : Type} (g n : InstId) (m : IRB A) (k : A -> IRB B)
    (P : A -> Prop) (Q : B -> Prop) :
  cleanStep g n m P ->
  (forall a, P a -> cleanStep g n (k a) Q) ->
  cleanStep g n (bind m k) Q.
Proof.
  intros Hm Hk s Hs. unfold bind. destruct (Hm s Hs) as [H1 H2].
  destruct (m s) as [a s1]. cbn [fst snd] in *. apply (Hk a H2 s1 H1).
Qed.

Lemma cleanStep_Insert (g n : InstId) (k : InstKind) (name : string) :
  (g < n)%nat ->
  ~ In (VInst g) (operands k) ->
  cleanStep g n (Insert k name) (fun v => v <> VInst g).
Proof.
  intros Hgn Hk s [Hn Hs]. unfold Insert. cbn [fst snd]. split; [split|].
  - cbn. lia.
  - intros e He Hr. cbn [emitted] in He. apply in_app_or in He.
    destruct He as [He | [<- | []]]; [apply (Hs e He Hr)|].
    cbn in Hr. contradiction.
  - intros E. injection E as E. lia.
Qed.

Lemma cleanStep_BinOp (g n : InstId) (op : BinOpcode) (l r : Value)
    (name : string) :
  (g < n)%nat -> l <> VInst g -> r <> VInst g ->
  cleanStep g n (CreateBinOp op l r name) (fun v => v <> VInst g).
Proof.
  intros Hgn Hl Hr s Hs.
  destruct (CreateBinOp_cases op l r name s) as [(a & b & _ & _ & E) | E].
  - rewrite E. cbn. split; [exact Hs | discriminate].
  - assert (HI : CreateBinOp op l r name s = Insert (BinOp op l r) name s)
      by (rewrite E; reflexivity).
    rewrite HI. apply cleanStep_Insert; [exact Hgn | | exact Hs].
    cbn. intros [H | [H | []]]; [apply Hl | apply Hr]; exact H.
Qed.

Lemma cleanStep_offsetTerms (g n : InstId) (name : string)
    (idxs : list GepIndex) :
  (g < n)%nat ->
  Forall (fun ix => indexOperand ix <> VInst g) idxs ->
  forall Result : option Value,
    (forall r, Result = Some r -> r <> VInst g) ->
    cleanStep g n (emitOffsetTerms name idxs Result)
              (fun o => forall r, o = Some r -> r <> VInst g).
Proof.
  intros Hgn. induction idxs as [|ix rest IH]; intros Hidx Result Hres.
  - cbn. apply cleanStep_ret. exact Hres.
  - inversion Hidx as [|? ? Hix Hrest]; subst.
    cbn [emitOffsetTerms].
    apply (cleanStep_bind g n _ _ (fun v => v <> VInst g)).
    + destruct ix as [v sz | f off].
      * apply cleanStep_BinOp; [exact Hgn | exact Hix | discriminate].
      * apply cleanStep_ret. discriminate.
    + intros term Hterm.
      apply (cleanStep_bind g n _ _ (fun v => v <> VInst g)).
      * destruct Result as [r|].
        -- apply cleanStep_BinOp; [exact Hgn | apply Hres; reflexivity | exact Hterm].
        -- apply cleanStep_ret. exact Hterm.
      * intros acc Hacc. apply (IH Hrest).
        intros r Er. injection Er as <-. exact Hacc.
Qed.

Lemma cleanStep_diff (g n : InstId) (name : string) (idxs : list GepIndex) :
  (g < n)%nat ->
  Forall (fun ix => indexOperand ix <> VInst g) idxs ->
  cleanStep g n
    (match accumulateConstantOffset idxs 0 with
     | Some c => ret (VConstInt c)
     | None => emitGEPOffset name idxs
     end)
    (fun v => v <> VInst g).
Proof.
  intros Hgn Hidx. destruct (accumulateConstantOffset idxs 0).
  - apply cleanStep_ret. discriminate.
  - unfold emitGEPOffset.
    apply (cleanStep_bind g n _ _ (fun o => forall r, o = Some r -> r <> VInst g)).
    + apply cleanStep_offsetTerms; [exact Hgn | exact Hidx | discriminate].
    + intros [r|] Hr; apply cleanStep_ret; [apply Hr; reflexivity | discriminate].
Qed.

(** Of the emitted sequence only its first instruction, the
    pointer-to-integer cast, can read an instruction [g] that exists already
    and is none of the indices. *)
Lemma emitTagging_soleReader (gep g n : InstId) (name : string)
    (idxs : list GepIndex) :
  (g < n)%nat ->
  Forall (fun ix => indexOperand ix <> VInst g) idxs ->
  soleReader g n (emitted (snd (emitTagging gep name idxs (mkBuilder n [])))).
Proof.
  intros Hgn Hidx. unfold emitTagging.
  unfold bind at 1. unfold CreatePtrToInt at 1. unfold Insert at 1.
  cbn [nextId emitted app].
  set (s1 := mkBuilder (S n) [mkInst n _ (PtrToInt (VInst gep))]).
  assert (Hs1 : cleanState g n s1).
  { split; [cbn; lia|]. intros e [<- | []] _. reflexivity. }
  assert (Hn : VInst n <> VInst g) by (intros E; injection E as E; lia).
  match goal with
  | |- soleReader g n (emitted (snd (?m s1))) =>
      assert (Hstep : cleanStep g n m (fun v => v <> VInst g))
  end.
  { unfold CreateLShr, CreateAnd, CreateNeg, CreateShl, CreateAdd, CreateIntToPtr.
    apply (cleanStep_bind g n _ _ (fun v => v <> VInst g));
      [apply cleanStep_BinOp; [exact Hgn | exact Hn | discriminate]|].
    intros UpperBits HU.
    apply (cleanStep_bind g n _ _ (fun v => v <> VInst g));
      [apply cleanStep_BinOp; [exact Hgn | exact HU | discriminate]|].
    intros EnableSel HS.
    apply (cleanStep_bind g n _ _ (fun v => v <> VInst g));
      [apply cleanStep_BinOp; [exact Hgn | discriminate | exact HS]|].
    intros EnableBit HB.
    apply (cleanStep_bind g n _ _ (fun v => v <> VInst g));
      [apply cleanStep_diff; assumption|].
    intros Diff HD.
    apply (cleanStep_bind g n _ _ (fun v => v <> VInst g));
      [apply cleanStep_BinOp; [exact Hgn | exact HD | discriminate]|].
    intros Shifted HSh.
    apply (cleanStep_bind g n _ _ (fun v => v <> VInst g));
      [apply cleanStep_BinOp; [exact Hgn | exact HSh | exact HB]|].
    intros AddOffset HA.
    apply (cleanStep_bind g n _ _ (fun v => v <> VInst g));
      [apply cleanStep_BinOp; [exact Hgn | exact Hn | exact HA]|].
    intros PtrAdd HP.
    apply cleanStep_Insert; [exact Hgn|].
    cbn. intros [H | []]. apply HP. exact H. }
  destruct (Hstep s1 Hs1) as [[_ H] _]. exact H.
Qed.

Lemma usesIn_nil (g : InstId) (e : Instruction) :
  ~ In (VInst g) (operands (ikind e)) -> usesIn g e = [].
Proof.
  unfold usesIn. intros H.
  induction (operands (ikind e)) as [|v l IH]; [reflexivity|].
  cbn [filter]. destruct (isInstRef g v) eqn:E.
  - exfalso. apply H. left. destruct v as [i| | |]; try discriminate.
    cbn in E. apply Nat.eqb_eq in E. subst i. reflexivity.
  - apply IH. intros Hin. apply H. right. exact Hin.
Qed.

Lemma isInstRef_substValue (h g : InstId) (to v : Value) :
  h <> g -> to <> VInst h ->
  isInstRef h (substValue g to v) = isInstRef h v.
Proof.
  intros Hhg Hto. unfold substValue. destruct (isInstRef g v) eqn:E; [|reflexivity].
  destruct v as [i| | |]; try discriminate. cbn in E.
  apply Nat.eqb_eq in E. subst i.
  transitivity false.
  - destruct to as [k| | |]; try reflexivity. cbn.
    apply Nat.eqb_neq. intros ->. apply Hto. reflexivity.
  - symmetry. cbn. apply Nat.eqb_neq. intros ->. apply Hhg. reflexivity.
Qed.

Lemma usesIn_subst_other (h g : InstId) (to : Value) (y : Instruction) :
  h <> g -> to <> VInst h ->
  usesIn h (substInst g to y) = usesIn h y.
Proof.
  intros Hhg Hto. unfold usesIn, substInst. cbn [ikind iid].
  rewrite operands_substKind.
  induction (operands (ikind y)) as [|v l IH]; [reflexivity|].
  cbn [map filter]. rewrite (isInstRef_substValue h g to v Hhg Hto).
  destruct (isInstRef h v); cbn [map]; rewrite IH; reflexivity.
Qed.

Lemma flat_map_nil {A B : Type} (f : A -> list B) (l : list A) :
  (forall a, In a l -> f a = []) -> flat_map f l = [].
Proof.
  induction l as [|a l IH]; intros H; [reflexivity|].
  cbn. rewrite (H a (or_introl eq_refl)). apply IH.
  intros z Hz. apply H. right. exact Hz.
Qed.

Lemma flat_map_map_same {A B : Type} (f : A -> list B) (r : A -> A)
    (l : list A) :
  (forall a, In a l -> f (r a) = f a) -> flat_map f (map r l) = flat_map f l.
Proof.
  induction l as [|a l IH]; intros H; [reflexivity|].
  cbn. rewrite (H a (or_introl eq_refl)). f_equal. apply IH.
  intros z Hz. apply H. right. exact Hz.
Qed.

Lemma insertIn_split (ip : InstId) (new l : list Instruction) :
  In ip (map iid l) ->
  exists l1 l2, l = l1 ++ l2 /\ insertIn ip new l = l1 ++ new ++ l2.
Proof.
  induction l as [|x l IH]; cbn; [tauto|].
  intros H. destruct (Nat.eqb_spec (iid x) ip) as [E | NE].
  - exists [], (x :: l). split; reflexivity.
  - destruct IH as (l1 & l2 & -> & E); [destruct H; [contradiction | assumption]|].
    exists (x :: l1), l2. split; [reflexivity|]. cbn. rewrite E. reflexivity.
Qed.

(** The snapshot of a function with distinct instructions has no entry
    twice. *)
Lemma NoDup_collectGEPs (F : Function) :
  NoDup (map iid (instructions F)) -> NoDup (collectGEPs F).
Proof.
  unfold collectGEPs. induction (instructions F) as [|a l IH]; intros H.
  - constructor.
  - cbn [map] in H. apply NoDup_cons_iff in H. destruct H as [Hn Hl].
    cbn [filter]. destruct (isGEP a); [|apply IH, Hl].
    cbn [map]. apply NoDup_cons; [|apply IH, Hl].
    intros Hin. apply Hn. apply in_map_iff in Hin.
    destruct Hin as (z & Ez & Hz). apply filter_In in Hz.
    rewrite <- Ez. apply in_map, Hz.
Qed.

Section OneRewrite.

Variables (F : Function) (g ip : InstId) (x : Instruction)
          (base : Value) (idxs : list GepIndex) (vec : bool)
          (NP : Value) (B : Builder).

Hypothesis Hnd : NoDup (map iid (instructions F)).
Hypothesis Hx : lookupInst F g = Some x.
Hypothesis Hk : ikind x = GetElementPtr base idxs vec.
Hypothesis Hip : getInsertPointAfter F g = Some (F, ip).
Hypothesis HE :
  emitTagging g (iname x) idxs (mkBuilder (freshInst F) []) = (NP, B).

Let F' : Function :=
  mapInsts (retarget (users F g) g NP) (insertBefore ip (emitted B) F).

Let cast : Instruction :=
  mkInst (freshInst F) (PrefixOf (iname x) ++ "int")%string
         (PtrToInt (VInst g)).

Lemma emitted_facts :
  wfNew (freshInst F) (emitted B) /\
  (exists k, NP = VInst k /\ freshInst F <= k) /\
  (exists rest, emitted B = cast :: rest /\ wfNew (S (freshInst F)) rest).
Proof.
  pose proof (lookupInst_fresh F g x Hx) as Hgn.
  pose proof (gep_indices_inScope F g x base idxs vec Hx Hk) as Hsc.
  destruct (emitTagging_wf g (iname x) idxs (freshInst F) NP B Hgn Hsc HE)
    as (Hw & Hlen & HNP & rest & Hseq).
  split; [exact Hw|]. split.
  - eexists. split; [exact HNP | lia].
  - exists rest. split; [exact Hseq|].
    rewrite Hseq in Hw. cbn [wfNew] in Hw. apply Hw.
Qed.

(** The function after the rewrite: the emitted sequence stands at one place
    among the instructions there were, in each of which the tagged pointer
    has taken the place of the pointer arithmetic. *)
Lemma instructions_rewritten :
  exists l1 l2,
    instructions F = l1 ++ l2 /\
    instructions F' =
      map (substInst g NP) l1 ++ emitted B ++ map (substInst g NP) l2.
Proof.
  destruct emitted_facts as (Hw & _ & _).
  destruct (getInsertPointAfter_GEP F F g ip x base idxs vec Hx Hk Hip)
    as (_ & b & Hb & Hnext).
  assert (Hipin : In ip (map iid (instructions F))).
  { apply nextIn_In in Hnext. apply getParent_In in Hb.
    unfold instructions. rewrite flat_map_concat_map, concat_map.
    apply in_concat. exists (map iid (insts b)). split; [|exact Hnext].
    rewrite map_map. apply (in_map (fun z => map iid (insts z))), Hb. }
  destruct (insertIn_split ip (emitted B) (instructions F) Hipin)
    as (l1 & l2 & HL & Hins).
  exists l1, l2. split; [exact HL|].
  unfold F'. rewrite instructions_mapInsts, instructions_insertBefore.
  unfold instructions in Hins |- *. rewrite flat_insertIn by exact Hnd.
  rewrite Hins, !map_app. f_equal; [|f_equal].
  - apply map_ext_in. intros y Hy. apply retarget_old. rewrite HL.
    apply in_or_app. left. exact Hy.
  - rewrite <- (map_id (emitted B)) at 2. apply map_ext_in. intros e He.
    apply retarget_new. destruct (wfNew_In _ _ e Hw He) as (H & _). lia.
  - apply map_ext_in. intros y Hy. apply retarget_old. rewrite HL.
    apply in_or_app. right. exact Hy.
Qed.

Lemma users_rewritten (h : InstId) :
  exists l1 l2,
    instructions F = l1 ++ l2 /\
    users F' h =
      flat_map (usesIn h) (map (substInst g NP) l1) ++
      flat_map (usesIn h) (emitted B) ++
      flat_map (usesIn h) (map (substInst g NP) l2).
Proof.
  destruct instructions_rewritten as (l1 & l2 & HL & HI).
  exists l1, l2. split; [exact HL|].
  unfold users. rewrite HI, !flat_map_app. reflexivity.
Qed.

(** What the emitted sequence reads of the instructions there were. *)
Lemma emitted_readers (h : InstId) :
  h < freshInst F ->
  Forall (fun ix => indexOperand ix <> VInst h) idxs ->
  flat_map (usesIn h) (emitted B) =
    if Nat.eqb g h then [freshInst F] else [].
Proof.
  intros Hh Hidx.
  pose proof (emitTagging_soleReader g h (freshInst F) (iname x) idxs Hh Hidx)
    as Hsole.
  rewrite HE in Hsole. cbn [snd] in Hsole.
  destruct emitted_facts as (_ & _ & rest & Hseq & Hw).
  assert (Hrest : forall e, In e rest -> usesIn h e = []).
  { intros e He. apply usesIn_nil. intros Hr.
    assert (Hin : In e (emitted B)) by (rewrite Hseq; right; exact He).
    pose proof (Hsole e Hin Hr) as Hid.
    destruct (wfNew_In _ _ e Hw He) as (H & _). lia. }
  rewrite Hseq. cbn [flat_map].
  rewrite (flat_map_nil (usesIn h) rest Hrest), app_nil_r.
  unfold usesIn, cast. cbn. destruct (Nat.eqb g h); reflexivity.
Qed.

Lemma lookupInst_cast : lookupInst F' (freshInst F) = Some cast.
Proof.
  destruct emitted_facts as (Hw & _ & rest & Hseq & _).
  destruct instructions_rewritten as (l1 & l2 & HL & HI).
  unfold lookupInst. change (freshInst F) with (iid cast) at 1.
  apply find_by_id.
  - apply NoDup_rewritten; [exact Hnd | exact Hw].
  - rewrite HI. apply in_or_app. right. apply in_or_app. left.
    rewrite Hseq. left. reflexivity.
Qed.

Lemma sole_reader :
  Forall (fun ix => indexOperand ix <> VInst g) idxs ->
  users F' g = [freshInst F].
Proof.
  intros Hidx.
  destruct emitted_facts as (_ & (k & HNP & Hkf) & _).
  pose proof (lookupInst_fresh F g x Hx) as Hgn.
  assert (HNPne : NP <> VInst g).
  { rewrite HNP. intros EE. injection EE as EE. lia. }
  destruct (users_rewritten g) as (l1 & l2 & HL & ->).
  rewrite (emitted_readers g Hgn Hidx), Nat.eqb_refl.
  rewrite !flat_map_nil; [reflexivity | |];
    intros a Ha; apply in_map_iff in Ha; destruct Ha as (y & <- & _);
    apply usesIn_nil, substInst_no_ref, HNPne.
Qed.

Lemma castOnly_kept (h : InstId) :
  h <> g -> castOnly F h -> castOnly F' h.
Proof.
  intros Hhg (c & nm & HU & HC).
  destruct emitted_facts as (_ & (k & HNP & Hkf) & _).
  pose proof (lookupInst_In F c _ HC) as [HCin _].
  assert (Hh : h < freshInst F).
  { assert (H : inScope (freshInst F) (VInst h)).
    { apply (operand_inScope F _ (VInst h) HCin). left. reflexivity. }
    unfold inScope in H. cbn in H. lia. }
  assert (HNPne : NP <> VInst h).
  { rewrite HNP. intros EE. injection EE as EE. lia. }
  assert (Hidx : Forall (fun ix => indexOperand ix <> VInst h) idxs).
  { apply Forall_forall. intros ix Hix E.
    assert (Hin : In g (users F h)).
    { apply In_users. destruct (lookupInst_In F g x Hx) as [Hxin Hid].
      exists x. split; [exact Hxin|]. split; [exact Hid|].
      rewrite Hk. right. rewrite <- E. apply in_map, Hix. }
    rewrite HU in Hin. destruct Hin as [<- | []].
    rewrite HC in Hx. injection Hx as <-. discriminate Hk. }
  exists c, nm. split.
  - destruct (users_rewritten h) as (l1 & l2 & HL & ->).
    rewrite (emitted_readers h Hh Hidx).
    destruct (Nat.eqb_spec g h) as [E | _]; [congruence|].
    rewrite !flat_map_map_same
      by (intros a _; apply usesIn_subst_other; assumption).
    cbn [app]. rewrite <- flat_map_app, <- HL. exact HU.
  - unfold F'.
    rewrite (lookupInst_old F g ip x base idxs vec NP B Hx Hk HE c
               (lookupInst_fresh F c _ HC)).
    rewrite HC. cbn [option_map]. f_equal.
    rewrite (retarget_old F g NP _ HCin).
    apply substInst_noop. cbn. intros [E | []]. injection E as E.
    apply Hhg. exact E.
Qed.

Lemma noSelfIndex_kept : noSelfIndex F -> noSelfIndex F'.
Proof.
  intros HS y b0 ixs v0 Hy Ky.
  destruct emitted_facts as (Hw & (k & HNP & Hkf) & _).
  apply (In_rewritten F g ip x base idxs vec NP B Hx Hk HE) in Hy.
  destruct Hy as [(y0 & Hy0 & ->) | Hy].
  - cbn [substInst ikind iid] in *.
    destruct (ikind y0) as [b1 ixs1 v1 | | | | | | | ] eqn:K0; try discriminate Ky.
    cbn [substKind] in Ky. injection Ky as _ <- _.
    pose proof (HS y0 b1 ixs1 v1 Hy0 K0) as H0.
    apply Forall_forall. intros ix Hix. apply in_map_iff in Hix.
    destruct Hix as (ix0 & <- & Hix0).
    rewrite indexOperand_substIndex. unfold substValue.
    destruct (isInstRef g (indexOperand ix0)).
    + rewrite HNP. intros E. injection E as E.
      apply freshInst_above_id in Hy0. lia.
    + rewrite Forall_forall in H0. apply H0, Hix0.
  - destruct (wfNew_In _ _ y Hw Hy) as (_ & Ha & _).
    unfold isArith in Ha. rewrite Ky in Ha. discriminate.
Qed.

End OneRewrite.

Lemma rewriteGEP_rewritten (F F' : Function) (g : InstId) :
  rewritten F g = true ->
  rewriteGEP F g = Some F' ->
  exists x base idxs vec ip,
    lookupInst F g = Some x /\
    ikind x = GetElementPtr base idxs vec /\
    skipped F base idxs vec = false /\
    getInsertPointAfter F g = Some (F, ip) /\
    F' = mapInsts
           (retarget (users F g) g
              (fst (emitTagging g (iname x) idxs (mkBuilder (freshInst F) []))))
           (insertBefore ip
              (emitted (snd (emitTagging g (iname x) idxs
                               (mkBuilder (freshInst F) []))))
              F).
Proof.
  intros ER H. unfold rewritten, qualifies in ER.
  destruct (lookupInst F g) as [x|] eqn:Hx; [|discriminate].
  destruct (ikind x) as [base idxs vec | | | | | | | ] eqn:Hk; try discriminate.
  apply negb_true_iff in ER.
  destruct (getInsertPointAfter F g) as [[F1 ip]|] eqn:Hip.
  2:{ unfold rewriteGEP in H. rewrite Hx, Hk, ER, Hip in H. discriminate. }
  rewrite (rewriteGEP_rewrites F F1 g ip x base idxs vec Hx Hk ER Hip) in H.
  injection H as <-.
  destruct (getInsertPointAfter_GEP F F1 g ip x base idxs vec Hx Hk Hip) as [-> _].
  exists x, base, idxs, vec, ip. repeat split; assumption.
Qed.

(** X11 -- After the rewrite the cast is the only reader.  Let the
    instructions of the function be pairwise distinct and let a
    pointer-arithmetic instruction [GEP] pass the skip tests, none of its
    indices being [GEP] itself.  After its rewrite exactly one operand in the
    whole function refers to [GEP]: that of the synthesized
    pointer-to-integer cast, the first instruction of the emitted sequence.
    Every consumer [GEP] had now reads the tagged pointer, and nothing the
    pass emitted for the offset reads [GEP]. *)
Theorem sole_reader_after_rewrite (F F' : Function) (GEP : InstId)
    (x : Instruction) (base : Value) (idxs : list GepIndex) (vec : bool) :
  NoDup (map iid (instructions F)) ->
  lookupInst F GEP = Some x ->
  ikind x = GetElementPtr base idxs vec ->
  skipped F base idxs vec = false ->
  Forall (fun ix => indexOperand ix <> VInst GEP) idxs ->
  rewriteGEP F GEP = Some F' ->
  users F' GEP = [freshInst F] /\
  lookupInst F' (freshInst F) =
    Some (mkInst (freshInst F) (PrefixOf (iname x) ++ "int")
                 (PtrToInt (VInst GEP))).
Proof.
  intros Hnd Hx Hk Hs Hidx HR.
  destruct (getInsertPointAfter F GEP) as [[F1 ip]|] eqn:Hip.
  2:{ unfold rewriteGEP in HR. rewrite Hx, Hk, Hs, Hip in HR. discriminate. }
  rewrite (rewriteGEP_rewrites F F1 GEP ip x base idxs vec Hx Hk Hs Hip) in HR.
  injection HR as <-.
  destruct (getInsertPointAfter_GEP F F1 GEP ip x base idxs vec Hx Hk Hip)
    as (-> & _).
  destruct (emitTagging GEP (iname x) idxs (mkBuilder (freshInst F) []))
    as [NewPtr B] eqn:E.
  cbn [fst snd]. split.
  - apply (sole_reader F GEP ip x base idxs vec NewPtr B); assumption.
  - apply (lookupInst_cast F GEP ip x base idxs vec NewPtr B); assumption.
Qed.

Lemma sole_reader_after_rewrite_witness :
  exists F',
    rewriteGEP sampleFunction 1 = Some F' /\ users F' 1 = [4].
Proof.
  destruct (rewriteGEP sampleFunction 1) as [F'|] eqn:E; [|discriminate E].
  exists F'. split; [reflexivity|].
  apply (sole_reader_after_rewrite sampleFunction F' 1 sampleGEP (VArg 0)
           [SeqIndex (VConstInt (-1)%Z) 4%Z] false).
  - cbn. repeat constructor; cbn; intuition discriminate.
  - reflexivity.
  - reflexivity.
  - reflexivity.
  - repeat constructor. discriminate.
  - exact E.
Defined.

Lemma fold_castOnly (S0 : list InstId) (l : list InstId) :
  forall F0 Fend : Function,
    fold_left (fun acc GEP => match acc with
                              | Some F' => rewriteGEP F' GEP
                              | None => None
                              end) l (Some F0) = Some Fend ->
    NoDup l ->
    NoDup (map iid (instructions F0)) ->
    noSelfIndex F0 ->
    (forall h, In h S0 -> ~ In h l -> rewritten F0 h = true -> castOnly F0 h) ->
    forall h, In h S0 -> rewritten F0 h = true -> castOnly Fend h.
Proof.
  induction l as [|g l IH]; intros F0 Fend H Hl Hnd HS Hdone.
  - cbn in H. injection H as <-. intros h Hh Hr. apply Hdone; [exact Hh | tauto | exact Hr].
  - cbn [fold_left] in H.
    destruct (rewriteGEP F0 g) as [Fm|] eqn:Eg;
      [|rewrite fold_rewriteGEP_None in H; discriminate].
    inversion Hl as [|? ? Hgl Hl']; subst.
    destruct (rewriteGEP_step F0 Fm g Eg) as (_ & R1 & _).
    intros h Hh Hr. rewrite <- R1 in Hr. revert h Hh Hr.
    apply (IH Fm Fend H Hl' (rewriteGEP_NoDup F0 Fm g Hnd Eg)).
    + destruct (rewritten F0 g) eqn:ER.
      * destruct (rewriteGEP_rewritten F0 Fm g ER Eg)
          as (x & base & idxs & vec & ip & Hx & Hk & _ & Hip & ->).
        destruct (emitTagging g (iname x) idxs (mkBuilder (freshInst F0) []))
          as [NP B] eqn:E. cbn [fst snd].
        apply (noSelfIndex_kept F0 g ip x base idxs vec NP B); assumption.
      * rewrite (rewritten_false_noop F0 g ER) in Eg. injection Eg as <-. exact HS.
    + intros h Hh Hnl Hr. rewrite R1 in Hr.
      destruct (rewritten F0 g) eqn:ER.
      * destruct (rewriteGEP_rewritten F0 Fm g ER Eg)
          as (x & base & idxs & vec & ip & Hx & Hk & _ & Hip & ->).
        destruct (emitTagging g (iname x) idxs (mkBuilder (freshInst F0) []))
          as [NP B] eqn:E. cbn [fst snd].
        destruct (Nat.eq_dec h g) as [-> | Hhg].
        -- exists (freshInst F0), (PrefixOf (iname x) ++ "int")%string. split.
           ++ apply (sole_reader F0 g ip x base idxs vec NP B); try assumption.
              destruct (lookupInst_In F0 g x Hx) as [Hxin Hid].
              rewrite <- Hid. apply (HS x base idxs vec Hxin Hk).
           ++ apply (lookupInst_cast F0 g ip x base idxs vec NP B); assumption.
        -- apply (castOnly_kept F0 g ip x base idxs vec NP B); try assumption.
           apply Hdone; [exact Hh | | exact Hr].
           intros [E1 | E1]; [congruence | contradiction].
      * rewrite (rewritten_false_noop F0 g ER) in Eg. injection Eg as <-.
        apply Hdone; [exact Hh | | exact Hr].
        intros [E1 | E1]; [congruence | contradiction].
Qed.

(** X12 -- After a run no consumer reads a rewritten instruction.  Let the
    instructions of the function be pairwise distinct and no
    pointer-arithmetic instruction be one of its own indices.  After
    [runOnFunc], for every pointer-arithmetic instruction that passes the
    skip tests, exactly one operand in the whole function refers to it, and
    that is the operand of a pointer-to-integer cast: the rewrites of the
    other candidates neither bring a reader back nor touch that cast. *)
Theorem run_leaves_one_reader (F F' : Function) :
  NoDup (map iid (instructions F)) ->
  noSelfIndex F ->
  runOnFunc F = Some F' ->
  forall x, In x (instructions F) -> qualifies F x = true ->
            castOnly F' (iid x).
Proof.
  intros Hnd HS HR x Hx Hq.
  assert (Hlk : lookupInst F (iid x) = Some x)
    by (apply find_by_id; assumption).
  apply (fold_castOnly (collectGEPs F) (collectGEPs F) F F' HR).
  - apply NoDup_collectGEPs, Hnd.
  - exact Hnd.
  - exact HS.
  - intros h Hh Hn. contradiction.
  - unfold collectGEPs. apply in_map, filter_In. split; [exact Hx|].
    unfold qualifies in Hq. unfold isGEP.
    destruct (ikind x); try discriminate Hq; reflexivity.
  - unfold rewritten. rewrite Hlk. exact Hq.
Qed.

Lemma run_leaves_one_reader_witness :
  exists F', runOnFunc sampleFunction = Some F' /\ castOnly F' 1.
Proof.
  destruct (runOnFunc sampleFunction) as [F'|] eqn:E; [|discriminate E].
  exists F'. split; [reflexivity|].
  apply (run_leaves_one_reader sampleFunction F') with (x := sampleGEP).
  - cbn. repeat constructor; cbn; intuition discriminate.
  - intros y b0 ixs v0 [<- | [<- | [<- | []]]] K; try discriminate K.
    injection K as _ <- _. repeat constructor. discriminate.
  - exact E.
  - left. reflexivity.
  - reflexivity.
Defined.

(** ** There and back *)

Local Open Scope Z_scope.

Lemma wrap64_mod15 (z : Z) : wrap64 z mod 2 ^ 15 = z mod 2 ^ 15.
Proof.
  unfold wrap64. apply Z.mod_mod_divide. exists (2 ^ 49). reflexivity.
Qed.

Lemma tagged_back (p d1 d2 : Z) :
  0 <= p < 2 ^ 64 ->
  (d1 + d2) mod 2 ^ 15 = 0 ->
  let v1 := p mod 2 ^ 49 +
            2 ^ 49 * ((p / 2 ^ 49 + (if Z.testbit p 48 then d1 else 0)) mod 2 ^ 15) in
  0 <= v1 < 2 ^ 64 /\
  Z.testbit v1 48 = Z.testbit p 48 /\
  v1 mod 2 ^ 49 +
  2 ^ 49 * ((v1 / 2 ^ 49 + (if Z.testbit p 48 then d2 else 0)) mod 2 ^ 15) = p.
Proof.
  intros Hp Hd. cbv zeta.
  set (k1 := if Z.testbit p 48 then d1 else 0).
  set (k2 := if Z.testbit p 48 then d2 else 0).
  set (f1 := (p / 2 ^ 49 + k1) mod 2 ^ 15).
  assert (Hf1 : 0 <= f1 < 2 ^ 15) by (apply Z.mod_pos_bound; lia).
  assert (Hlow : 0 <= p mod 2 ^ 49 < 2 ^ 49) by (apply Z.mod_pos_bound; lia).
  assert (Hm : (p mod 2 ^ 49 + 2 ^ 49 * f1) mod 2 ^ 49 = p mod 2 ^ 49).
  { replace (p mod 2 ^ 49 + 2 ^ 49 * f1) with (p mod 2 ^ 49 + f1 * 2 ^ 49) by lia.
    rewrite Z.mod_add by lia. apply Z.mod_mod. lia. }
  assert (Hq : (p mod 2 ^ 49 + 2 ^ 49 * f1) / 2 ^ 49 = f1).
  { replace (p mod 2 ^ 49 + 2 ^ 49 * f1) with (p mod 2 ^ 49 + f1 * 2 ^ 49) by lia.
    rewrite Z.div_add by lia. rewrite Z.mod_div by lia. lia. }
  assert (Hk : (k1 + k2) mod 2 ^ 15 = 0).
  { unfold k1, k2. destruct (Z.testbit p 48); [exact Hd | reflexivity]. }
  assert (Hhigh : 0 <= p / 2 ^ 49 < 2 ^ 15).
  { split; [apply Z.div_pos; lia|]. apply Z.div_lt_upper_bound; lia. }
  split; [|split].
  - change (2 ^ 64) with (2 ^ 49 * 2 ^ 15). nia.
  - rewrite <- (Z.mod_pow2_bits_low (p mod 2 ^ 49 + 2 ^ 49 * f1) 49 48) by lia.
    rewrite Hm. apply Z.mod_pow2_bits_low. lia.
  - rewrite Hm, Hq. unfold f1. rewrite Zplus_mod_idemp_l.
    replace (p / 2 ^ 49 + k1 + k2) with (p / 2 ^ 49 + (k1 + k2)) by lia.
    rewrite <- Zplus_mod_idemp_r, Hk, Z.add_0_r.
    rewrite (Z.mod_small (p / 2 ^ 49)) by exact Hhigh.
    rewrite Z.add_comm. symmetry. apply Z.div_mod. lia.
Qed.

(** X13 -- There and back restores the pointer.  Take the sequences emitted
    for two pointer-arithmetic instructions whose offsets fold to constants
    [o1] and [o2] that cancel modulo 2^15 (an offset and its opposite, say).
    Run the first on a pointer [p], and the second on the result of the
    first: the second tagged pointer is [p] again, flag bit set or not. *)
Theorem tag_round_trip (g1 g2 n1 n2 : InstId) (name1 name2 : string)
    (idxs1 idxs2 : list GepIndex) (o1 o2 : Z) (env1 env2 : Env) :
  (g1 < n1)%nat -> (g2 < n2)%nat ->
  accumulateConstantOffset idxs1 0 = Some o1 ->
  accumulateConstantOffset idxs2 0 = Some o2 ->
  (o1 + o2) mod 2 ^ 15 = 0 ->
  0 <= instVal env1 g1 < 2 ^ 64 ->
  exists e1,
    exec env1 (emitted (snd (emitTagging g1 name1 idxs1 (mkBuilder n1 [])))) =
      Some e1 /\
    (instVal env2 g2 =
       valueOf e1 (fst (emitTagging g1 name1 idxs1 (mkBuilder n1 []))) ->
     exists e2,
       exec env2 (emitted (snd (emitTagging g2 name2 idxs2 (mkBuilder n2 [])))) =
         Some e2 /\
       valueOf e2 (fst (emitTagging g2 name2 idxs2 (mkBuilder n2 []))) =
         instVal env1 g1).
Proof.
  intros H1 H2 Ho1 Ho2 Ho Hp.
  destruct (emitTagging g1 name1 idxs1 (mkBuilder n1 [])) as [NP1 B1] eqn:E1.
  destruct (emitTagging g2 name2 idxs2 (mkBuilder n2 [])) as [NP2 B2] eqn:E2.
  cbn [fst snd].
  destruct (emitTagging_value g1 name1 idxs1 n1 env1 NP1 B1 H1 E1)
    as (e1 & d1 & He1 & Hv1 & Hd1).
  exists e1. split; [exact He1|]. intros Hin.
  destruct (emitTagging_value g2 name2 idxs2 n2 env2 NP2 B2 H2 E2)
    as (e2 & d2 & He2 & Hv2 & Hd2).
  exists e2. split; [exact He2|].
  rewrite (Hd1 o1 Ho1) in Hv1. rewrite (Hd2 o2 Ho2) in Hv2.
  rewrite (tagged_value _ _ Hp) in Hv1.
  assert (Hc : (constValue o1 + constValue o2) mod 2 ^ 15 = 0).
  { unfold constValue. rewrite Zplus_mod, !wrap64_mod15, <- Zplus_mod. exact Ho. }
  destruct (tagged_back (instVal env1 g1) (constValue o1) (constValue o2) Hp Hc)
    as (Hr & Hb & Hback).
  rewrite <- Hv1 in Hr, Hb, Hback. rewrite <- Hin in Hr, Hb, Hback.
  rewrite Hv2, (tagged_value _ _ Hr), Hb. exact Hback.
Qed.

Lemma tag_round_trip_witness :
  exists e1,
    exec (sampleEnv (2 ^ 48 + 4096))
         (emitted (snd (emitTagging 1%nat "p" [SeqIndex (VConstInt (-1)) 4]
                          (mkBuilder 4%nat [])))) = Some e1.
Proof.
  destruct (tag_round_trip 1%nat 1%nat 4%nat 4%nat "p" "q"
              [SeqIndex (VConstInt (-1)) 4] [SeqIndex (VConstInt 1) 4]
              (2 ^ 64 - 4) 4
              (sampleEnv (2 ^ 48 + 4096)) (sampleEnv 0))
    as (e1 & He & _).
  - lia.
  - lia.
  - reflexivity.
  - reflexivity.
  - reflexivity.
  - cbn. lia.
  - exists e1. exact He.
Defined.

Local Open Scope nat_scope.
Local Open Scope list_scope.

(** ** The run keeps the PHI nodes at the head of their blocks *)











(** ** The resolver for arguments *)


(** ** How much one rewrite inserts *)












(** ** The vtable classifier reads names only *)

(** X17 -- The vtable classifier is three prefix tests.  [isVtableGep]
    answers yes exactly when the name of the pointer operand starts with
    "vtable", or the instruction has one index whose operand has a name
    starting with "vbase.offset", or the pointer operand is a global
    variable whose name starts with "_ZTV": the [hasName] tests of the code
    add nothing, a name with such a prefix being non-empty.  So an
    instruction with two indices or more is never classified by an index,
    and the answer is the same in any function that gives the two operands
    the same names. *)
Theorem isVtableGep_prefix_tests (F : Function) (SrcPtr : Value)
    (idxs : list GepIndex) :
  isVtableGep F SrcPtr idxs =
    (starts_with (getName F SrcPtr) "vtable" ||
     match idxs with
     | [ix] => starts_with (getName F (indexOperand ix)) "vbase.offset"
     | _ => false
     end ||
     (isGlobalVariable SrcPtr && starts_with (getName F SrcPtr) "_ZTV"))%bool /\
  (forall G : Function,
     getName G SrcPtr = getName F SrcPtr ->
     (forall ix, idxs = [ix] ->
        getName G (indexOperand ix) = getName F (indexOperand ix)) ->
     isVtableGep G SrcPtr idxs = isVtableGep F SrcPtr idxs).
Proof.
  assert (Hn : forall s pat, pat <> ""%string ->
             (hasName s && starts_with s pat)%bool = starts_with s pat).
  { intros s pat Hp. destruct (starts_with s pat) eqn:E.
    - rewrite (starts_with_hasName s pat Hp E). reflexivity.
    - apply andb_false_r. }
  split.
  - unfold isVtableGep. rewrite Hn by discriminate.
    destruct (starts_with (getName F SrcPtr) "vtable"); [reflexivity|].
    cbn [orb]. destruct idxs as [|ix [|ix' rest]]; cbn [orb].
    + destruct (isGlobalVariable SrcPtr && starts_with (getName F SrcPtr) "_ZTV")%bool;
        reflexivity.
    + rewrite Hn by discriminate.
      destruct (starts_with (getName F (indexOperand ix)) "vbase.offset");
        [reflexivity|]. cbn [orb].
      destruct (isGlobalVariable SrcPtr && starts_with (getName F SrcPtr) "_ZTV")%bool;
        reflexivity.
    + destruct (isGlobalVariable SrcPtr && starts_with (getName F SrcPtr) "_ZTV")%bool;
        reflexivity.
  - intros G Hs Hi. unfold isVtableGep. rewrite Hs.
    destruct idxs as [|ix [|ix' rest]]; try reflexivity.
    rewrite (Hi ix eq_refl). reflexivity.
Qed.
